(** * compare_catalogs.py: a shallow embedding and its verified properties

    The program loads two delimited catalogs (staging and production),
    compares them record by record and field by field, and writes a grouped
    report.  This file embeds every function of [compare_catalogs.py] as a
    Rocq function and proves properties of the embedded functions.

    Conventions.
    - A Python [str] is a list of Unicode code points ([N]).
    - A Python [dict] is an association list in insertion order without
      repeated keys; [d[k] = v] overwrites in place or appends.
    - A Python exception is the value [None] of an [option] result.
    - Reading and writing files is outside the embedding: [load_csv] starts
      from the text that [f.read()] returned, and [write_report] returns the
      sequence of effects it performs, given whether the file system lets it
      create the directory and open the file. *)

From Stdlib Require Import Ascii String.
From Stdlib Require Import List NArith ZArith Bool Lia.
Import ListNotations.

Set Implicit Arguments.

(** ** Python strings and the builtin methods the program calls *)

Module Py.

Definition char := N.
Definition str := list char.

(** An ASCII literal as a [str]. *)
Definition lit (s : string) : str := map N_of_ascii (list_ascii_of_string s).

Definition QUOTE2 : char := 34%N.   (* the double quote *)
Definition QUOTE1 : char := 39%N.   (* the single quote *)
Definition COMMA : char := 44%N.
Definition EQUALS : char := 61%N.
Definition LF : char := 10%N.
Definition CR : char := 13%N.

Fixpoint str_eqb (a b : str) : bool :=
  match a, b with
  | [], [] => true
  | x :: a', y :: b' => N.eqb x y && str_eqb a' b'
  | _, _ => false
  end.

(** [s.startswith(p)] *)
Fixpoint startswith (p s : str) : bool :=
  match p, s with
  | [], _ => true
  | x :: p', y :: s' => N.eqb x y && startswith p' s'
  | _ :: _, [] => false
  end.

(** [s.endswith(p)] *)
Definition endswith (p s : str) : bool := startswith (rev p) (rev s).

(** [s[1:-1]] *)
Definition slice_1_m1 (s : str) : str := removelast (tl s).

(** [str.isspace] on one code point: the characters [str.strip()] removes. *)
Definition isspace (c : char) : bool :=
  ((9 <=? c) && (c <=? 13) || (28 <=? c) && (c <=? 32) || (c =? 133) || (c =? 160)
   || (c =? 5760) || (8192 <=? c) && (c <=? 8202) || (c =? 8232) || (c =? 8233)
   || (c =? 8239) || (c =? 8287) || (c =? 12288))%N.

Fixpoint lstrip (s : str) : str :=
  match s with
  | [] => []
  | c :: s' => if isspace c then lstrip s' else s
  end.

Definition rstrip (s : str) : str := rev (lstrip (rev s)).

(** [s.strip()] *)
Definition strip (s : str) : str := rstrip (lstrip s).

(** The line boundaries of [str.splitlines()]. *)
Definition islinebreak (c : char) : bool :=
  ((10 <=? c) && (c <=? 13) || (28 <=? c) && (c <=? 30) || (c =? 133)
   || (c =? 8232) || (c =? 8233))%N.

(** Puts [c] in front of the first piece of a list of pieces. *)
Definition cons_piece (c : char) (ps : list str) : list str :=
  match ps with
  | [] => [[c]]
  | p :: ps' => (c :: p) :: ps'
  end.

(** [s.splitlines()]: the lines without their terminators; CR LF is one
    terminator; no empty last line after a final terminator. *)
Fixpoint splitlines (s : str) : list str :=
  match s with
  | [] => []
  | c :: s' =>
      if islinebreak c then
        [] :: (if N.eqb c CR
               then match s' with
                    | c' :: s'' => if N.eqb c' LF then splitlines s'' else splitlines s'
                    | [] => []
                    end
               else splitlines s')
      else cons_piece c (splitlines s')
  end.

(** The scan of [s.split(sep)] for a non-empty [sep]; [skip] counts the
    characters of a separator occurrence still to be passed over. *)
Fixpoint split_scan (sep : str) (skip : nat) (s : str) : list str :=
  match s with
  | [] => [[]]
  | c :: s' =>
      match skip with
      | S k => split_scan sep k s'
      | O => if startswith sep s
             then [] :: split_scan sep (length sep - 1) s'
             else cons_piece c (split_scan sep 0 s')
      end
  end.

(** [s.split(sep)]; an empty separator raises [ValueError]. *)
Definition split (sep s : str) : option (list str) :=
  match sep with
  | [] => None
  | _ => Some (split_scan sep 0 s)
  end.

(** [sep.join(parts)] *)
Fixpoint join (sep : str) (parts : list str) : str :=
  match parts with
  | [] => []
  | [p] => p
  | p :: ps => p ++ sep ++ join sep ps
  end.

(** The scan of [s.replace(old, new)] for a non-empty [old]. *)
Fixpoint replace_scan (old new : str) (skip : nat) (s : str) : str :=
  match s with
  | [] => []
  | c :: s' =>
      match skip with
      | S k => replace_scan old new k s'
      | O => if startswith old s
             then new ++ replace_scan old new (length old - 1) s'
             else c :: replace_scan old new 0 s'
      end
  end.

(** [s.replace(old, new)]; with an empty [old], [new] goes before every
    character and at the end. *)
Definition replace (old new s : str) : str :=
  match old with
  | [] => new ++ flat_map (fun c => c :: new) s
  | _ => replace_scan old new 0 s
  end.

(** [s.split(c, 1)] when [c in s]: the text before and after the first [c];
    [None] when [c] does not occur in [s]. *)
Fixpoint cut (c : char) (s : str) : option (str * str) :=
  match s with
  | [] => None
  | x :: s' =>
      if N.eqb x c then Some ([], s')
      else match cut c s' with
           | Some (a, b) => Some (x :: a, b)
           | None => None
           end
  end.

(** [l.index(x)], with [-1] standing for the [ValueError]. *)
Fixpoint index_of (x : str) (l : list str) : Z :=
  match l with
  | [] => (-1)%Z
  | y :: l' => if str_eqb y x then 0%Z
               else let i := index_of x l' in
                    if (i <? 0)%Z then (-1)%Z else (i + 1)%Z
  end.

(** [html.escape(s)] with its default [quote=True]. *)
Definition html_escape (s : str) : str :=
  let s := replace (lit "&") (lit "&amp;") s in
  let s := replace (lit "<") (lit "&lt;") s in
  let s := replace (lit ">") (lit "&gt;") s in
  let s := replace [QUOTE2] (lit "&quot;") s in
  replace [QUOTE1] (lit "&#x27;") s.

End Py.
Import Py.

(** ** Python dicts with string keys, and sets of strings *)

Definition dict (V : Type) := list (str * V).

Fixpoint dict_get V (d : dict V) (k : str) : option V :=
  match d with
  | [] => None
  | (k', v) :: d' => if str_eqb k' k then Some v else dict_get d' k
  end.

(** [k in d] *)
Definition dict_mem V (k : str) (d : dict V) : bool :=
  match dict_get d k with Some _ => true | None => false end.

(** [d[k] = v]: an existing key keeps its place, a new key goes last. *)
Fixpoint dict_set V (d : dict V) (k : str) (v : V) : dict V :=
  match d with
  | [] => [(k, v)]
  | (k', v') :: d' =>
      if str_eqb k' k then (k', v) :: d' else (k', v') :: dict_set d' k v
  end.

Definition dict_keys V (d : dict V) : list str := map fst d.

(** The assignments [d[k1] = v1; d[k2] = v2; ...] in sequence. *)
Definition assign_all V (d : dict V) (items : list (str * V)) : dict V :=
  fold_left (fun d kv => dict_set d (fst kv) (snd kv)) items d.

(** A dict display [{k1: v1, k2: v2, ...}], and [dict(items)]. *)
Definition dict_literal V (items : list (str * V)) : dict V := assign_all [] items.

(** [x in s] for a set (or list) of strings. *)
Definition set_mem (x : str) (s : list str) : bool := existsb (str_eqb x) s.

(** ** Exceptions *)

Definition bind A B (m : option A) (k : A -> option B) : option B :=
  match m with
  | Some a => k a
  | None => None
  end.

Notation "x <- m ;; k" := (bind m (fun x => k))
  (at level 61, m at next level, right associativity).

(** A [for] loop whose body may raise. *)
Fixpoint for_each A S (body : S -> A -> option S) (l : list A) (s : S) : option S :=
  match l with
  | [] => Some s
  | a :: l' => s' <- body s a ;; for_each body l' s'
  end.

(** [v or ""] for a value that is a string or [None]. *)
Definition or_empty (v : option str) : str :=
  match v with
  | Some s => s
  | None => []
  end.

(** ** Rows and catalogs *)

(** A row as [csv.DictReader] builds it: the values under the header's
    names, each a string or [None] (the reader's [restval], for a row shorter
    than the header), and under the key [None] (the reader's [restkey], always
    the last key) the list of the values beyond the header; [r_rest] is empty
    when the row has no such key. *)
Record record := mk_record {
  r_fields : dict (option str);
  r_rest : list str
}.

(** [row.get(key)] for a string [key], [None] for an absent key too. *)
Definition record_get (row : record) (key : str) : option str :=
  match dict_get (r_fields row) key with
  | Some v => v
  | None => None
  end.

(** The truth value of a row: a dict is false when it has no key. *)
Definition record_truthy (row : record) : bool :=
  match r_fields row, r_rest row with
  | [], [] => false
  | _, _ => true
  end.

Definition catalog := dict record.

(** ** The [csv] module of the Python library

    [csv.reader] and [csv.DictReader] as [load_csv] uses them: the default
    dialect ([quotechar] the double quote, [doublequote] on, no
    [escapechar], [skipinitialspace] off, [strict] off, minimal quoting)
    with a one-character [delimiter].  The reader's limit on the length of
    one field is left out. *)

Module Csv.

Inductive parser_state :=
| START_RECORD | START_FIELD | IN_FIELD | IN_QUOTED_FIELD
| QUOTE_IN_QUOTED_FIELD | EAT_CRNL.

Definition state_eqb (a b : parser_state) : bool :=
  match a, b with
  | START_RECORD, START_RECORD | START_FIELD, START_FIELD | IN_FIELD, IN_FIELD
  | IN_QUOTED_FIELD, IN_QUOTED_FIELD | QUOTE_IN_QUOTED_FIELD, QUOTE_IN_QUOTED_FIELD
  | EAT_CRNL, EAT_CRNL => true
  | _, _ => false
  end.

(** The reader's state: the fields of the record read so far and the
    characters of the field being read. *)
Record reader := mk_reader {
  state : parser_state;
  fields : list str;
  field : str
}.

Definition parse_reset : reader := mk_reader START_RECORD [] [].

Definition set_state (st : parser_state) (r : reader) : reader :=
  mk_reader st (fields r) (field r).

Definition parse_save_field (r : reader) : reader :=
  mk_reader (state r) (fields r ++ [field r]) [].

Definition parse_add_char (c : char) (r : reader) : reader :=
  mk_reader (state r) (fields r) (field r ++ [c]).

Definition is_crnl (c : char) : bool := N.eqb c LF || N.eqb c CR.

(** The case [START_FIELD] of [parse_process_char]; [START_RECORD] falls
    through to it. *)
Definition start_field (delimiter : char) (r : reader) (c : option char) : reader :=
  match c with
  | None => set_state START_RECORD (parse_save_field r)
  | Some ch =>
      if is_crnl ch then set_state EAT_CRNL (parse_save_field r)
      else if N.eqb ch QUOTE2 then set_state IN_QUOTED_FIELD r
      else if N.eqb ch delimiter then parse_save_field r
      else set_state IN_FIELD (parse_add_char ch r)
  end.

(** [parse_process_char]: one character of a line, or [None] for the end of
    the line.  The result [None] is the [csv.Error] of a line break inside
    an unquoted field. *)
Definition parse_process_char (delimiter : char) (r : reader) (c : option char)
  : option reader :=
  match state r with
  | START_RECORD =>
      match c with
      | None => Some r
      | Some ch =>
          if is_crnl ch then Some (set_state EAT_CRNL r)
          else Some (start_field delimiter (set_state START_FIELD r) c)
      end
  | START_FIELD => Some (start_field delimiter r c)
  | IN_FIELD =>
      match c with
      | None => Some (set_state START_RECORD (parse_save_field r))
      | Some ch =>
          if is_crnl ch then Some (set_state EAT_CRNL (parse_save_field r))
          else if N.eqb ch delimiter then Some (set_state START_FIELD (parse_save_field r))
          else Some (parse_add_char ch r)
      end
  | IN_QUOTED_FIELD =>
      match c with
      | None => Some r
      | Some ch =>
          if N.eqb ch QUOTE2 then Some (set_state QUOTE_IN_QUOTED_FIELD r)
          else Some (parse_add_char ch r)
      end
  | QUOTE_IN_QUOTED_FIELD =>
      match c with
      | None => Some (set_state START_RECORD (parse_save_field r))
      | Some ch =>
          if N.eqb ch QUOTE2 then Some (set_state IN_QUOTED_FIELD (parse_add_char ch r))
          else if N.eqb ch delimiter then Some (set_state START_FIELD (parse_save_field r))
          else if is_crnl ch then Some (set_state EAT_CRNL (parse_save_field r))
          else Some (set_state IN_FIELD (parse_add_char ch r))
      end
  | EAT_CRNL =>
      match c with
      | None => Some (set_state START_RECORD r)
      | Some ch => if is_crnl ch then Some r else None
      end
  end.

(** One line of the input: its characters, then the end of the line. *)
Definition process_line (delimiter : char) (r : reader) (line : str) : option reader :=
  r' <- for_each (fun r ch => parse_process_char delimiter r (Some ch)) line r ;;
  parse_process_char delimiter r' None.

(** The records [csv.reader] yields from the lines that are left, [r] being
    the state inside the record being read.  A record ends with the line
    that leaves the state [START_RECORD]; at the end of the input an
    unfinished record is yielded as it stands. *)
Fixpoint reader_rows (delimiter : char) (r : reader) (lines : list str)
  : option (list (list str)) :=
  match lines with
  | [] =>
      if negb (Nat.eqb (length (field r)) 0) || state_eqb (state r) IN_QUOTED_FIELD
      then Some [fields (parse_save_field r)]
      else Some []
  | line :: lines' =>
      r' <- process_line delimiter r line ;;
      if state_eqb (state r') START_RECORD
      then rows <- reader_rows delimiter parse_reset lines' ;; Some (fields r' :: rows)
      else reader_rows delimiter r' lines'
  end.

(** [list(csv.reader(lines, delimiter=delimiter))] *)
Definition reader_list (lines : list str) (delimiter : char) : option (list (list str)) :=
  reader_rows delimiter parse_reset lines.

(** The dict [DictReader.__next__] builds from one record. *)
Definition dict_row (fieldnames row : list str) : record :=
  let d := dict_literal (combine fieldnames (map (@Some str) row)) in
  let lf := length fieldnames in
  let lr := length row in
  if Nat.ltb lf lr then mk_record d (skipn lf row)
  else mk_record (fold_left (fun d key => dict_set d key None) (skipn lr fieldnames) d) [].

(** [list(csv.DictReader(lines, delimiter=delimiter))]: the first record
    gives the field names, and empty records are passed over. *)
Definition DictReader (lines : list str) (delimiter : char) : option (list record) :=
  rows <- reader_list lines delimiter ;;
  match rows with
  | [] => Some []
  | fieldnames :: rows' =>
      Some (map (dict_row fieldnames)
                (filter (fun row => negb (Nat.eqb (length row) 0)) rows'))
  end.

End Csv.

(** ** The program *)

Definition PLACEHOLDER_COMMA : str := lit "<<<COMMA>>>".
Definition PLACEHOLDER_NEWLINE : str := lit "<<<NEWLINE>>>".
Definition PLACEHOLDER_SECTION : str := lit "<<<SECTION>>>".

(** The two-character literal of lines 59, 73 and 229 of the source file:
    U+00C2 U+00A7. *)
Definition SECTION_MARK : str := [194; 167]%N.

(** The three-character literal between the two values in line 199 of the
    source file: U+00E2 U+2020 U+2019. *)
Definition ARROW : str := [226; 8224; 8217]%N.

(** The test of lines 55 and 90 followed by [v[1:-1]]. *)
Definition strip_quotes (v : str) : str :=
  if (startswith [QUOTE2] v && endswith [QUOTE2] v)
     || (startswith [QUOTE1] v && endswith [QUOTE1] v)
  then slice_1_m1 v
  else v.


(** *** load_csv (lines 18-75), from the text [f.read()] returned *)

(** The variables of the scan in [replace_special_fields]; [quote_char] is
    [None] for the initial empty string. *)
Record scan := mk_scan {
  parts : list str;
  current : str;
  in_quotes : bool;
  quote_char : option char
}.

Definition scan_char (delimiter : char) (s : scan) (ch : char) : scan :=
  if N.eqb ch QUOTE2 || N.eqb ch QUOTE1 then
    if negb (in_quotes s) then mk_scan (parts s) (current s ++ [ch]) true (Some ch)
    else if match quote_char s with Some q => N.eqb q ch | None => false end
         then mk_scan (parts s) (current s ++ [ch]) false (quote_char s)
         else mk_scan (parts s) (current s ++ [ch]) (in_quotes s) (quote_char s)
  else if N.eqb ch delimiter && negb (in_quotes s)
       then mk_scan (parts s ++ [current s]) [] (in_quotes s) (quote_char s)
       else mk_scan (parts s) (current s ++ [ch]) (in_quotes s) (quote_char s).

(** [parts[i] = v] for an index inside the list. *)
Fixpoint list_set (l : list str) (i : nat) (v : str) : list str :=
  match l, i with
  | [], _ => []
  | _ :: l', O => v :: l'
  | x :: l', S i' => x :: list_set l' i' v
  end.

(** Lines 57-59. *)
Definition protect (val : str) : str :=
  replace SECTION_MARK PLACEHOLDER_SECTION
    (replace [CR] PLACEHOLDER_NEWLINE
       (replace [LF] PLACEHOLDER_NEWLINE
          (replace [COMMA] PLACEHOLDER_COMMA val))).

(** Lines 71-73. *)
Definition restore (val : str) : str :=
  replace PLACEHOLDER_SECTION SECTION_MARK
    (replace PLACEHOLDER_NEWLINE [LF]
       (replace PLACEHOLDER_COMMA [COMMA] val)).

Definition replace_special_fields (delimiter : char) (special_idx : Z) (line : str) : str :=
  let s := fold_left (scan_char delimiter) line (mk_scan [] [] false None) in
  let parts := parts s ++ [current s] in
  let parts :=
    if ((0 <=? special_idx) && (special_idx <? Z.of_nat (length parts)))%Z then
      let val := nth (Z.to_nat special_idx) parts [] in
      let val := strip_quotes val in
      let val := protect val in
      list_set parts (Z.to_nat special_idx) val
    else parts in
  join [delimiter] parts.

(** The body of the loop over the reader's rows. *)
Definition load_row (special_field key_field : str) (data : catalog) (row : record)
  : option catalog :=
  match record_get row key_field with
  | None => Some data
  | Some [] => Some data
  | Some _ =>
      let row :=
        match record_get row special_field with
        | Some ((_ :: _) as v) =>
            mk_record (dict_set (r_fields row) special_field (Some (restore v))) (r_rest row)
        | _ => row
        end in
      key <- record_get row key_field ;;
      Some (dict_set data (strip key) row)
  end.

Definition load_csv (content : str) (delimiter : char) (special_field key_field : str)
  : option catalog :=
  let lines := splitlines content in
  match lines with
  | [] => Some []
  | header :: rest =>
      headers <- split [delimiter] header ;;
      let special_idx := index_of special_field headers in
      let processed_lines :=
        header :: map (replace_special_fields delimiter special_idx) rest in
      rows <- Csv.DictReader processed_lines delimiter ;;
      for_each (load_row special_field key_field) rows []
  end.

Section Program.

(** [html.unescape] of the Python library: its table of named character
    references is not part of the program. *)
Variable html_unescape : str -> str.

(** *** parse_additional_attributes (lines 78-95) *)

(** The body of the loop over [pairs]. *)
Definition parse_pair (attributes : dict str) (pair : str) : dict str :=
  match cut EQUALS pair with
  | Some (key, value) =>
      let key := strip key in
      let value := strip value in
      let value := html_unescape value in
      let value := strip_quotes value in
      dict_set attributes key value
  | None => dict_set attributes (strip pair) []
  end.

Definition parse_additional_attributes (attr_string : option str) (attr_separator : str)
  : option (dict str) :=
  match attr_string with
  | None => Some []
  | Some [] => Some []
  | Some s =>
      pairs <- split attr_separator s ;;
      Some (fold_left parse_pair pairs [])
  end.

(** *** diff_additional_attributes (lines 98-116) *)

Definition diff_staging_step (prod_attrs : dict str) (exclude_attrs : list str)
    (diffs : dict (str * str)) (item : str * str) : dict (str * str) :=
  let (key, stg_value) := item in
  if set_mem key exclude_attrs then diffs
  else
    let prod_value := match dict_get prod_attrs key with Some v => v | None => [] end in
    if negb (str_eqb prod_value stg_value)
    then dict_set diffs key (stg_value, prod_value)
    else diffs.

Definition diff_production_step (stg_attrs : dict str) (exclude_attrs : list str)
    (diffs : dict (str * str)) (item : str * str) : dict (str * str) :=
  let (key, prod_value) := item in
  if set_mem key exclude_attrs then diffs
  else if negb (dict_mem key stg_attrs)
       then dict_set diffs key ([], prod_value)
       else diffs.

Definition diff_additional_attributes (stg_val prod_val : option str)
    (attr_separator : str) (exclude_attrs : list str) : option (dict (str * str)) :=
  stg_attrs <- parse_additional_attributes stg_val attr_separator ;;
  prod_attrs <- parse_additional_attributes prod_val attr_separator ;;
  let diffs := [] in
  let diffs := fold_left (diff_staging_step prod_attrs exclude_attrs) stg_attrs diffs in
  let diffs := fold_left (diff_production_step stg_attrs exclude_attrs) prod_attrs diffs in
  Some diffs.

(** *** compare_catalogs (lines 119-173) *)

Definition MISSING : str := lit "missing_in_production".
Definition EXTRA : str := lit "extra_in_production".
Definition DIFFERENT : str := lit "different_value".
Definition DIFFERENT_ATTR : str := lit "different_value (additional_attribute)".

(** The dict display of lines 126, 145, 155 and 165. *)
Definition diff_entry (key_field sku type field staging_value production_value : str)
  : dict str :=
  dict_literal [(key_field, sku); (lit "type", type); (lit "field", field);
                (lit "staging_value", staging_value);
                (lit "production_value", production_value)].

Section Compare.

Variables (ignore_fields : list str) (special_field attr_separator : str)
          (exclude_additional_attributes : list str) (key_field : str).

(** The body of the loop over [stg_row.keys()], for a string key. *)
Definition compare_field (sku : str) (prod_row : record)
    (diffs : list (dict str)) (item : str * option str) : option (list (dict str)) :=
  let (field, stg_raw) := item in
  if set_mem field ignore_fields then Some diffs
  else
    let stg_val := strip (or_empty stg_raw) in
    let prod_val := strip (or_empty (record_get prod_row field)) in
    if str_eqb field special_field then
      subdiffs <- diff_additional_attributes (Some stg_val) (Some prod_val)
                    attr_separator exclude_additional_attributes ;;
      Some (fold_left
              (fun diffs sub =>
                 let '(subkey, (stg_subval, prod_subval)) := sub in
                 diffs ++ [diff_entry key_field sku DIFFERENT_ATTR
                             (special_field ++ lit ":" ++ subkey)
                             stg_subval prod_subval])
              subdiffs diffs)
    else if negb (str_eqb stg_val prod_val)
         then Some (diffs ++ [diff_entry key_field sku DIFFERENT field stg_val prod_val])
         else Some diffs.

(** The body of the loop over [staging.items()].  The key [None] of a row
    with values beyond the header is no member of [ignore_fields], and its
    value, a non-empty list, has no [strip]: line 139 raises. *)
Definition compare_record (production : catalog)
    (diffs : list (dict str)) (item : str * record) : option (list (dict str)) :=
  let (sku, stg_row) := item in
  match dict_get production sku with
  | Some prod_row =>
      if record_truthy prod_row then
        diffs <- for_each (compare_field sku prod_row) (r_fields stg_row) diffs ;;
        match r_rest stg_row with
        | [] => Some diffs
        | _ :: _ => None
        end
      else Some (diffs ++ [diff_entry key_field sku MISSING [] [] []])
  | None => Some (diffs ++ [diff_entry key_field sku MISSING [] [] []])
  end.

(** The body of the loop over [production.keys()]. *)
Definition compare_extra (staging : catalog) (diffs : list (dict str)) (sku : str)
  : list (dict str) :=
  if negb (dict_mem sku staging)
  then diffs ++ [diff_entry key_field sku EXTRA [] [] []]
  else diffs.

Definition compare_catalogs (staging production : catalog) : option (list (dict str)) :=
  let diffs := [] in
  diffs <- for_each (compare_record production) staging diffs ;;
  Some (fold_left (compare_extra staging) (dict_keys production) diffs).

End Compare.

End Program.

(** *** write_report (lines 176-217), as the sequence of its effects *)

Inductive event :=
| NoDifferencesNotice                    (* the [print] of line 178 *)
| Makedirs (directory : str)             (* line 205 *)
| OpenFile (output_file : str)           (* line 206 *)
| WriteHeader (fields : list str)        (* line 208 *)
| WriteRow (row : dict (option str))     (* line 210 *)
| ReportNotice (output_file : str)       (* the [print] of line 216 *)
| TotalNotice (total : nat).             (* the [print] of line 217 *)

(** The file system as [write_report] meets it: whether
    [os.makedirs(path, exist_ok=True)] and [open(path, "w", ...)] return for
    a path; otherwise they raise [OSError].  Writing to the open file and
    printing are taken to succeed. *)
Record file_system := mk_file_system {
  makedirs_returns : str -> bool;
  open_returns : str -> bool
}.

Definition SLASH : char := 47%N.

(** [path[:path.rfind("/") + 1]] *)
Fixpoint up_to_last_slash (path : str) : str :=
  match path with
  | [] => []
  | c :: rest =>
      match up_to_last_slash rest with
      | [] => if N.eqb c SLASH then [c] else []
      | head => c :: head
      end
  end.

Fixpoint lstrip_slashes (s : str) : str :=
  match s with
  | [] => []
  | c :: s' => if N.eqb c SLASH then lstrip_slashes s' else s
  end.

(** [os.path.dirname(path)] of a POSIX system: the path up to its last
    slash, without the slashes at the end of that unless it holds nothing
    but slashes. *)
Definition dirname (path : str) : str :=
  let head := up_to_last_slash path in
  if forallb (N.eqb SLASH) head then head
  else rev (lstrip_slashes (rev head)).

(** [os.makedirs(name, exist_ok=True)]: the empty name raises
    [FileNotFoundError] on every file system. *)
Definition makedirs (fs : file_system) (name : str) : option unit :=
  match name with
  | [] => None
  | _ :: _ => if makedirs_returns fs name then Some tt else None
  end.

(** [open(name, "w", newline='', encoding='utf-8')] *)
Definition open_file (fs : file_system) (name : str) : option unit :=
  if open_returns fs name then Some tt else None.

(** A value of [grouped]: the dict [{"diffs": ..., "product_websites": ...}]. *)
Record info := mk_info {
  diffs : list str;
  product_websites : option str
}.

Section Report.

Variable fs : file_system.
Variables (html_fields : list str) (staging_data : catalog)
          (output_file key_field : str).

(** The test of line 196. *)
Definition needs_escape (field : str) : bool :=
  existsb (fun html_field =>
             str_eqb field html_field || startswith (html_field ++ lit ":") field)
          html_fields.

(** [grouped[sku]["diffs"].append(text)] *)
Definition append_diff (grouped : dict info) (sku text : str) : option (dict info) :=
  i <- dict_get grouped sku ;;
  Some (dict_set grouped sku (mk_info (diffs i ++ [text]) (product_websites i))).

(** The body of the loop over [diffs]; a key missing from [diff] raises. *)
Definition group_diff (grouped : dict info) (diff : dict str) : option (dict info) :=
  sku <- dict_get diff key_field ;;
  let grouped :=
    if negb (dict_mem sku grouped)
    then dict_set grouped sku (mk_info [] (Some []))
    else grouped in
  type <- dict_get diff (lit "type") ;;
  if str_eqb type MISSING then append_diff grouped sku MISSING
  else
    type <- dict_get diff (lit "type") ;;
    if str_eqb type EXTRA then append_diff grouped sku EXTRA
    else
      field <- dict_get diff (lit "field") ;;
      stg_val <- dict_get diff (lit "staging_value") ;;
      prod_val <- dict_get diff (lit "production_value") ;;
      let escape := needs_escape field in
      let stg_val := if escape then html_escape stg_val else stg_val in
      let prod_val := if escape then html_escape prod_val else prod_val in
      append_diff grouped sku
        (field ++ lit " [" ++ stg_val ++ lit " " ++ ARROW ++ lit " " ++ prod_val ++ lit "]").

(** Lines 202-203. *)
Definition websites_of (sku : str) : option str :=
  match dict_get staging_data sku with
  | Some stg_row =>
      if record_truthy stg_row then
        match dict_get (r_fields stg_row) (lit "product_websites") with
        | Some v => v
        | None => Some []
        end
      else Some []
  | None => Some []
  end.

(** The body of the loop of line 201. *)
Definition set_websites (item : str * info) : str * info :=
  (fst item, mk_info (diffs (snd item)) (websites_of (fst item))).

(** The dict display of lines 210-214. *)
Definition report_row (item : str * info) : dict (option str) :=
  dict_literal [(key_field, Some (fst item));
                (lit "product_websites", product_websites (snd item));
                (lit "differences", Some (join (lit "; ") (diffs (snd item))))].

Definition write_report (diffs : list (dict str)) : option (list event) :=
  match diffs with
  | [] => Some [NoDifferencesNotice]
  | _ :: _ =>
      let fields := [key_field; lit "product_websites"; lit "differences"] in
      grouped <- for_each group_diff diffs [] ;;
      let grouped := map set_websites grouped in
      let directory := dirname output_file in
      made <- makedirs fs directory ;;
      opened <- open_file fs output_file ;;
      Some ([Makedirs directory; OpenFile output_file; WriteHeader fields]
            ++ map (fun item => WriteRow (report_row item)) grouped
            ++ [ReportNotice output_file; TotalNotice (length diffs)])
  end.

End Report.

(** *** main (lines 220-242), from the dict [load_config] returned

    The configuration is the dict of the JSON file, its values of the types
    the program expects; a key the file lacks is [None].  Files are read
    through [read_file], which gives the decoded text of a file, or [None]
    for the error of a file that cannot be read; the report is written
    through the file system [fs]. *)

Record config := mk_config {
  cfg_key_field : option str;
  cfg_csv_delimiter : option str;
  cfg_attr_separator : option str;
  cfg_exclude_columns : option (list str);
  cfg_exclude_additional_attributes : option (list str);
  cfg_html_fields : option (list str);
  cfg_master_file : option str;
  cfg_comparison_file : option str;
  cfg_special_field : option str;
  cfg_output_file : option str
}.

(** [config.get(key, default)] *)
Definition get_or A (value : option A) (default : A) : A :=
  match value with
  | Some v => v
  | None => default
  end.

Section Main.

Variable html_unescape : str -> str.
Variable read_file : str -> option str.
Variable fs : file_system.

(** [load_csv] with its file and a delimiter of any length.  [open] raises
    for the file name [None].  A text without lines gives the empty catalog
    before the delimiter is looked at; otherwise the empty delimiter raises
    in [str.split] (line 27) and one of several characters raises in
    [csv.DictReader] (line 65). *)
Definition load_csv_file (filename : option str) (delimiter special_field key_field : str)
  : option catalog :=
  name <- filename ;;
  content <- read_file name ;;
  match delimiter with
  | [d] => load_csv content d special_field key_field
  | _ => match splitlines content with
         | [] => Some []
         | _ :: _ => None
         end
  end.

Definition main (cfg : config) : option (list event) :=
  let key_field := get_or (cfg_key_field cfg) (lit "sku") in
  let csv_delimiter := get_or (cfg_csv_delimiter cfg) (lit ",") in
  let attr_separator := get_or (cfg_attr_separator cfg) SECTION_MARK in
  let exclude_columns := get_or (cfg_exclude_columns cfg) [] in
  let exclude_additional_attributes :=
    get_or (cfg_exclude_additional_attributes cfg) [] in
  let html_fields := get_or (cfg_html_fields cfg) [] in
  let master_file := cfg_master_file cfg in
  let comparison_file := cfg_comparison_file cfg in
  let special_field := get_or (cfg_special_field cfg) (lit "additional_attributes") in
  let output_file := get_or (cfg_output_file cfg) (lit "output/diff_report.csv") in
  staging <- load_csv_file master_file csv_delimiter special_field key_field ;;
  production <- load_csv_file comparison_file csv_delimiter special_field key_field ;;
  diffs <- compare_catalogs html_unescape exclude_columns special_field attr_separator
             exclude_additional_attributes key_field staging production ;;
  write_report fs html_fields staging output_file key_field diffs.

End Main.

(** ** Vocabulary of the statements *)

(** The elements of a list in the order of their first occurrences. *)
Fixpoint first_occurrences (l : list str) : list str :=
  match l with
  | [] => []
  | x :: l' => x :: filter (fun y => negb (str_eqb y x)) (first_occurrences l')
  end.




Section AttributeVocabulary.

Variable html_unescape : str -> str.


(** The assignment [attributes[key] = value] one pair makes. *)
Definition pair_item (pair : str) : str * str :=
  match cut EQUALS pair with
  | Some (key, value) => (strip key, strip_quotes (html_unescape (strip value)))
  | None => (strip pair, [])
  end.

(** The entries of the attribute diff that come from the staging side: the
    sub-keys of staging, not excluded, whose value differs from the
    production value, [""] standing for an absent one. *)
Definition staging_side (exclude_attrs : list str) (prod_attrs : dict str)
    (item : str * str) : bool :=
  negb (set_mem (fst item) exclude_attrs)
  && negb (str_eqb (or_empty (dict_get prod_attrs (fst item))) (snd item)).

(** The entries that come from the production side: the sub-keys of
    production, not excluded, that staging does not have. *)
Definition production_side (exclude_attrs : list str) (stg_attrs : dict str)
    (item : str * str) : bool :=
  negb (set_mem (fst item) exclude_attrs) && negb (dict_mem (fst item) stg_attrs).

End AttributeVocabulary.

(** [html.unescape] on the strings without [&]: the library returns such a
    string as it is.  The closed examples of this file apply it to such
    strings only. *)
Definition unescape_without_ampersand (s : str) : str := s.

(** The names of the four fixed slots of a diff entry; the entry's fifth
    slot is named by [key_field]. *)
Definition reserved_keys : list str :=
  [lit "type"; lit "field"; lit "staging_value"; lit "production_value"].

Section DifferVocabulary.

Variable html_unescape : str -> str.
Variables (ignore_fields : list str) (special_field attr_separator : str)
          (exclude_additional_attributes : list str) (key_field : str).

(** The attribute map of a value, empty where the parse raises. *)
Definition attrs_of (value : str) : dict str :=
  match parse_additional_attributes html_unescape (Some value) attr_separator with
  | Some attrs => attrs
  | None => []
  end.

Definition attribute_entry (sku subkey stg_subval prod_subval : str) : dict str :=
  diff_entry key_field sku DIFFERENT_ATTR (special_field ++ lit ":" ++ subkey)
    stg_subval prod_subval.

(** The entries of one key's additional-attribute diff, in order: the
    sub-keys of staging whose values differ, in the order of the staging
    map, then the sub-keys only production has, in the order of the
    production map. *)
Definition expected_attribute_entries (sku stg_val prod_val : str) : list (dict str) :=
  let stg_attrs := attrs_of stg_val in
  let prod_attrs := attrs_of prod_val in
  map (fun item => attribute_entry sku (fst item) (snd item)
                     (or_empty (dict_get prod_attrs (fst item))))
      (filter (staging_side exclude_additional_attributes prod_attrs) stg_attrs)
  ++ map (fun item => attribute_entry sku (fst item) [] (snd item))
         (filter (production_side exclude_additional_attributes stg_attrs) prod_attrs).

(** The entries of one column of a staging record. *)
Definition expected_field_entries (sku : str) (prod_row : record)
    (item : str * option str) : list (dict str) :=
  let field := fst item in
  let stg_val := strip (or_empty (snd item)) in
  let prod_val := strip (or_empty (record_get prod_row field)) in
  if set_mem field ignore_fields then []
  else if str_eqb field special_field
       then expected_attribute_entries sku stg_val prod_val
       else if str_eqb stg_val prod_val then []
            else [diff_entry key_field sku DIFFERENT field stg_val prod_val].

(** The entries of one staging key: the columns of the staging record in
    their order, or the one entry [missing_in_production]. *)
Definition expected_record_entries (production : catalog) (item : str * record)
  : list (dict str) :=
  match dict_get production (fst item) with
  | Some prod_row =>
      if record_truthy prod_row
      then flat_map (expected_field_entries (fst item) prod_row) (r_fields (snd item))
      else [diff_entry key_field (fst item) MISSING [] [] []]
  | None => [diff_entry key_field (fst item) MISSING [] [] []]
  end.

(** The whole sequence: the staging keys in their order, then one entry
    [extra_in_production] for each key only production has, in the order of
    production. *)
Definition expected_diffs (staging production : catalog) : list (dict str) :=
  flat_map (expected_record_entries production) staging
  ++ map (fun sku => diff_entry key_field sku EXTRA [] [] [])
         (filter (fun sku => negb (dict_mem sku staging)) (dict_keys production)).

(** The column of a staging record at which the comparison raises: the
    special column, not ignored, with the empty separator and a trimmed
    value that is not empty on one of the two sides. *)
Definition raising_column (stg_row prod_row : record) : Prop :=
  attr_separator = [] /\
  exists raw,
    In (special_field, raw) (r_fields stg_row) /\
    set_mem special_field ignore_fields = false /\
    (strip (or_empty raw) <> []
     \/ strip (or_empty (record_get prod_row special_field)) <> []).

(** The entry was built for the key [sku]. *)
Definition entry_for (sku : str) (entry : dict str) : bool :=
  match dict_get entry key_field with
  | Some k => str_eqb k sku
  | None => false
  end.

End DifferVocabulary.

(** The key of every stored record is the trimmed value of its key column,
    and that value is not empty; the key itself may be. *)
Definition keys_trimmed (key_field : str) (data : catalog) : Prop :=
  forall key row, In (key, row) data ->
    exists v, record_get row key_field = Some v /\ v <> [] /\ key = strip v.

(** The row as the loop of [load_csv] stores it: a value of the special
    column that is not empty has its placeholders replaced (lines 70-73). *)
Definition restored (special_field : str) (row : record) : record :=
  match record_get row special_field with
  | Some ((_ :: _) as v) =>
      mk_record (dict_set (r_fields row) special_field (Some (restore v))) (r_rest row)
  | _ => row
  end.

(** The key and the record one row adds to the catalog; nothing for a row
    whose key column is absent, [None] or empty. *)
Definition stored_item (special_field key_field : str) (row : record)
  : list (str * record) :=
  match record_get row key_field with
  | Some (_ :: _) =>
      [(strip (or_empty (record_get (restored special_field row) key_field)),
        restored special_field row)]
  | _ => []
  end.

(** The character [<], with which every placeholder starts. *)
Definition LESS_THAN : char := 60%N.

(** The first three replacements of [protect], character by character. *)
Definition protect_char (c : char) : str :=
  if N.eqb COMMA c then PLACEHOLDER_COMMA
  else if N.eqb LF c then PLACEHOLDER_NEWLINE
  else if N.eqb CR c then PLACEHOLDER_NEWLINE
  else [c].

(** A value as [protect] reads it, from left to right: a comma, a line
    break, the section mark, or any other character. *)
Inductive token :=
| Plain (c : char)
| Comma
| Newline
| Section_mark.

Fixpoint lex (v : str) : list token :=
  match v with
  | [] => []
  | c :: s =>
      if N.eqb COMMA c then Comma :: lex s
      else if N.eqb LF c then Newline :: lex s
      else if N.eqb CR c then Newline :: lex s
      else match s with
           | c' :: s' =>
               if N.eqb 194 c && N.eqb 167 c' then Section_mark :: lex s'
               else Plain c :: lex s
           | [] => [Plain c]
           end
  end.

(** What stands for a token in a protected value, and what [restore] puts
    in its place. *)
Definition protected (t : token) : str :=
  match t with
  | Plain c => [c]
  | Comma => PLACEHOLDER_COMMA
  | Newline => PLACEHOLDER_NEWLINE
  | Section_mark => PLACEHOLDER_SECTION
  end.

Definition original (t : token) : str :=
  match t with
  | Plain c => [c]
  | Comma => [COMMA]
  | Newline => [LF]
  | Section_mark => SECTION_MARK
  end.

(** A cell that is written as it is: no comma, no quote character and no
    line break. *)
Definition plain_cell (cell : str) : Prop :=
  Forall (fun ch => ch <> COMMA /\ ch <> QUOTE2 /\ ch <> QUOTE1 /\ ch <> CR /\ ch <> LF)
         cell.

(** A value of the special column that can be written between double
    quotes and comes back: no double quote, no [<] and no line break;
    commas and the section mark are welcome. *)
Definition quotable (value : str) : Prop :=
  Forall (fun ch => ch <> QUOTE2 /\ ch <> LESS_THAN /\ ch <> CR /\ ch <> LF) value.

(** A cell the scan of [replace_special_fields] takes for one part: without
    quote characters and delimiters, or between double quotes and without
    a double quote inside. *)
Definition scannable (delimiter : char) (cell : str) : Prop :=
  Forall (fun ch => ch <> delimiter /\ ch <> QUOTE2 /\ ch <> QUOTE1) cell
  \/ exists v, ~ In QUOTE2 v /\ cell = [QUOTE2] ++ v ++ [QUOTE2].

(** A row of a catalog as it is meant: the cells before the special
    column, the value of the special column, the cells after it. *)
Record written_row := mk_written {
  cells_before : list str;
  special_value : str;
  cells_after : list str
}.

Definition row_cells (row : written_row) : list str :=
  cells_before row ++ special_value row :: cells_after row.

(** The row has a cell for every name of the header, plain cells around a
    value of the special column that can be quoted. *)
Definition fits (names_before names_after : list str) (row : written_row) : Prop :=
  length (cells_before row) = length names_before
  /\ length (cells_after row) = length names_after
  /\ Forall plain_cell (cells_before row)
  /\ Forall plain_cell (cells_after row)
  /\ quotable (special_value row).

(** The line of the file for a row: the cells joined by commas, the value
    of the special column between double quotes. *)
Definition written (row : written_row) : str :=
  join [COMMA]
    (cells_before row ++ ([QUOTE2] ++ special_value row ++ [QUOTE2]) :: cells_after row).

(** The item a row is meant to give: the record of its cells under the
    names of the header, under its trimmed key; nothing for a row whose
    key is empty or whose key column the header does not name. *)
Definition loaded (names : list str) (key_field : str) (row : written_row)
  : list (str * record) :=
  let record := mk_record (combine names (map (@Some str) (row_cells row))) [] in
  match record_get record key_field with
  | Some ((_ :: _) as key) => [(strip key, record)]
  | _ => []
  end.

(** A loop body that only appends to the list it threads. *)
Definition appends A B (body : list B -> A -> option (list B)) : Prop :=
  forall s a, body s a = option_map (app s) (body [] a).

(** No staging record has values beyond the header. *)
Definition comparable (staging : catalog) : Prop :=
  forall sku row, In (sku, row) staging -> r_rest row = [].

(** A dict proper: no key twice. *)
Definition dict_ok V (d : dict V) : Prop := NoDup (dict_keys d).

(** A catalog of the data model: no key twice, in the catalog or in a
    record, and no record is the empty dict. *)
Definition catalog_ok (c : catalog) : Prop :=
  dict_ok c /\
  forall sku row, In (sku, row) c ->
    dict_ok (r_fields row) /\ record_truthy row = true.

(** What [html.escape] writes for a character. *)
Definition html_escape_char (c : char) : str :=
  if N.eqb 38 c then lit "&amp;"
  else if N.eqb 60 c then lit "&lt;"
  else if N.eqb 62 c then lit "&gt;"
  else if N.eqb QUOTE2 c then lit "&quot;"
  else if N.eqb QUOTE1 c then lit "&#x27;"
  else [c].

Section ReportVocabulary.

Variables (html_fields : list str) (staging_data : catalog) (key_field : str).

(** The value a diff entry holds in a slot, [""] for a slot it lacks. *)
Definition slot (diff : dict str) (name : str) : str := or_empty (dict_get diff name).

(** The entry has all five slots. *)
Definition complete (diff : dict str) : Prop :=
  forall name, In name (key_field :: reserved_keys) -> dict_mem name diff = true.

(** The description of one entry: the kinds [missing_in_production] and
    [extra_in_production] are their own descriptions; any other entry reads
    [field [staging -> production]], with the two values escaped when the
    field asks for it. *)
Definition render (diff : dict str) : str :=
  let type := slot diff (lit "type") in
  if str_eqb type MISSING then MISSING
  else if str_eqb type EXTRA then EXTRA
  else
    let field := slot diff (lit "field") in
    let shown v := if needs_escape html_fields field then html_escape v else v in
    field ++ lit " [" ++ shown (slot diff (lit "staging_value"))
      ++ lit " " ++ ARROW ++ lit " "
      ++ shown (slot diff (lit "production_value")) ++ lit "]".

(** The descriptions of the entries of one key, in the order of the entries. *)
Definition descriptions (diffs : list (dict str)) (sku : str) : list str :=
  map render (filter (fun diff => str_eqb (slot diff key_field) sku) diffs).

(** The rows of the report: one for each key that has an entry, in the order
    in which the keys first occur. *)
Definition expected_rows (diffs : list (dict str)) : list (dict (option str)) :=
  map (fun sku =>
         dict_literal [(key_field, Some sku);
                       (lit "product_websites", websites_of staging_data sku);
                       (lit "differences", Some (join (lit "; ") (descriptions diffs sku)))])
      (first_occurrences (map (fun diff => slot diff key_field) diffs)).

(** The entry has the slots [write_report] reads from it: the key and the
    kind, and for a kind other than [missing_in_production] and
    [extra_in_production] the field and the two values. *)
Definition readable (diff : dict str) : bool :=
  dict_mem key_field diff
  && match dict_get diff (lit "type") with
     | Some type =>
         str_eqb type MISSING || str_eqb type EXTRA
         || (dict_mem (lit "field") diff && dict_mem (lit "staging_value") diff
             && dict_mem (lit "production_value") diff)
     | None => false
     end.

End ReportVocabulary.

(** The description of an entry in the words of the specification: the
    arrow is U+2192, and the two values are escaped when the field is in the
    escape set or, for an entry of an attribute sub-field, the part of the
    field before the colon is. *)
Definition RIGHT_ARROW : str := [8594%N].
Definition COLON : char := 58%N.

Definition before_colon (field : str) : str :=
  match cut COLON field with
  | Some (name, _) => name
  | None => field
  end.

Definition specified_escape (html_fields : list str) (diff : dict str) : bool :=
  set_mem (slot diff (lit "field")) html_fields
  || (str_eqb (slot diff (lit "type")) DIFFERENT_ATTR
      && set_mem (before_colon (slot diff (lit "field"))) html_fields).

Definition specified_render (html_fields : list str) (diff : dict str) : str :=
  let type := slot diff (lit "type") in
  if str_eqb type MISSING then MISSING
  else if str_eqb type EXTRA then EXTRA
  else
    let shown v := if specified_escape html_fields diff then html_escape v else v in
    slot diff (lit "field") ++ lit " [" ++ shown (slot diff (lit "staging_value"))
      ++ lit " " ++ RIGHT_ARROW ++ lit " "
      ++ shown (slot diff (lit "production_value")) ++ lit "]".

(** ** Data of the examples *)

Definition SKU : str := lit "sku".
Definition ADDITIONAL_ATTRIBUTES : str := lit "additional_attributes".

(** Staging holds [A1] and [B2]; production holds [A1], with another size
    and a column staging does not have, and [C3]. *)
Definition example_staging : catalog :=
  [(lit "A1",
    mk_record [(SKU, Some (lit "A1")); (lit "color", Some (lit "red"));
               (ADDITIONAL_ATTRIBUTES,
                Some (lit "size=M" ++ SECTION_MARK ++ lit "note=ok"))] []);
   (lit "B2",
    mk_record [(SKU, Some (lit "B2")); (lit "color", Some (lit "blue"));
               (ADDITIONAL_ATTRIBUTES, Some [])] [])].

Definition example_production : catalog :=
  [(lit "A1",
    mk_record [(SKU, Some (lit "A1")); (lit "color", Some (lit "red"));
               (ADDITIONAL_ATTRIBUTES,
                Some (lit "size=L" ++ SECTION_MARK ++ lit "note=ok"));
               (lit "weight", Some (lit "1kg"))] []);
   (lit "C3",
    mk_record [(SKU, Some (lit "C3")); (lit "color", Some (lit "green"));
               (ADDITIONAL_ATTRIBUTES, Some [])] [])].

Definition example_diffs : list (dict str) :=
  [diff_entry SKU (lit "A1") DIFFERENT_ATTR (lit "additional_attributes:size")
     (lit "M") (lit "L");
   diff_entry SKU (lit "B2") MISSING [] [] [];
   diff_entry SKU (lit "C3") EXTRA [] [] []].

(** The header and one row whose special field, in double quotes, holds a
    comma and the section mark. *)
Definition document_with_comma : str :=
  lit "sku,additional_attributes,color" ++ [LF]
  ++ lit "A1," ++ [QUOTE2] ++ lit "a=1,5" ++ SECTION_MARK ++ lit "b" ++ [QUOTE2]
  ++ lit ",red".

(** The header and one row whose special field, in double quotes, holds a
    line break between [x] and [y]. *)
Definition document_with_newline : str :=
  lit "sku,additional_attributes" ++ [LF]
  ++ lit "A1," ++ [QUOTE2] ++ lit "x" ++ [LF] ++ lit "y" ++ [QUOTE2].

(** The header and one row whose key is two spaces. *)
Definition document_with_blank_key : str :=
  lit "sku,name" ++ [LF] ++ lit "  ,x".

(** The two values of the special column of [A1] in the example. *)
Definition example_staging_value : str := lit "size=M" ++ SECTION_MARK ++ lit "note=ok".
Definition example_production_value : str := lit "size=L" ++ SECTION_MARK ++ lit "note=ok".

(** A production that holds [A1] in another color and without the special
    column, and the entries of the example staging against it. *)
Definition example_repainted : catalog :=
  [(lit "A1", mk_record [(SKU, Some (lit "A1")); (lit "color", Some (lit "blue"))] [])].

Definition example_repainted_diffs : list (dict str) :=
  [diff_entry SKU (lit "A1") DIFFERENT (lit "color") (lit "red") (lit "blue");
   diff_entry SKU (lit "A1") DIFFERENT_ATTR (lit "additional_attributes:size") (lit "M") [];
   diff_entry SKU (lit "A1") DIFFERENT_ATTR (lit "additional_attributes:note") (lit "ok") [];
   diff_entry SKU (lit "B2") MISSING [] [] []].

(** The second line of [document_with_comma], and the catalog the document
    loads into. *)
Definition line_with_comma : str :=
  lit "A1," ++ [QUOTE2] ++ lit "a=1,5" ++ SECTION_MARK ++ lit "b" ++ [QUOTE2] ++ lit ",red".

Definition example_loaded : catalog :=
  [(lit "A1",
    mk_record [(SKU, Some (lit "A1"));
               (ADDITIONAL_ATTRIBUTES, Some (lit "a=1,5" ++ SECTION_MARK ++ lit "b"));
               (lit "color", Some (lit "red"))] [])].

(** A header of three names, a row of two values and a row of four, and the
    two records the document loads into. *)
Definition document_ragged : str :=
  lit "sku,name,color" ++ [LF] ++ lit "A1,x" ++ [LF] ++ lit "B2,y,blue,more".

Definition example_short_record : record :=
  mk_record [(SKU, Some (lit "A1")); (lit "name", Some (lit "x")); (lit "color", None)] [].

Definition example_long_record : record :=
  mk_record [(SKU, Some (lit "B2")); (lit "name", Some (lit "y"));
             (lit "color", Some (lit "blue"))] [lit "more"].

(** A file system that grants every directory and every file. *)
Definition grants_all : file_system := mk_file_system (fun _ => true) (fun _ => true).

(** The entries of the example and one more for [A1], with a value to
    escape. *)
Definition example_escaped_diffs : list (dict str) :=
  example_diffs
  ++ [diff_entry SKU (lit "A1") DIFFERENT_ATTR (lit "additional_attributes:note")
        (lit "a<b") (lit "ok")].

(** Two catalogs with a plain column whose name holds a colon, and the
    entry of their comparison. *)
Definition colon_staging : catalog :=
  [(lit "A1", mk_record [(SKU, Some (lit "A1")); (lit "a:b", Some (lit "<x"))] [])].

Definition colon_production : catalog :=
  [(lit "A1", mk_record [(SKU, Some (lit "A1")); (lit "a:b", Some (lit "y"))] [])].

Definition colon_entry : dict str :=
  diff_entry SKU (lit "A1") DIFFERENT (lit "a:b") (lit "<x") (lit "y").

(** A configuration that names the two files and leaves the rest to the
    defaults, and a file system in which every file holds the example text. *)
Definition example_config : config :=
  mk_config None None None None None None
    (Some (lit "staging.csv")) (Some (lit "production.csv")) None None.

Definition example_files (name : str) : option str := Some document_with_comma.

(** * Properties *)

(** ** Strings and dicts *)

Lemma str_eqb_eq (a b : str) : str_eqb a b = true <-> a = b.
Proof.
  revert b; induction a as [|x a IH]; intros [|y b]; simpl; split; intro H;
    try reflexivity; try discriminate.
  - apply andb_true_iff in H as [Hx Hr]. apply N.eqb_eq in Hx.
    apply IH in Hr. now subst.
  - injection H as -> ->. rewrite N.eqb_refl. simpl. now apply IH.
Qed.

Lemma str_eqb_refl (a : str) : str_eqb a a = true.
Proof. now apply str_eqb_eq. Qed.

Lemma str_eqb_neq (a b : str) : str_eqb a b = false <-> a <> b.
Proof.
  rewrite <- str_eqb_eq. destruct (str_eqb a b); split; congruence.
Qed.

Lemma str_eqb_sym (a b : str) : str_eqb a b = str_eqb b a.
Proof.
  destruct (str_eqb a b) eqn:E.
  - apply str_eqb_eq in E. subst. now rewrite str_eqb_refl.
  - apply str_eqb_neq in E. symmetry. apply str_eqb_neq. congruence.
Qed.

Lemma str_eq_dec (a b : str) : {a = b} + {a <> b}.
Proof. apply (list_eq_dec N.eq_dec). Qed.

Ltac str_cases a b :=
  let E := fresh "E" in
  destruct (str_eqb a b) eqn:E;
  [apply str_eqb_eq in E | apply str_eqb_neq in E].

Lemma set_mem_In (x : str) (s : list str) : set_mem x s = true <-> In x s.
Proof.
  unfold set_mem. rewrite existsb_exists. split.
  - intros (y & Hy & E). apply str_eqb_eq in E. now subst.
  - intro H. exists x. split; [assumption | apply str_eqb_refl].
Qed.

Lemma set_mem_not_In (x : str) (s : list str) : set_mem x s = false <-> ~ In x s.
Proof.
  rewrite <- set_mem_In. destruct (set_mem x s); split; congruence.
Qed.

Section DictFacts.

Variable V : Type.
Implicit Types (d : dict V) (k : str) (v : V).

Lemma dict_get_set_same d k v : dict_get (dict_set d k v) k = Some v.
Proof.
  induction d as [|[k' v'] d IH]; simpl.
  - now rewrite str_eqb_refl.
  - str_cases k' k; simpl.
    + subst. now rewrite str_eqb_refl.
    + apply str_eqb_neq in E. now rewrite E.
Qed.

Lemma dict_get_set_other d k k' v :
  k <> k' -> dict_get (dict_set d k v) k' = dict_get d k'.
Proof.
  intro N. induction d as [|[k0 v0] d IH]; simpl.
  - apply str_eqb_neq in N. now rewrite N.
  - str_cases k0 k; simpl.
    + subst. apply str_eqb_neq in N. now rewrite N.
    + now rewrite IH.
Qed.

Lemma dict_mem_In k d : dict_mem k d = true <-> In k (dict_keys d).
Proof.
  unfold dict_mem. induction d as [|[k' v'] d IH]; simpl.
  - split; [discriminate | tauto].
  - str_cases k' k.
    + subst. split; auto.
    + rewrite IH. split; [tauto | intros [?|?]; congruence].
Qed.

Lemma dict_mem_not_In k d : dict_mem k d = false <-> ~ In k (dict_keys d).
Proof.
  rewrite <- dict_mem_In. destruct (dict_mem k d); split; congruence.
Qed.

Lemma dict_get_None k d : dict_get d k = None <-> ~ In k (dict_keys d).
Proof.
  rewrite <- dict_mem_not_In. unfold dict_mem.
  destruct (dict_get d k); split; congruence.
Qed.

Lemma dict_get_Some_In d k v : dict_get d k = Some v -> In (k, v) d.
Proof.
  induction d as [|[k' v'] d IH]; simpl; [discriminate|].
  str_cases k' k.
  - intros [= ->]. subst. now left.
  - intro H. right. now apply IH.
Qed.

Lemma dict_get_In d k v :
  NoDup (dict_keys d) -> In (k, v) d -> dict_get d k = Some v.
Proof.
  induction d as [|[k' v'] d IH]; simpl; [tauto|].
  intros ND [H|H]; inversion ND; subst.
  - injection H as -> ->. now rewrite str_eqb_refl.
  - str_cases k' k.
    + subst. exfalso. apply H2. change k with (fst (k, v)). now apply in_map.
    + now apply IH.
Qed.

Lemma dict_keys_set d k v :
  dict_keys (dict_set d k v) = if dict_mem k d then dict_keys d else dict_keys d ++ [k].
Proof.
  unfold dict_mem. induction d as [|[k' v'] d IH]; simpl; [reflexivity|].
  str_cases k' k; simpl; [reflexivity|].
  rewrite IH. now destruct (dict_get d k).
Qed.

Lemma dict_set_NoDup d k v : NoDup (dict_keys d) -> NoDup (dict_keys (dict_set d k v)).
Proof.
  intro ND. rewrite dict_keys_set. destruct (dict_mem k d) eqn:E; [assumption|].
  apply dict_mem_not_In in E.
  apply NoDup_app; [assumption | repeat constructor; simpl; tauto |].
  intros x Hx [<-|[]]. contradiction.
Qed.

Lemma assign_all_NoDup items d :
  NoDup (dict_keys d) -> NoDup (dict_keys (assign_all d items)).
Proof.
  revert d; induction items as [|[k v] items IH]; intros d ND; simpl; [assumption|].
  apply IH. now apply dict_set_NoDup.
Qed.

Lemma dict_get_assign_all items d k :
  dict_get (assign_all d items) k =
  match dict_get (rev items) k with
  | Some v => Some v
  | None => dict_get d k
  end.
Proof.
  revert d; induction items as [|[k0 v0] items IH]; intros d; simpl; [reflexivity|].
  unfold assign_all in *. simpl. rewrite IH.
  assert (G : forall (l : dict V) a, dict_get (l ++ [a]) k =
              match dict_get l k with
              | Some v => Some v
              | None => if str_eqb (fst a) k then Some (snd a) else None
              end).
  { intros l [ka va]; induction l as [|[k1 v1] l IHl]; simpl; [reflexivity|].
    now destruct (str_eqb k1 k). }
  rewrite G. simpl. destruct (dict_get (rev items) k); [reflexivity|].
  str_cases k0 k.
  - subst. apply dict_get_set_same.
  - now apply dict_get_set_other.
Qed.

End DictFacts.

(** ** The builtins *)




Lemma endswith_one_snoc q m c : endswith [q] (m ++ [c]) = N.eqb q c.
Proof.
  unfold endswith. rewrite rev_app_distr. simpl. apply andb_true_r.
Qed.





Lemma dict_get_snoc V (l : dict V) (a : str * V) (k : str) :
  dict_get (l ++ [a]) k =
  match dict_get l k with
  | Some v => Some v
  | None => if str_eqb (fst a) k then Some (snd a) else None
  end.
Proof.
  destruct a as [ka va]. induction l as [|[k1 v1] l IH]; simpl; [reflexivity|].
  now destruct (str_eqb k1 k).
Qed.

Lemma dict_keys_rev V (l : dict V) : dict_keys (rev l) = rev (dict_keys l).
Proof. unfold dict_keys. apply map_rev. Qed.

(** The last assignment to a key in a sequence of assignments. *)
Lemma dict_get_rev V (items : list (str * V)) (k : str) (v : V) :
  dict_get (rev items) k = Some v <->
  exists before after, items = before ++ (k, v) :: after /\ ~ In k (map fst after).
Proof.
  revert v; induction items as [|[k0 v0] items IH]; intro v; simpl.
  - split; [discriminate|]. intros (b & a & H & _). now destruct b.
  - rewrite dict_get_snoc. simpl. split.
    + destruct (dict_get (rev items) k) as [v1|] eqn:G.
      * intros [= ->]. destruct (proj1 (IH v) eq_refl) as (b & a & -> & N).
        now exists ((k0, v0) :: b), a.
      * str_cases k0 k; [|discriminate]. intros [= ->]. subst k0.
        exists [], items. split; [reflexivity|].
        apply dict_get_None in G. rewrite dict_keys_rev in G.
        intro H. apply G. now apply -> in_rev.
    + intros (b & a & H & N). destruct b as [|x b]; simpl in H.
      * injection H as -> -> ->.
        assert (G : dict_get (rev a) k = None).
        { apply dict_get_None. rewrite dict_keys_rev. intro H. apply N.
          now apply in_rev. }
        now rewrite G, str_eqb_refl.
      * injection H as _ ->.
        assert (G : dict_get (rev (b ++ (k, v) :: a)) k = Some v)
          by (apply IH; now exists b, a).
        now rewrite G.
Qed.

Lemma dict_set_fresh V (d : dict V) k v :
  ~ In k (dict_keys d) -> dict_set d k v = d ++ [(k, v)].
Proof.
  induction d as [|[k' v'] d IH]; simpl; intro N; [reflexivity|].
  str_cases k' k; [tauto|]. rewrite IH; tauto.
Qed.

Lemma assign_all_fresh V (items d : dict V) :
  NoDup (dict_keys d ++ dict_keys items) -> assign_all d items = d ++ items.
Proof.
  revert d; induction items as [|[k v] items IH]; intros d ND; simpl.
  - now rewrite app_nil_r.
  - unfold assign_all in *. simpl. simpl in ND.
    rewrite dict_set_fresh.
    + rewrite IH; [now rewrite <- app_assoc|].
      unfold dict_keys in *. rewrite map_app. simpl. now rewrite <- app_assoc.
    + apply NoDup_remove_2 in ND. intro I. apply ND. apply in_or_app. now left.
Qed.

Lemma fold_left_ext A B (f g : A -> B -> A) :
  (forall a b, f a b = g a b) -> forall l a, fold_left f l a = fold_left g l a.
Proof.
  intros E l; induction l as [|b l IH]; intro a; simpl; [reflexivity|].
  now rewrite E, IH.
Qed.

(** A loop that assigns under a condition is a sequence of assignments. *)
Lemma fold_conditional_set A V (test : str * A -> bool) (value : str * A -> V)
    (items : list (str * A)) (d : dict V) :
  fold_left (fun d item => if test item then dict_set d (fst item) (value item) else d)
    items d =
  assign_all d (map (fun item => (fst item, value item)) (filter test items)).
Proof.
  revert d; induction items as [|it items IH]; intro d; simpl; [reflexivity|].
  rewrite IH. now destruct (test it).
Qed.

Lemma filter_keys_sublist A (test : str * A -> bool) (d : dict A) :
  NoDup (dict_keys d) -> NoDup (dict_keys (filter test d)).
Proof.
  induction d as [|[k v] d IH]; simpl; intro ND; [constructor|].
  inversion ND as [|? ? NI ND']; subst. destruct (test (k, v)); simpl.
  - constructor; [|now apply IH]. intro I. apply NI. unfold dict_keys in *.
    apply in_map_iff in I as (x & E & I). apply filter_In in I as [I _].
    apply in_map_iff. now exists x.
  - now apply IH.
Qed.

Lemma startswith_prefix p s : startswith p s = true <-> exists rest, s = p ++ rest.
Proof.
  revert s; induction p as [|x p IH]; intro s; simpl.
  - split; [intros _; now exists s | reflexivity].
  - destruct s as [|y s]; [split; [discriminate | intros [r H]; discriminate]|].
    rewrite andb_true_iff, N.eqb_eq, IH. split.
    + intros [-> [r ->]]. now exists r.
    + intros [r [= -> ->]]. split; [reflexivity | now exists r].
Qed.

(** *** The reader of the [csv] module at work *)

(** A quoted field runs on into the next line, and the two lines are joined
    without a line break, the lines having none. *)
Example reader_quoted_field_over_lines :
  Csv.reader_list [lit "a,b"; lit "A," ++ [QUOTE2] ++ lit "x"; lit "y" ++ [QUOTE2]] COMMA
  = Some [[lit "a"; lit "b"]; [lit "A"; lit "xy"]].
Proof. reflexivity. Qed.

(** Two quotes inside a quoted field are one quote; a quote inside an
    unquoted field is a character like any other. *)
Example reader_quotes :
  Csv.reader_list [[QUOTE2] ++ lit "x" ++ [QUOTE2; QUOTE2] ++ lit "y" ++ [QUOTE2]
                   ++ lit ",x" ++ [QUOTE2] ++ lit "y"] COMMA
  = Some [[lit "x" ++ [QUOTE2] ++ lit "y"; lit "x" ++ [QUOTE2] ++ lit "y"]].
Proof. reflexivity. Qed.

(** An empty line is an empty record, which [DictReader] passes over; a
    short row is filled with [None], and the values beyond the header go
    under the key [None]. *)
Example reader_rows_of_any_length :
  Csv.DictReader [lit "a,b"; []; lit "1"; lit "1,2,3"] COMMA
  = Some [mk_record [(lit "a", Some (lit "1")); (lit "b", None)] [];
          mk_record [(lit "a", Some (lit "1")); (lit "b", Some (lit "2"))] [lit "3"]].
Proof. reflexivity. Qed.

(** *** Splitting and joining *)

Lemma split_scan_skip sep k s : split_scan sep k s = split_scan sep 0 (skipn k s).
Proof.
  revert k; induction s as [|c s IH]; intros [|k]; simpl; try reflexivity.
  apply IH.
Qed.

Lemma split_scan_nonempty sep k s : split_scan sep k s <> [].
Proof.
  revert k; induction s as [|c s IH]; intros k; simpl; [discriminate|].
  destruct k; [|apply IH].
  destruct (startswith sep (c :: s)); [discriminate|].
  destruct (split_scan sep 0 s); discriminate.
Qed.

Lemma join_cons sep p ps : ps <> [] -> join sep (p :: ps) = p ++ sep ++ join sep ps.
Proof. destruct ps; [congruence | reflexivity]. Qed.

Lemma join_cons_piece sep c ps :
  ps <> [] -> join sep (cons_piece c ps) = c :: join sep ps.
Proof.
  destruct ps as [|p [|q ps]]; [congruence | reflexivity | reflexivity].
Qed.

(** The pieces of [s.split(sep)], joined with [sep], are [s] again. *)
Lemma join_split sep s pieces : split sep s = Some pieces -> join sep pieces = s.
Proof.
  unfold split. destruct sep as [|x sep]; [discriminate|]. intros [= <-].
  set (sp := x :: sep).
  assert (G : forall n s, length s <= n -> join sp (split_scan sp 0 s) = s).
  { induction n as [|n IH]; intros [|c t] L; try reflexivity; [simpl in L; lia|].
    change (split_scan sp 0 (c :: t))
      with (if startswith sp (c :: t)
            then [] :: split_scan sp (length sp - 1) t
            else cons_piece c (split_scan sp 0 t)).
    simpl in L. destruct (startswith sp (c :: t)) eqn:T.
    - apply startswith_prefix in T as [rest E].
      rewrite join_cons by apply split_scan_nonempty.
      rewrite split_scan_skip.
      assert (Et : t = sep ++ rest) by (unfold sp in E; simpl in E; congruence).
      assert (Sk : skipn (length sp - 1) t = rest).
      { unfold sp. simpl. rewrite Nat.sub_0_r, Et, skipn_app, skipn_all, Nat.sub_diag.
        reflexivity. }
      rewrite Sk, IH; [now rewrite E|].
      rewrite Et, length_app in L. lia.
    - rewrite join_cons_piece by apply split_scan_nonempty.
      rewrite IH; [reflexivity | lia]. }
  now apply (G (length s)).
Qed.

(** ** parse_additional_attributes *)

Section Attributes.

Variable html_unescape : str -> str.


Lemma parse_pair_item attributes pair :
  parse_pair html_unescape attributes pair =
  dict_set attributes (fst (pair_item html_unescape pair)) (snd (pair_item html_unescape pair)).
Proof.
  unfold parse_pair, pair_item. now destruct (cut EQUALS pair) as [[kr vr]|].
Qed.

Lemma fold_parse_pair pairs attributes :
  fold_left (parse_pair html_unescape) pairs attributes =
  assign_all attributes (map (pair_item html_unescape) pairs).
Proof.
  revert attributes; induction pairs as [|p pairs IH]; intro d; simpl; [reflexivity|].
  rewrite IH, parse_pair_item. reflexivity.
Qed.

(** What [parse_additional_attributes] returns for a non-empty string that
    splits into [pairs]. *)
Lemma parse_nonempty (s : str) attr_separator pairs :
  s <> [] -> split attr_separator s = Some pairs ->
  parse_additional_attributes html_unescape (Some s) attr_separator =
  Some (assign_all [] (map (pair_item html_unescape) pairs)).
Proof.
  intros N S. unfold parse_additional_attributes. destruct s; [congruence|].
  rewrite S. simpl. now rewrite fold_parse_pair.
Qed.

Lemma parse_NoDup s attr_separator attributes :
  parse_additional_attributes html_unescape s attr_separator = Some attributes ->
  NoDup (dict_keys attributes).
Proof.
  unfold parse_additional_attributes.
  destruct s as [[|c s]|]; try (intros [= <-]; constructor).
  destruct (split attr_separator (c :: s)) as [pairs|]; [|discriminate].
  simpl. intros [= <-]. rewrite fold_parse_pair. apply assign_all_NoDup. constructor.
Qed.


(** ** diff_additional_attributes *)

Lemma diff_staging_step_test prod_attrs exclude_attrs diffs item :
  diff_staging_step prod_attrs exclude_attrs diffs item =
  if staging_side exclude_attrs prod_attrs item
  then dict_set diffs (fst item) (snd item, or_empty (dict_get prod_attrs (fst item)))
  else diffs.
Proof.
  unfold diff_staging_step, staging_side. destruct item as [k sv]. simpl.
  destruct (set_mem k exclude_attrs); simpl; [reflexivity|].
  now destruct (dict_get prod_attrs k).
Qed.

Lemma diff_production_step_test stg_attrs exclude_attrs diffs item :
  diff_production_step stg_attrs exclude_attrs diffs item =
  if production_side exclude_attrs stg_attrs item
  then dict_set diffs (fst item) ([], snd item)
  else diffs.
Proof.
  unfold diff_production_step, production_side. destruct item as [k pv]. simpl.
  now destruct (set_mem k exclude_attrs).
Qed.

(** The attribute diff, entry by entry and in order: first the staging
    side, in the order of the staging map, then the production side, in the
    order of the production map. *)
Lemma diff_additional_attributes_explicit stg_val prod_val attr_separator exclude_attrs
    stg_attrs prod_attrs :
  parse_additional_attributes html_unescape stg_val attr_separator = Some stg_attrs ->
  parse_additional_attributes html_unescape prod_val attr_separator = Some prod_attrs ->
  diff_additional_attributes html_unescape stg_val prod_val attr_separator exclude_attrs =
  Some (map (fun item => (fst item, (snd item, or_empty (dict_get prod_attrs (fst item)))))
            (filter (staging_side exclude_attrs prod_attrs) stg_attrs)
        ++ map (fun item => (fst item, ([], snd item)))
               (filter (production_side exclude_attrs stg_attrs) prod_attrs)).
Proof.
  intros PS PP. unfold diff_additional_attributes. rewrite PS, PP. simpl. f_equal.
  pose proof (parse_NoDup _ _ PS) as NS. pose proof (parse_NoDup _ _ PP) as NP.
  rewrite (@fold_left_ext _ _ _ _ (diff_production_step_test stg_attrs exclude_attrs)).
  rewrite fold_conditional_set with (value := fun item : str * str => (@nil char, snd item)).
  assert (E1 : fold_left (diff_staging_step prod_attrs exclude_attrs) stg_attrs [] =
               map (fun item => (fst item, (snd item, or_empty (dict_get prod_attrs (fst item)))))
                   (filter (staging_side exclude_attrs prod_attrs) stg_attrs)).
  { rewrite (@fold_left_ext _ _ _ _ (diff_staging_step_test prod_attrs exclude_attrs)).
    rewrite fold_conditional_set
      with (value := fun item : str * str => (snd item, or_empty (dict_get prod_attrs (fst item)))).
    rewrite assign_all_fresh; [reflexivity|]. simpl.
    unfold dict_keys. rewrite map_map. simpl.
    now apply (filter_keys_sublist (staging_side exclude_attrs prod_attrs)) in NS. }
  rewrite E1. apply assign_all_fresh.
  unfold dict_keys. rewrite !map_map. simpl.
  apply NoDup_app.
  - now apply (filter_keys_sublist (staging_side exclude_attrs prod_attrs)) in NS.
  - now apply (filter_keys_sublist (production_side exclude_attrs stg_attrs)) in NP.
  - intros k I1 I2.
    apply in_map_iff in I1 as (x & <- & I1). apply filter_In in I1 as [I1 _].
    apply in_map_iff in I2 as (y & E & I2). apply filter_In in I2 as [_ T].
    unfold production_side in T. apply andb_true_iff in T as [_ T].
    apply negb_true_iff, dict_mem_not_In in T. apply T. rewrite E.
    unfold dict_keys. apply in_map_iff. now exists x.
Qed.

(** Which sub-keys the attribute diff holds: a sub-key of staging whose
    value differs from the production value, [""] standing for an absent
    one, and a sub-key only production has; never an excluded one.  A
    sub-key only staging has, with the empty value, is not among them. *)
Lemma diff_additional_attributes_keys stg_val prod_val attr_separator exclude_attrs
    stg_attrs prod_attrs diffs :
  parse_additional_attributes html_unescape stg_val attr_separator = Some stg_attrs ->
  parse_additional_attributes html_unescape prod_val attr_separator = Some prod_attrs ->
  diff_additional_attributes html_unescape stg_val prod_val attr_separator exclude_attrs
    = Some diffs ->
  forall k,
    dict_mem k diffs = true <->
    set_mem k exclude_attrs = false /\
    ((exists v, dict_get stg_attrs k = Some v /\ or_empty (dict_get prod_attrs k) <> v)
     \/ (dict_get stg_attrs k = None /\ dict_mem k prod_attrs = true)).
Proof.
  intros PS PP D k.
  rewrite (@diff_additional_attributes_explicit _ _ _ exclude_attrs _ _ PS PP) in D.
  injection D as <-.
  pose proof (parse_NoDup _ _ PS) as NS. pose proof (parse_NoDup _ _ PP) as NP.
  rewrite dict_mem_In. unfold dict_keys. rewrite map_app, !map_map. simpl.
  rewrite in_app_iff, !in_map_iff. split.
  - intros [([k' v] & <- & I) | ([k' v] & <- & I)]; apply filter_In in I as [I T]; simpl.
    + unfold staging_side in T. simpl in T.
      apply andb_true_iff in T as [T1 T2]. apply negb_true_iff in T1, T2.
      split; [assumption | left]. exists v. split; [now apply dict_get_In|].
      now apply str_eqb_neq.
    + unfold production_side in T. simpl in T.
      apply andb_true_iff in T as [T1 T2]. apply negb_true_iff in T1, T2.
      split; [assumption | right]. split.
      * unfold dict_mem in T2. now destruct (dict_get stg_attrs k').
      * apply dict_mem_In. unfold dict_keys. apply in_map_iff. now exists (k', v).
  - intros [X [(v & G & N) | [G M]]].
    + left. exists (k, v). split; [reflexivity|]. apply filter_In.
      split; [now apply dict_get_Some_In|]. unfold staging_side. simpl.
      rewrite X. simpl. apply negb_true_iff. now apply str_eqb_neq.
    + right. unfold dict_mem in M.
      destruct (dict_get prod_attrs k) as [v|] eqn:Gp; [|discriminate].
      exists (k, v). split; [reflexivity|]. apply filter_In.
      split; [now apply dict_get_Some_In|]. unfold production_side, dict_mem. simpl.
      now rewrite X, G.
Qed.

End Attributes.

(** ** Lists *)

Lemma filter_all A (test : A -> bool) (l : list A) :
  (forall a, In a l -> test a = true) -> filter test l = l.
Proof.
  induction l as [|a l IH]; simpl; intro H; [reflexivity|].
  rewrite (H a) by now left. f_equal. apply IH. intros; apply H; now right.
Qed.

Lemma filter_none A (test : A -> bool) (l : list A) :
  (forall a, In a l -> test a = false) -> filter test l = [].
Proof.
  induction l as [|a l IH]; simpl; intro H; [reflexivity|].
  rewrite (H a) by now left. apply IH. intros; apply H; now right.
Qed.

Lemma flat_map_nil A B (f : A -> list B) (l : list A) :
  (forall a, In a l -> f a = []) -> flat_map f l = [].
Proof.
  induction l as [|a l IH]; simpl; intro H; [reflexivity|].
  rewrite (H a) by now left. apply IH. intros; apply H; now right.
Qed.

(** ** compare_catalogs *)

Section Loops.

Variables (A B : Type).

Lemma for_each_appends (body : list B -> A -> option (list B)) (l : list A) (s : list B) :
  appends body -> for_each body l s = option_map (app s) (for_each body l []).
Proof.
  intro Ap. revert s; induction l as [|a l IH]; intro s; simpl.
  - now rewrite app_nil_r.
  - rewrite (Ap s a). destruct (body [] a) as [b|]; simpl; [|reflexivity].
    rewrite (IH (s ++ b)), (IH b).
    destruct (for_each body l []); simpl; [|reflexivity]. now rewrite app_assoc.
Qed.

Lemma for_each_flat_map (body : list B -> A -> option (list B)) (f : A -> list B) (l : list A) (ds : list B) :
  appends body ->
  (forall a b, In a l -> body [] a = Some b -> b = f a) ->
  for_each body l [] = Some ds -> ds = flat_map f l.
Proof.
  intros Ap F. revert ds; induction l as [|a l IH]; intro ds; simpl.
  - now intros [= <-].
  - destruct (body [] a) as [b|] eqn:E; simpl; [|discriminate].
    rewrite for_each_appends by assumption.
    destruct (for_each body l []) as [ds'|] eqn:E'; simpl; [|discriminate].
    intros [= <-]. f_equal.
    + apply F; [now left | assumption].
    + apply IH; [|reflexivity]. intros a' b' I. apply F. now right.
Qed.

Lemma for_each_total (body : list B -> A -> option (list B)) (l : list A) :
  appends body ->
  (forall a, In a l -> body [] a <> None) ->
  for_each body l [] <> None.
Proof.
  intros Ap F. induction l as [|a l IH]; simpl; [discriminate|].
  destruct (body [] a) as [b|] eqn:E; simpl.
  - rewrite for_each_appends by assumption.
    destruct (for_each body l []) eqn:E'; simpl; [discriminate|].
    exfalso. apply IH; [|reflexivity]. intros a' I. apply F. now right.
  - exfalso. apply (F a); [now left | assumption].
Qed.

Lemma fold_left_append (f : A -> B) (l : list A) (s : list B) :
  fold_left (fun s a => s ++ [f a]) l s = s ++ map f l.
Proof.
  revert s; induction l as [|a l IH]; intro s; simpl.
  - now rewrite app_nil_r.
  - now rewrite IH, <- app_assoc.
Qed.

Lemma fold_left_append_if (test : A -> bool) (f : A -> B) (l : list A) (s : list B) :
  fold_left (fun s a => if test a then s ++ [f a] else s) l s = s ++ map f (filter test l).
Proof.
  revert s; induction l as [|a l IH]; intro s; simpl.
  - now rewrite app_nil_r.
  - rewrite IH. destruct (test a); simpl; [now rewrite <- app_assoc | reflexivity].
Qed.

End Loops.

Section Differ.

Variable html_unescape : str -> str.
Variables (ignore_fields : list str) (special_field attr_separator : str)
          (exclude_additional_attributes : list str) (key_field : str).

Abbreviation cmp_field :=
  (compare_field html_unescape ignore_fields special_field attr_separator
     exclude_additional_attributes key_field).
Abbreviation cmp_record :=
  (compare_record html_unescape ignore_fields special_field attr_separator
     exclude_additional_attributes key_field).
Abbreviation cmp_catalogs :=
  (compare_catalogs html_unescape ignore_fields special_field attr_separator
     exclude_additional_attributes key_field).
Abbreviation entries_of_field :=
  (expected_field_entries html_unescape ignore_fields special_field attr_separator
     exclude_additional_attributes key_field).
Abbreviation entries_of_record :=
  (expected_record_entries html_unescape ignore_fields special_field attr_separator
     exclude_additional_attributes key_field).
Abbreviation entries_of_catalogs :=
  (expected_diffs html_unescape ignore_fields special_field attr_separator
     exclude_additional_attributes key_field).
Abbreviation attribute_map := (attrs_of html_unescape attr_separator).

Lemma diff_additional_attributes_parses stg_val prod_val exclude_attrs subdiffs :
  diff_additional_attributes html_unescape (Some stg_val) (Some prod_val)
    attr_separator exclude_attrs = Some subdiffs ->
  parse_additional_attributes html_unescape (Some stg_val) attr_separator
    = Some (attribute_map stg_val) /\
  parse_additional_attributes html_unescape (Some prod_val) attr_separator
    = Some (attribute_map prod_val).
Proof.
  unfold diff_additional_attributes, attrs_of, bind.
  destruct (parse_additional_attributes html_unescape (Some stg_val) attr_separator);
    [|discriminate].
  destruct (parse_additional_attributes html_unescape (Some prod_val) attr_separator);
    [|discriminate].
  now split.
Qed.

(** One column: the entries the loop body appends. *)
Lemma compare_field_expected sku prod_row diffs item :
  cmp_field sku prod_row diffs item = None \/
  cmp_field sku prod_row diffs item
    = Some (diffs ++ entries_of_field sku prod_row item).
Proof.
  unfold compare_field, expected_field_entries.
  destruct item as [field raw]. simpl.
  destruct (set_mem field ignore_fields); [right; now rewrite app_nil_r|].
  destruct (str_eqb field special_field).
  - set (sv := strip (or_empty raw)).
    set (pv := strip (or_empty (record_get prod_row field))).
    destruct (diff_additional_attributes html_unescape (Some sv) (Some pv) attr_separator
                exclude_additional_attributes) as [subdiffs|] eqn:D; simpl; [right | now left].
    destruct (diff_additional_attributes_parses _ _ _ D) as [PS PP].
    rewrite (@diff_additional_attributes_explicit html_unescape _ _ _
               exclude_additional_attributes _ _ PS PP) in D.
    injection D as <-. f_equal.
    rewrite (@fold_left_ext _ _ _
               (fun s sub => s ++ [attribute_entry special_field key_field sku (fst sub)
                                     (fst (snd sub)) (snd (snd sub))])).
    + rewrite fold_left_append. f_equal. unfold expected_attribute_entries.
      now rewrite map_app, !map_map.
    + now intros s [subkey [a b]].
  - right. destruct (str_eqb _ _); simpl; [now rewrite app_nil_r | reflexivity].
Qed.

Lemma compare_field_appends sku prod_row : appends (cmp_field sku prod_row).
Proof.
  intros s item.
  assert (N : cmp_field sku prod_row s item = None <->
              cmp_field sku prod_row [] item = None).
  { unfold compare_field. destruct item as [field raw].
    destruct (set_mem field ignore_fields); [split; discriminate|].
    destruct (str_eqb field special_field).
    - destruct (diff_additional_attributes _ _ _ _ _); simpl; split; congruence.
    - destruct (negb _); split; discriminate. }
  destruct (compare_field_expected sku prod_row s item) as [E|E];
    destruct (compare_field_expected sku prod_row [] item) as [E0|E0];
    rewrite E, E0; simpl; try reflexivity.
  - apply N in E. congruence.
  - apply N in E0. congruence.
Qed.

(** One staging key: the entries the loop body appends. *)
Lemma compare_record_expected production diffs item :
  cmp_record production diffs item = None \/
  cmp_record production diffs item
    = Some (diffs ++ entries_of_record production item).
Proof.
  unfold compare_record, expected_record_entries.
  destruct item as [sku stg_row]. simpl.
  destruct (dict_get production sku) as [prod_row|]; [|now right].
  destruct (record_truthy prod_row); [|now right].
  rewrite for_each_appends by apply compare_field_appends.
  destruct (for_each (cmp_field sku prod_row) (r_fields stg_row) []) as [b|] eqn:E;
    simpl; [|now left].
  destruct (r_rest stg_row); [right | now left].
  f_equal. f_equal. apply for_each_flat_map with (body := cmp_field sku prod_row);
    [apply compare_field_appends | | assumption].
  intros a b' _ H. destruct (compare_field_expected sku prod_row [] a) as [E'|E'];
    rewrite E' in H; [discriminate | now injection H as <-].
Qed.

Lemma compare_record_appends production : appends (cmp_record production).
Proof.
  intros s item.
  assert (N : cmp_record production s item = None <->
              cmp_record production [] item = None).
  { unfold compare_record. destruct item as [sku stg_row].
    destruct (dict_get production sku) as [prod_row|]; [|split; discriminate].
    destruct (record_truthy prod_row); [|split; discriminate].
    rewrite (for_each_appends (r_fields stg_row) s (compare_field_appends sku prod_row)).
    destruct (for_each _ (r_fields stg_row) []); simpl; [|tauto].
    destruct (r_rest stg_row); split; congruence. }
  destruct (compare_record_expected production s item) as [E|E];
    destruct (compare_record_expected production [] item) as [E0|E0];
    rewrite E, E0; simpl; try reflexivity.
  - apply N in E. congruence.
  - apply N in E0. congruence.
Qed.

Lemma compare_extra_fold staging keys diffs :
  fold_left (compare_extra key_field staging) keys diffs =
  diffs ++ map (fun sku => diff_entry key_field sku EXTRA [] [] [])
              (filter (fun sku => negb (dict_mem sku staging)) keys).
Proof. unfold compare_extra. apply fold_left_append_if. Qed.

(** What [cmp_catalogs] returns is the expected sequence. *)
Lemma compare_catalogs_expected staging production ds :
  cmp_catalogs staging production = Some ds -> ds = entries_of_catalogs staging production.
Proof.
  unfold compare_catalogs, expected_diffs.
  destruct (for_each (cmp_record production) staging []) as [b|] eqn:E;
    simpl; [|discriminate].
  intros [= <-]. rewrite compare_extra_fold. f_equal.
  apply for_each_flat_map with (body := cmp_record production);
    [apply compare_record_appends | | assumption].
  intros a b' _ H. destruct (compare_record_expected production [] a) as [E'|E'];
    rewrite E' in H; [discriminate | now injection H as <-].
Qed.

(** *** The entries have their five slots *)

Lemma dict_mem_literal V (items : list (str * V)) name :
  In name (map fst items) -> dict_mem name (dict_literal items) = true.
Proof.
  intro I. unfold dict_mem, dict_literal. rewrite dict_get_assign_all.
  destruct (dict_get (rev items) name) eqn:G; [reflexivity|].
  apply dict_get_None in G. rewrite dict_keys_rev in G.
  exfalso. apply G. now apply -> in_rev.
Qed.

Lemma diff_entry_complete sku type field a b :
  complete key_field (diff_entry key_field sku type field a b).
Proof.
  intros name I. apply dict_mem_literal. simpl. unfold reserved_keys in I. simpl in I.
  tauto.
Qed.

(** Every entry [compare_catalogs] returns has the five slots
    [write_report] reads. *)
Lemma compare_catalogs_complete staging production ds :
  cmp_catalogs staging production = Some ds -> Forall (complete key_field) ds.
Proof.
  intro E. rewrite (compare_catalogs_expected _ _ E). unfold expected_diffs.
  apply Forall_forall. intros e I. apply in_app_or in I as [I|I].
  - apply in_flat_map in I as ([sku stg_row] & _ & I).
    unfold expected_record_entries in I. simpl in I.
    assert (M : In e [diff_entry key_field sku MISSING [] [] []] -> complete key_field e)
      by (intros [<-|[]]; apply diff_entry_complete).
    destruct (dict_get production sku) as [prod_row|]; [|now apply M].
    destruct (record_truthy prod_row); [|now apply M].
    apply in_flat_map in I as ([field raw] & _ & I).
    unfold expected_field_entries in I. simpl in I.
    destruct (set_mem field ignore_fields); [destruct I|].
    destruct (str_eqb field special_field).
    + unfold expected_attribute_entries in I.
      apply in_app_or in I as [I|I]; apply in_map_iff in I as (x & <- & _);
        apply diff_entry_complete.
    + match type of I with context [if ?c then _ else _] => destruct c end;
        [destruct I|]. destruct I as [<-|[]]. apply diff_entry_complete.
  - apply in_map_iff in I as (sku & <- & _). apply diff_entry_complete.
Qed.

(** *** When the comparison returns *)

Lemma parse_returns value :
  attr_separator <> [] ->
  parse_additional_attributes html_unescape (Some value) attr_separator <> None.
Proof.
  intro N. unfold parse_additional_attributes, split.
  destruct value; [discriminate|]. destruct attr_separator; [congruence | discriminate].
Qed.

Lemma compare_field_returns sku prod_row item :
  attr_separator <> [] -> cmp_field sku prod_row [] item <> None.
Proof.
  intro N. unfold compare_field. destruct item as [field raw].
  destruct (set_mem field ignore_fields); [discriminate|].
  destruct (str_eqb field special_field).
  - unfold diff_additional_attributes, bind.
    destruct (parse_additional_attributes html_unescape (Some (strip (or_empty raw)))
                attr_separator) eqn:E1; [|now apply parse_returns in E1].
    destruct (parse_additional_attributes html_unescape
                (Some (strip (or_empty (record_get prod_row field)))) attr_separator) eqn:E2;
      [discriminate | now apply parse_returns in E2].
  - destruct (negb _); discriminate.
Qed.

Lemma compare_record_returns production sku stg_row :
  attr_separator <> [] -> r_rest stg_row = [] ->
  cmp_record production [] (sku, stg_row) <> None.
Proof.
  intros N R. unfold compare_record.
  destruct (dict_get production sku) as [prod_row|]; [|discriminate].
  destruct (record_truthy prod_row); [|discriminate].
  destruct (for_each (cmp_field sku prod_row) (r_fields stg_row) []) eqn:E; simpl.
  - rewrite R. discriminate.
  - exfalso. revert E. apply for_each_total; [apply compare_field_appends|].
    intros a _. now apply compare_field_returns.
Qed.

(** The comparison returns a sequence when the separator is not empty and
    no staging record has values beyond the header. *)
Lemma compare_catalogs_returns staging production :
  attr_separator <> [] -> comparable staging ->
  exists ds, cmp_catalogs staging production = Some ds.
Proof.
  intros N C. unfold compare_catalogs.
  destruct (for_each (cmp_record production) staging []) eqn:E; simpl; [eauto|].
  exfalso. revert E. apply for_each_total; [apply compare_record_appends|].
  intros [sku row] I. apply compare_record_returns; [assumption | now apply (C sku)].
Qed.

(** *** A catalog against itself *)

Lemma attrs_NoDup value : NoDup (dict_keys (attribute_map value)).
Proof.
  unfold attrs_of.
  destruct (parse_additional_attributes html_unescape (Some value) attr_separator) eqn:E.
  - now apply parse_NoDup in E.
  - constructor.
Qed.

Lemma expected_attribute_entries_same sku value :
  expected_attribute_entries html_unescape special_field attr_separator
    exclude_additional_attributes key_field sku value value = [].
Proof.
  unfold expected_attribute_entries. pose proof (attrs_NoDup value) as ND.
  rewrite !filter_none; [reflexivity | |].
  - intros [k x] I. unfold production_side. simpl.
    assert (M : dict_mem k (attribute_map value) = true)
      by (apply dict_mem_In; unfold dict_keys; apply in_map_iff; now exists (k, x)).
    rewrite M. apply andb_false_r.
  - intros [k x] I. unfold staging_side. simpl.
    rewrite (dict_get_In _ _ _ ND I). simpl. rewrite str_eqb_refl. apply andb_false_r.
Qed.

Lemma expected_diffs_same c : catalog_ok c -> entries_of_catalogs c c = [].
Proof.
  intros [ND OK]. unfold expected_diffs.
  rewrite flat_map_nil, filter_none; [reflexivity | |].
  - intros sku I. apply dict_mem_In in I. now rewrite I.
  - intros [sku row] I. destruct (OK sku row I) as (NDr & T).
    unfold expected_record_entries. simpl. rewrite (dict_get_In _ _ _ ND I).
    rewrite T. apply flat_map_nil. intros [field raw] If.
    unfold expected_field_entries, record_get. simpl.
    rewrite (dict_get_In _ _ _ NDr If).
    destruct (set_mem field ignore_fields); [reflexivity|].
    destruct (str_eqb field special_field).
    + apply expected_attribute_entries_same.
    + now rewrite str_eqb_refl.
Qed.

(** C4.  A catalog of the data model is compared against itself, under any
    ignored columns, special field, separator, excluded sub-attributes and key
    field: whenever the comparison returns a sequence of diff entries, the
    sequence is empty; and it returns (the empty sequence) when the
    separator is not empty and no record has values beyond the header. *)
Theorem compare_catalogs_self (c : catalog) :
  catalog_ok c ->
  (forall ds,
     compare_catalogs html_unescape ignore_fields special_field attr_separator
       exclude_additional_attributes key_field c c = Some ds ->
     ds = [])
  /\ (attr_separator <> [] -> comparable c ->
      compare_catalogs html_unescape ignore_fields special_field attr_separator
        exclude_additional_attributes key_field c c = Some []).
Proof.
  intros OK.
  assert (P : forall ds, cmp_catalogs c c = Some ds -> ds = []).
  { intros ds E. rewrite (compare_catalogs_expected _ _ E).
    now apply expected_diffs_same. }
  split; [exact P|]. intros N C.
  destruct (@compare_catalogs_returns c c N C) as [ds E].
  rewrite E. f_equal. now apply P.
Qed.

(** *** The order of the entries *)

Lemma assign_all_keys V (items : list (str * V)) (d : dict V) :
  NoDup (dict_keys d) ->
  dict_keys (assign_all d items) =
  dict_keys d ++ filter (fun k => negb (dict_mem k d)) (first_occurrences (map fst items)).
Proof.
  revert d; induction items as [|[k v] items IH]; intros d ND; simpl.
  - now rewrite app_nil_r.
  - unfold assign_all. simpl. fold (assign_all (dict_set d k v) items).
    rewrite (IH _ (@dict_set_NoDup _ d k v ND)), dict_keys_set.
    set (fo := first_occurrences (map fst items)).
    assert (F : forall (test : str -> bool),
               (forall y, y <> k -> test y = negb (dict_mem y d)) ->
               filter (fun y => negb (dict_mem y (dict_set d k v))) fo =
               filter test (filter (fun y => negb (str_eqb y k)) fo)).
    { intros test T. induction fo as [|y fo IHfo]; simpl; [reflexivity|].
      unfold dict_mem at 1. str_cases y k; simpl.
      - subst y. now rewrite dict_get_set_same.
      - rewrite dict_get_set_other by congruence. fold (dict_mem y d).
        rewrite (T y E), IHfo. reflexivity. }
    destruct (dict_mem k d) eqn:M; simpl.
    + f_equal. now apply F.
    + rewrite <- app_assoc. simpl. do 2 f_equal. now apply F.
Qed.

(** The sub-keys of an attribute map stand in the order in which the pairs
    of the string first name them. *)
Lemma attrs_keys (s : str) pairs :
  s <> [] -> split attr_separator s = Some pairs ->
  dict_keys (attribute_map s) =
  first_occurrences (map (fun pair => fst (pair_item html_unescape pair)) pairs).
Proof.
  intros N S. unfold attrs_of. rewrite (@parse_nonempty html_unescape s attr_separator pairs N S).
  rewrite assign_all_keys by constructor. simpl.
  rewrite map_map. apply filter_all. reflexivity.
Qed.

(** C7.  The sequence [compare_catalogs] returns lists the entries of the
    staging keys, key by key in the order of staging, and after them one
    [extra_in_production] entry for each key only production has, in the
    order of production.  The entries of one staging key follow the columns
    of its staging record, and the entries of the special column list the
    differing sub-keys of staging in the order of the staging attribute map,
    then the sub-keys only production has in the order of the production
    attribute map; the order of an attribute map is the order in which its
    string first names the sub-keys. *)
Theorem compare_catalogs_order (staging production : catalog) (ds : list (dict str)) :
  compare_catalogs html_unescape ignore_fields special_field attr_separator
    exclude_additional_attributes key_field staging production = Some ds ->
  ds = flat_map (entries_of_record production) staging
       ++ map (fun sku => diff_entry key_field sku EXTRA [] [] [])
              (filter (fun sku => negb (dict_mem sku staging)) (dict_keys production))
  /\ (forall sku stg_row prod_row,
        dict_get production sku = Some prod_row -> record_truthy prod_row = true ->
        entries_of_record production (sku, stg_row)
        = flat_map (entries_of_field sku prod_row) (r_fields stg_row))
  /\ (forall sku prod_row raw,
        set_mem special_field ignore_fields = false ->
        let stg_attrs := attribute_map (strip (or_empty raw)) in
        let prod_attrs := attribute_map (strip (or_empty (record_get prod_row special_field))) in
        entries_of_field sku prod_row (special_field, raw)
        = map (fun item =>
                 diff_entry key_field sku DIFFERENT_ATTR
                   (special_field ++ lit ":" ++ fst item)
                   (snd item) (or_empty (dict_get prod_attrs (fst item))))
              (filter (staging_side exclude_additional_attributes prod_attrs) stg_attrs)
          ++ map (fun item =>
                    diff_entry key_field sku DIFFERENT_ATTR
                      (special_field ++ lit ":" ++ fst item) [] (snd item))
                 (filter (production_side exclude_additional_attributes stg_attrs) prod_attrs))
  /\ (forall (s : str) pairs,
        s <> [] -> split attr_separator s = Some pairs ->
        dict_keys (attribute_map s)
        = first_occurrences (map (fun pair => fst (pair_item html_unescape pair)) pairs)).
Proof.
  intro E. split; [|split; [|split]].
  - now apply compare_catalogs_expected.
  - intros sku stg_row prod_row G T. unfold expected_record_entries. simpl.
    now rewrite G, T.
  - intros sku prod_row raw I. unfold expected_field_entries. simpl.
    now rewrite I, str_eqb_refl.
  - intros s pairs. apply attrs_keys.
Qed.

(** *** The entries as dicts *)

Hypothesis key_field_fresh : ~ In key_field reserved_keys.

Lemma diff_entry_fresh sku type field a b :
  diff_entry key_field sku type field a b =
  [(key_field, sku); (lit "type", type); (lit "field", field);
   (lit "staging_value", a); (lit "production_value", b)].
Proof.
  unfold diff_entry, dict_literal. rewrite assign_all_fresh; [reflexivity|].
  unfold dict_keys. cbn [map fst app].
  constructor.
  - intros [H|[H|[H|[H|[]]]]]; apply key_field_fresh; unfold reserved_keys;
      rewrite <- H; simpl; tauto.
  - repeat constructor; simpl; intuition discriminate.
Qed.

Lemma diff_entry_inj sku type field a b sku' type' field' a' b' :
  diff_entry key_field sku type field a b = diff_entry key_field sku' type' field' a' b' ->
  sku = sku' /\ type = type' /\ field = field' /\ a = a' /\ b = b'.
Proof. rewrite !diff_entry_fresh. intros [= -> -> -> -> ->]. tauto. Qed.

Lemma entry_for_diff_entry k sku type field a b :
  entry_for key_field k (diff_entry key_field sku type field a b) = str_eqb sku k.
Proof.
  rewrite diff_entry_fresh. unfold entry_for. simpl. now rewrite str_eqb_refl.
Qed.

(** Every entry of a staging key's block was built for that key. *)
Lemma block_key production sku stg_row k e :
  In e (entries_of_record production (sku, stg_row)) ->
  entry_for key_field k e = str_eqb sku k.
Proof.
  unfold expected_record_entries. simpl.
  assert (M : In e [diff_entry key_field sku MISSING [] [] []] ->
              entry_for key_field k e = str_eqb sku k)
    by (intros [<-|[]]; apply entry_for_diff_entry).
  destruct (dict_get production sku) as [prod_row|]; [|exact M].
  destruct (record_truthy prod_row); [|exact M].
  intro I. apply in_flat_map in I as ([field raw] & _ & I).
  unfold expected_field_entries in I. simpl in I.
  destruct (set_mem field ignore_fields); [destruct I|].
  destruct (str_eqb field special_field).
  - unfold expected_attribute_entries in I.
    apply in_app_or in I as [I|I]; apply in_map_iff in I as (x & <- & _);
      apply entry_for_diff_entry.
  - match type of I with context [if ?c then _ else _] => destruct c end;
      [destruct I|]. destruct I as [<-|[]].
    apply entry_for_diff_entry.
Qed.

Lemma filter_blocks production staging k :
  dict_ok staging ->
  filter (entry_for key_field k) (flat_map (entries_of_record production) staging) =
  match dict_get staging k with
  | Some stg_row => entries_of_record production (k, stg_row)
  | None => []
  end.
Proof.
  unfold dict_ok. induction staging as [|[sku row] staging IH]; simpl; intro ND;
    [reflexivity|].
  inversion ND as [|? ? NI ND']; subst. rewrite filter_app, (IH ND').
  str_cases sku k.
  - subst sku. rewrite filter_all.
    + apply dict_get_None in NI. rewrite NI. apply app_nil_r.
    + intros e I. rewrite (block_key _ _ _ k _ I). apply str_eqb_refl.
  - rewrite filter_none; [reflexivity|].
    intros e I. rewrite (block_key _ _ _ k _ I). now apply str_eqb_neq.
Qed.

Lemma filter_key_NoDup (l : list str) k :
  NoDup l -> filter (fun x => str_eqb x k) l = if set_mem k l then [k] else [].
Proof.
  induction l as [|x l IH]; simpl; intro ND; [reflexivity|].
  inversion ND as [|? ? NI ND']; subst. rewrite (IH ND').
  rewrite (str_eqb_sym k x). str_cases x k; simpl; [|reflexivity].
  subst x. apply set_mem_not_In in NI. now rewrite NI.
Qed.

Lemma filter_extras (staging production : catalog) k :
  dict_ok production ->
  filter (entry_for key_field k)
    (map (fun sku => diff_entry key_field sku EXTRA [] [] [])
         (filter (fun sku => negb (dict_mem sku staging)) (dict_keys production))) =
  if dict_mem k production && negb (dict_mem k staging)
  then [diff_entry key_field k EXTRA [] [] []]
  else [].
Proof.
  intro ND. set (keys := filter _ (dict_keys production)).
  assert (E : filter (entry_for key_field k)
                (map (fun sku => diff_entry key_field sku EXTRA [] [] []) keys) =
              map (fun sku => diff_entry key_field sku EXTRA [] [] [])
                (filter (fun x => str_eqb x k) keys)).
  { induction keys as [|x keys IH]; simpl; [reflexivity|].
    rewrite entry_for_diff_entry, IH. now destruct (str_eqb x k). }
  rewrite E, filter_key_NoDup by (subst keys; now apply NoDup_filter).
  assert (M : set_mem k keys = dict_mem k production && negb (dict_mem k staging)).
  { apply eq_true_iff_eq. subst keys.
    rewrite set_mem_In, filter_In, andb_true_iff, dict_mem_In. tauto. }
  rewrite M. now destruct (_ && _).
Qed.


(** C10.  When [key_field] is none of the four fixed slot names and staging
    is a dict proper: a column that the staging record of a key does not
    have gives no [different_value] entry for that key, whatever production
    holds in that column. *)
Theorem staging_columns_only (staging production : catalog) (ds : list (dict str)) :
  dict_ok staging ->
  compare_catalogs html_unescape ignore_fields special_field attr_separator
    exclude_additional_attributes key_field staging production = Some ds ->
  forall sku stg_row field stg_val prod_val,
    dict_get staging sku = Some stg_row ->
    dict_mem field (r_fields stg_row) = false ->
    ~ In (diff_entry key_field sku DIFFERENT field stg_val prod_val) ds.
Proof.
  intros NS E sku stg_row field a b G M I.
  rewrite (compare_catalogs_expected _ _ E) in I. unfold expected_diffs in I.
  apply in_app_or in I as [I|I].
  - apply in_flat_map in I as ([sku' row'] & Is & I).
    unfold expected_record_entries in I. simpl in I.
    assert (Miss : ~ In (diff_entry key_field sku DIFFERENT field a b)
                     [diff_entry key_field sku' MISSING [] [] []]).
    { intros [H|[]]. apply diff_entry_inj in H as (_ & H & _). discriminate. }
    destruct (dict_get production sku') as [prod_row|]; [|contradiction].
    destruct (record_truthy prod_row); [|contradiction].
    apply in_flat_map in I as ([field' raw] & If & I).
    unfold expected_field_entries in I. simpl in I.
    destruct (set_mem field' ignore_fields); [destruct I|].
    destruct (str_eqb field' special_field).
    + unfold expected_attribute_entries in I.
      apply in_app_or in I as [I|I]; apply in_map_iff in I as (x & H & _);
        apply diff_entry_inj in H as (_ & H & _); discriminate.
    + match type of I with context [if ?c then _ else _] => destruct c end;
        [destruct I|]. destruct I as [H|[]].
      apply diff_entry_inj in H as (-> & _ & -> & _).
      rewrite (dict_get_In _ _ _ NS Is) in G. injection G as ->.
      apply dict_mem_not_In in M. apply M. unfold dict_keys.
      apply in_map_iff. now exists (field, raw).
  - apply in_map_iff in I as (sku' & H & _).
    apply diff_entry_inj in H as (_ & H & _). discriminate.
Qed.

End Differ.

(** Replacing one character is a replacement character by character. *)
Lemma replace_char x new s :
  replace [x] new s = flat_map (fun c => if N.eqb x c then new else [c]) s.
Proof.
  unfold replace. induction s as [|c s IH]; [reflexivity|].
  cbn [replace_scan startswith length Nat.sub flat_map]. rewrite andb_true_r, IH.
  now destruct (N.eqb x c).
Qed.

(** [html.escape] replaces character by character: no replacement touches
    what an earlier one wrote. *)
Lemma html_escape_chars v : html_escape v = flat_map html_escape_char v.
Proof.
  unfold html_escape.
  change (lit "&") with [38%N]. change (lit "<") with [60%N]. change (lit ">") with [62%N].
  rewrite !replace_char. induction v as [|c v IH]; [reflexivity|].
  cbn [flat_map]. rewrite !flat_map_app. f_equal; [|exact IH].
  unfold html_escape_char.
  destruct (N.eqb_spec 38 c) as [<-|_]; [reflexivity|].
  cbn [flat_map]. rewrite app_nil_r.
  destruct (N.eqb_spec 60 c) as [<-|_]; [reflexivity|].
  cbn [flat_map]. rewrite app_nil_r.
  destruct (N.eqb_spec 62 c) as [<-|_]; [reflexivity|].
  cbn [flat_map]. rewrite app_nil_r.
  destruct (N.eqb_spec QUOTE2 c) as [<-|_]; [reflexivity|].
  cbn [flat_map]. rewrite app_nil_r.
  now destruct (N.eqb QUOTE1 c).
Qed.

(** ** write_report *)

Lemma for_each_snoc A S (body : S -> A -> option S) (l : list A) (x : A) (s : S) :
  for_each body (l ++ [x]) s = bind (for_each body l s) (fun s' => body s' x).
Proof.
  revert s; induction l as [|a l IH]; intro s; simpl.
  - now destruct (body s x).
  - destruct (body s a); simpl; [apply IH | reflexivity].
Qed.

Lemma first_occurrences_In (l : list str) k : In k (first_occurrences l) <-> In k l.
Proof.
  induction l as [|x l IH]; simpl; [tauto|].
  rewrite filter_In, IH, negb_true_iff, str_eqb_neq.
  destruct (str_eq_dec x k); [subst; tauto | intuition congruence].
Qed.

Lemma first_occurrences_NoDup (l : list str) : NoDup (first_occurrences l).
Proof.
  induction l as [|x l IH]; simpl; constructor.
  - rewrite filter_In, negb_true_iff, str_eqb_neq. tauto.
  - now apply NoDup_filter.
Qed.

Lemma first_occurrences_snoc (l : list str) x :
  first_occurrences (l ++ [x]) =
  if set_mem x l then first_occurrences l else first_occurrences l ++ [x].
Proof.
  induction l as [|y l IH]; simpl; [reflexivity|].
  rewrite IH. str_cases x y; simpl.
  - subst y. destruct (set_mem x l); [reflexivity|].
    rewrite filter_app. simpl. rewrite str_eqb_refl. simpl. now rewrite app_nil_r.
  - destruct (set_mem x l); [reflexivity|].
    rewrite filter_app. simpl. apply str_eqb_neq in E. now rewrite E.
Qed.

(** A dict given key by key: reading and assigning to one of its keys. *)
Lemma dict_get_keyed V (f : str -> V) (keys : list str) k :
  dict_get (map (fun x => (x, f x)) keys) k = if set_mem k keys then Some (f k) else None.
Proof.
  induction keys as [|x keys IH]; simpl; [reflexivity|].
  rewrite (str_eqb_sym k x). str_cases x k; simpl; [now subst | apply IH].
Qed.

Lemma dict_set_keyed V (f : str -> V) (keys : list str) k v :
  NoDup keys -> In k keys ->
  dict_set (map (fun x => (x, f x)) keys) k v =
  map (fun x => (x, if str_eqb x k then v else f x)) keys.
Proof.
  induction keys as [|x keys IH]; simpl; [tauto|].
  intros ND I. inversion ND as [|? ? NI ND']; subst. str_cases x k.
  - subst x. f_equal. apply map_ext_in. intros y Iy.
    str_cases y k; [congruence | reflexivity].
  - f_equal. apply IH; [assumption|]. destruct I; [congruence | assumption].
Qed.

Lemma dict_set_snoc_last V (d : dict V) k v v' :
  ~ In k (dict_keys d) -> dict_set (d ++ [(k, v)]) k v' = d ++ [(k, v')].
Proof.
  induction d as [|[k0 v0] d IH]; simpl; intro N.
  - now rewrite str_eqb_refl.
  - str_cases k0 k; [tauto|]. rewrite IH; tauto.
Qed.

Section Report.

Variable fs : file_system.
Variables (html_fields : list str) (staging_data : catalog)
          (output_file key_field : str).

Abbreviation key_of := (fun diff => slot diff key_field).
Abbreviation described diffs :=
  (fun sku => mk_info (descriptions html_fields key_field diffs sku) (Some [])).

Lemma complete_get diff name :
  complete key_field diff -> In name (key_field :: reserved_keys) ->
  dict_get diff name = Some (slot diff name).
Proof.
  intros C I. specialize (C name I). unfold dict_mem, slot in *.
  now destruct (dict_get diff name).
Qed.

(** One entry: the key gets the entry's description as its last one. *)
Lemma group_diff_complete grouped diff :
  complete key_field diff ->
  group_diff html_fields key_field grouped diff =
  append_diff
    (if negb (dict_mem (key_of diff) grouped)
     then dict_set grouped (key_of diff) (mk_info [] (Some []))
     else grouped)
    (key_of diff) (render html_fields diff).
Proof.
  intro C. unfold group_diff, render.
  rewrite (complete_get C) by now left.
  rewrite !(complete_get (name := lit "type") C) by (right; now left).
  rewrite (complete_get (name := lit "field") C) by (right; right; now left).
  rewrite (complete_get (name := lit "staging_value") C)
    by (right; right; right; now left).
  rewrite (complete_get (name := lit "production_value") C)
    by (right; right; right; right; now left).
  cbn [bind].
  destruct (str_eqb (slot diff (lit "type")) MISSING); [reflexivity|].
  destruct (str_eqb (slot diff (lit "type")) EXTRA); [reflexivity|].
  now destruct (needs_escape html_fields (slot diff (lit "field"))).
Qed.

Lemma descriptions_snoc diffs diff sku :
  descriptions html_fields key_field (diffs ++ [diff]) sku =
  descriptions html_fields key_field diffs sku
  ++ (if str_eqb (key_of diff) sku then [render html_fields diff] else []).
Proof.
  unfold descriptions. rewrite filter_app, map_app. simpl.
  now destruct (str_eqb (slot diff key_field) sku).
Qed.

Lemma descriptions_absent diffs sku :
  ~ In sku (map key_of diffs) -> descriptions html_fields key_field diffs sku = [].
Proof.
  intro N. unfold descriptions. rewrite filter_none; [reflexivity|].
  intros d I. apply str_eqb_neq. intros <-. apply N. apply in_map_iff. now exists d.
Qed.

(** The loop over the entries groups the descriptions by key, the keys in
    the order of their first entries. *)
Lemma group_diffs diffs :
  Forall (complete key_field) diffs ->
  for_each (group_diff html_fields key_field) diffs [] =
  Some (map (fun sku => (sku, described diffs sku))
            (first_occurrences (map key_of diffs))).
Proof.
  induction diffs as [|diff diffs IH] using rev_ind; intro C; [reflexivity|].
  apply Forall_app in C as [C Cd]. inversion Cd as [|? ? Cdiff _]; subst.
  rewrite for_each_snoc, (IH C). cbn [bind].
  rewrite (group_diff_complete _ Cdiff), map_app. cbn [map].
  rewrite first_occurrences_snoc. cbv beta.
  set (sku := slot diff key_field). set (keys := first_occurrences (map key_of diffs)).
  pose proof (first_occurrences_NoDup (map key_of diffs)) as ND. fold keys in ND.
  assert (M : dict_mem sku (map (fun x => (x, described diffs x)) keys)
              = set_mem sku (map key_of diffs)).
  { unfold dict_mem. rewrite dict_get_keyed.
    assert (Ek : set_mem sku keys = set_mem sku (map key_of diffs)).
    { apply eq_true_iff_eq. rewrite !set_mem_In. apply first_occurrences_In. }
    rewrite Ek. now destruct (set_mem sku (map key_of diffs)). }
  rewrite M. unfold append_diff.
  destruct (set_mem sku (map key_of diffs)) eqn:In_l; simpl.
  - assert (Ik : In sku keys) by (apply first_occurrences_In; now apply set_mem_In).
    rewrite dict_get_keyed.
    assert (Ek : set_mem sku keys = true) by now apply set_mem_In.
    rewrite Ek. cbn [bind]. rewrite dict_set_keyed by assumption. f_equal.
    apply map_ext. intro x. f_equal. rewrite descriptions_snoc. fold sku.
    rewrite (str_eqb_sym sku x). str_cases x sku; [now subst | now rewrite app_nil_r].
  - assert (Nk : ~ In sku keys)
      by (unfold keys; rewrite first_occurrences_In; now apply set_mem_not_In).
    rewrite dict_set_fresh by (unfold dict_keys; rewrite map_map; simpl; now rewrite map_id).
    rewrite dict_get_snoc, dict_get_keyed.
    assert (Ek : set_mem sku keys = false) by now apply set_mem_not_In.
    rewrite Ek. simpl. rewrite str_eqb_refl. simpl.
    rewrite dict_set_snoc_last by (unfold dict_keys; rewrite map_map; simpl; now rewrite map_id).
    rewrite map_app. simpl. f_equal.
    + f_equal.
      * apply map_ext_in. intros x Ix. f_equal. rewrite descriptions_snoc. fold sku.
        rewrite (str_eqb_sym sku x). str_cases x sku; [congruence | now rewrite app_nil_r].
      * f_equal. f_equal. rewrite descriptions_snoc. fold sku. rewrite str_eqb_refl.
        rewrite descriptions_absent; [reflexivity|]. now apply set_mem_not_In.
Qed.

(** The values of an entry are escaped exactly when its field, or a part of
    its field that ends before a colon, is one of [html_fields]. *)
Lemma needs_escape_spec field :
  needs_escape html_fields field = true <->
  exists html_field,
    In html_field html_fields /\
    (field = html_field \/ exists rest, field = html_field ++ lit ":" ++ rest).
Proof.
  unfold needs_escape. rewrite existsb_exists. split.
  - intros (h & I & T). exists h. split; [assumption|].
    apply orb_true_iff in T as [T|T].
    + left. now apply str_eqb_eq.
    + right. apply startswith_prefix in T as [r ->]. exists r. now rewrite <- app_assoc.
  - intros (h & I & [-> | [r ->]]); exists h; (split; [assumption|]); apply orb_true_iff.
    + left. apply str_eqb_refl.
    + right. apply startswith_prefix. exists r. now rewrite <- app_assoc.
Qed.

(** C8, amended.  For a non-empty sequence of entries that have all their
    slots, an output file with a directory part, and a file system that
    lets the directory be made and the file be opened, [write_report]
    creates the directory, opens the file, writes the header and one row
    per distinct key, in the order in which the keys first occur; a row
    holds the key, the auxiliary column of the staging record and the
    descriptions of the key's entries joined with ["; "].  The description
    of an entry is its kind for the kinds [missing_in_production] and
    [extra_in_production], and otherwise the field and the two values in
    brackets around the arrow literal of line 199.  The two values are
    escaped exactly when the field is one of [html_fields] or starts with
    one of them and a colon, for a plain column as for an attribute
    sub-field; escaping replaces the five characters [&], [<], [>], the
    double and the single quote by their references. *)
Theorem write_report_rows (diffs : list (dict str)) :
  diffs <> [] -> Forall (complete key_field) diffs ->
  dirname output_file <> [] ->
  makedirs_returns fs (dirname output_file) = true -> open_returns fs output_file = true ->
  write_report fs html_fields staging_data output_file key_field diffs =
  Some ([Makedirs (dirname output_file); OpenFile output_file;
         WriteHeader [key_field; lit "product_websites"; lit "differences"]]
        ++ map WriteRow (expected_rows html_fields staging_data key_field diffs)
        ++ [ReportNotice output_file; TotalNotice (length diffs)])
  /\ (forall diff,
        render html_fields diff =
        if str_eqb (slot diff (lit "type")) MISSING then MISSING
        else if str_eqb (slot diff (lit "type")) EXTRA then EXTRA
        else
          let shown v :=
            if needs_escape html_fields (slot diff (lit "field")) then html_escape v else v in
          slot diff (lit "field")
            ++ lit " [" ++ shown (slot diff (lit "staging_value"))
            ++ lit " " ++ ARROW ++ lit " "
            ++ shown (slot diff (lit "production_value")) ++ lit "]")
  /\ (forall field,
        needs_escape html_fields field = true <->
        exists html_field,
          In html_field html_fields /\
          (field = html_field \/ exists rest, field = html_field ++ lit ":" ++ rest))
  /\ (forall value, html_escape value = flat_map html_escape_char value)
  /\ NoDup (first_occurrences (map (fun diff => slot diff key_field) diffs))
  /\ (forall sku,
        In sku (first_occurrences (map (fun diff => slot diff key_field) diffs)) <->
        exists diff, In diff diffs /\ slot diff key_field = sku).
Proof.
  intros NE C D M O.
  split; [|split; [reflexivity | split; [apply needs_escape_spec
                                        | split; [apply html_escape_chars | split]]]];
    [| apply first_occurrences_NoDup
     | intro sku; rewrite first_occurrences_In, in_map_iff; split;
       intros (d & H1 & H2); exists d; tauto].
  unfold write_report. destruct diffs as [|d ds] eqn:Ed; [congruence|].
  rewrite <- Ed in *. rewrite (group_diffs C). cbn [bind].
  unfold makedirs, open_file. destruct (dirname output_file) as [|c directory]; [congruence|].
  rewrite M, O. cbn [bind]. do 2 f_equal.
  f_equal. unfold expected_rows. rewrite !map_map. apply map_ext. intro sku.
  reflexivity.
Qed.

(** C9.  For the empty sequence of entries [write_report] prints the notice
    that there are no differences, and does nothing else: it creates no
    directory, opens no file and writes no row. *)
Theorem write_report_no_differences :
  write_report fs html_fields staging_data output_file key_field [] =
  Some [NoDifferencesNotice].
Proof. reflexivity. Qed.

End Report.

(** ** load_csv *)

Lemma for_each_invariant A S (body : S -> A -> option S) (P : S -> Prop) :
  (forall s a s', P s -> body s a = Some s' -> P s') ->
  forall l s s', P s -> for_each body l s = Some s' -> P s'.
Proof.
  intros Step l; induction l as [|a l IH]; intros s s' Ps; simpl.
  - now intros [= <-].
  - destruct (body s a) as [s1|] eqn:E; simpl; [|discriminate].
    apply IH. now apply (Step s a).
Qed.

Lemma dict_set_In V (d : dict V) k0 v0 k v :
  In (k, v) (dict_set d k0 v0) -> (k = k0 /\ v = v0) \/ In (k, v) d.
Proof.
  induction d as [|[k1 v1] d IH]; simpl.
  - intros [[= <- <-]|[]]. now left.
  - str_cases k1 k0; simpl.
    + intros [[= <- <-]|I]; [left; now subst | right; now right].
    + intros [E'|I]; [right; now left|]. destruct (IH I); [now left | right; now right].
Qed.

Lemma replace_nonempty old new s :
  new <> [] -> s <> [] -> replace old new s <> [].
Proof.
  intros Nn Ns. unfold replace. destruct old as [|x old].
  - destruct new; [congruence | discriminate].
  - destruct s as [|c s]; [congruence|].
    change (replace_scan (x :: old) new 0 (c :: s))
      with (if startswith (x :: old) (c :: s)
            then new ++ replace_scan (x :: old) new (length (x :: old) - 1) s
            else c :: replace_scan (x :: old) new 0 s).
    destruct (startswith (x :: old) (c :: s)); [|discriminate].
    destruct new; [congruence | discriminate].
Qed.

Lemma restore_nonempty v : v <> [] -> restore v <> [].
Proof.
  intro N. unfold restore. repeat apply replace_nonempty; try assumption; discriminate.
Qed.

Section Loader.

Variables (special_field key_field : str).

(** A row whose key column is absent, [None] or empty is passed over. *)
Lemma load_row_skips data row :
  record_get row key_field = None \/ record_get row key_field = Some [] ->
  load_row special_field key_field data row = Some data.
Proof. unfold load_row. now intros [-> | ->]. Qed.

Lemma load_row_keys_trimmed data row data' :
  keys_trimmed key_field data -> load_row special_field key_field data row = Some data' ->
  keys_trimmed key_field data'.
Proof.
  intros P. unfold load_row.
  destruct (record_get row key_field) as [[|c v]|] eqn:K; try (now intros [= <-]).
  set (row' := match record_get row special_field with
               | Some ((_ :: _) as w) =>
                   mk_record (dict_set (r_fields row) special_field (Some (restore w)))
                     (r_rest row)
               | _ => row
               end).
  assert (K' : exists v', record_get row' key_field = Some v' /\ v' <> []).
  { subst row'. destruct (record_get row special_field) as [[|c' w]|] eqn:Sp;
      try (exists (c :: v); split; [assumption | discriminate]).
    unfold record_get. simpl. str_cases special_field key_field.
    - subst. rewrite dict_get_set_same. exists (restore (c' :: w)).
      split; [reflexivity | apply restore_nonempty; discriminate].
    - rewrite dict_get_set_other by assumption. exists (c :: v).
      split; [exact K | discriminate]. }
  destruct K' as (v' & K' & N'). rewrite K'. cbn [bind]. intros [= <-].
  intros key r I. apply dict_set_In in I as [[-> ->]|I]; [|now apply P].
  now exists v'.
Qed.

Lemma load_csv_keys_trimmed content delimiter data :
  load_csv content delimiter special_field key_field = Some data -> keys_trimmed key_field data.
Proof.
  unfold load_csv. destruct (splitlines content) as [|header rest].
  - intros [= <-]. intros key row [].
  - destruct (split [delimiter] header); [|discriminate]. cbn [bind].
    destruct (Csv.DictReader _ delimiter) as [rows|]; [|discriminate]. cbn [bind].
    apply for_each_invariant with (P := keys_trimmed key_field).
    + intros s a s'. apply load_row_keys_trimmed.
    + intros key row [].
Qed.

End Loader.

(** ** The examples *)

(** The example of the specification: one entry for [A1], for the sub-key
    [size]; staging-only [B2] is missing, production-only [C3] is extra, and
    the column [weight], which only production has, gives no entry. *)
Example compare_example :
  compare_catalogs unescape_without_ampersand [] ADDITIONAL_ATTRIBUTES SECTION_MARK []
    SKU example_staging example_production = Some example_diffs.
Proof. reflexivity. Qed.

(** A comma and the section mark inside the quoted special field come back
    as they were written. *)
Example load_csv_comma :
  load_csv document_with_comma COMMA ADDITIONAL_ATTRIBUTES SKU =
  Some [(lit "A1",
         mk_record [(SKU, Some (lit "A1"));
                    (ADDITIONAL_ATTRIBUTES, Some (lit "a=1,5" ++ SECTION_MARK ++ lit "b"));
                    (lit "color", Some (lit "red"))] [])].
Proof. reflexivity. Qed.

(** The report of the example, with the values of the special column
    escaped: one row per key, in the order of the first entries. *)
Example write_report_example :
  write_report grants_all [ADDITIONAL_ATTRIBUTES] example_staging
    (lit "output/diff_report.csv") SKU example_escaped_diffs
  = Some [Makedirs (lit "output"); OpenFile (lit "output/diff_report.csv");
          WriteHeader [SKU; lit "product_websites"; lit "differences"];
          WriteRow [(SKU, Some (lit "A1")); (lit "product_websites", Some []);
                    (lit "differences",
                     Some (lit "additional_attributes:size [M " ++ ARROW ++ lit " L]; "
                           ++ lit "additional_attributes:note [a&lt;b " ++ ARROW
                           ++ lit " ok]"))];
          WriteRow [(SKU, Some (lit "B2")); (lit "product_websites", Some []);
                    (lit "differences", Some (lit "missing_in_production"))];
          WriteRow [(SKU, Some (lit "C3")); (lit "product_websites", Some []);
                    (lit "differences", Some (lit "extra_in_production"))];
          ReportNotice (lit "output/diff_report.csv"); TotalNotice 4].
Proof. reflexivity. Qed.

(** An output file without a directory part: [os.makedirs] is called with
    the empty name and raises, whatever the file system grants. *)
Example write_report_without_directory :
  write_report grants_all [ADDITIONAL_ATTRIBUTES] example_staging (lit "diff_report.csv")
    SKU example_diffs = None.
Proof. reflexivity. Qed.

(** C8, at an input where the code departs from it.  The column [a:b] of
    the two catalogs is a plain column, and its entry is of the kind
    [different_value]; with [a] in the escape set the code escapes its
    values, because the field starts with [a:], although the field is not
    in the set and the entry is no attribute sub-field.  The arrow the code
    writes is the literal of line 199 as the source file stores it, not
    U+2192. *)
Lemma write_report_escapes_plain_column :
  compare_catalogs unescape_without_ampersand [] ADDITIONAL_ATTRIBUTES SECTION_MARK []
    SKU colon_staging colon_production = Some [colon_entry]
  /\ write_report grants_all [lit "a"] colon_staging (lit "output/diff_report.csv") SKU
       [colon_entry]
     = Some [Makedirs (lit "output"); OpenFile (lit "output/diff_report.csv");
             WriteHeader [SKU; lit "product_websites"; lit "differences"];
             WriteRow [(SKU, Some (lit "A1")); (lit "product_websites", Some []);
                       (lit "differences",
                        Some (lit "a:b [&lt;x " ++ ARROW ++ lit " y]"))];
             ReportNotice (lit "output/diff_report.csv"); TotalNotice 1]
  /\ specified_render [lit "a"] colon_entry = lit "a:b [<x " ++ RIGHT_ARROW ++ lit " y]"
  /\ needs_escape [lit "a"] (lit "a:b") = true
  /\ specified_escape [lit "a"] colon_entry = false
  /\ ARROW <> RIGHT_ARROW.
Proof. repeat split; try reflexivity. discriminate. Qed.

(** C1, at the input where the code departs from it.  The special field of
    [document_with_newline] holds [x], a line break and [y] between double
    quotes; the text is split into lines before the field is protected, and
    the record [load_csv] stores under [A1] holds [xy]: the line break is
    lost. *)
Theorem load_csv_loses_newline :
  load_csv document_with_newline COMMA ADDITIONAL_ATTRIBUTES SKU =
  Some [(lit "A1",
         mk_record [(SKU, Some (lit "A1")); (ADDITIONAL_ATTRIBUTES, Some (lit "xy"))] [])]
  /\ lit "xy" <> lit "x" ++ [LF] ++ lit "y".
Proof. split; [reflexivity | discriminate]. Qed.

(** C2, at the input where the code departs from it.  A sub-key without
    value that only staging has is not in the diff, although it is present
    on exactly one side; the same sub-key is in the diff when only
    production has it. *)
Theorem flag_only_in_staging_is_not_reported (html_unescape : str -> str) :
  diff_additional_attributes html_unescape (Some (lit "flag")) (Some []) SECTION_MARK []
  = Some []
  /\ diff_additional_attributes html_unescape (Some []) (Some (lit "flag")) SECTION_MARK []
     = Some [(lit "flag", ([], []))].
Proof. split; reflexivity. Qed.

(** C5, at the input where the code departs from it.  A key of two spaces
    passes the test for an empty key and is stored trimmed: the catalog has
    the empty key, and the comparison reports an entry for it. *)
Theorem load_csv_stores_empty_key :
  load_csv document_with_blank_key COMMA ADDITIONAL_ATTRIBUTES SKU =
  Some [([], mk_record [(SKU, Some (lit "  ")); (lit "name", Some (lit "x"))] [])]
  /\ compare_catalogs unescape_without_ampersand [] ADDITIONAL_ATTRIBUTES SECTION_MARK []
       SKU [([], mk_record [(SKU, Some (lit "  ")); (lit "name", Some (lit "x"))] [])] []
     = Some [diff_entry SKU [] MISSING [] [] []].
Proof. split; reflexivity. Qed.

(** ** The theorems at the examples *)

(** Closes a goal about closed lists of strings: no repetition, a member
    that is not there, an equation between different literals. *)
Ltac closed_strings :=
  cbv; repeat constructor;
  try (intros name I; repeat (destruct I as [<-|I]; [reflexivity|]); destruct I);
  repeat (let H := fresh in intros [H|H]; [discriminate H|revert H]);
  try (intros []); try discriminate.

(** [compare_catalogs_self] at the staging catalog of the example. *)
Lemma compare_catalogs_self_witness :
  compare_catalogs unescape_without_ampersand [] ADDITIONAL_ATTRIBUTES SECTION_MARK []
    SKU example_staging example_staging = Some [].
Proof.
  apply compare_catalogs_self.
  - split; [closed_strings|].
    intros sku row [E|[E|[]]]; injection E as <- <-; (split; [closed_strings | reflexivity]).
  - discriminate.
  - intros sku row [E|[E|[]]]; injection E as <- <-; reflexivity.
Defined.


(** [staging_columns_only] at the example: the column [weight] of production
    gives no entry. *)
Lemma staging_columns_only_witness :
  ~ In (diff_entry SKU (lit "A1") DIFFERENT (lit "weight") [] (lit "1kg")) example_diffs.
Proof.
  apply (@staging_columns_only unescape_without_ampersand [] ADDITIONAL_ATTRIBUTES
           SECTION_MARK [] SKU ltac:(closed_strings) example_staging example_production
           example_diffs ltac:(closed_strings) eq_refl (lit "A1")
           (mk_record [(SKU, Some (lit "A1")); (lit "color", Some (lit "red"));
                       (ADDITIONAL_ATTRIBUTES,
                        Some (lit "size=M" ++ SECTION_MARK ++ lit "note=ok"))] []));
    reflexivity.
Defined.

(** [compare_catalogs_order] at the example. *)
Lemma compare_catalogs_order_witness :
  example_diffs =
  flat_map (expected_record_entries unescape_without_ampersand [] ADDITIONAL_ATTRIBUTES
              SECTION_MARK [] SKU example_production) example_staging
  ++ map (fun sku => diff_entry SKU sku EXTRA [] [] [])
         (filter (fun sku => negb (dict_mem sku example_staging))
                 (dict_keys example_production)).
Proof.
  apply (@compare_catalogs_order unescape_without_ampersand [] ADDITIONAL_ATTRIBUTES
           SECTION_MARK [] SKU example_staging example_production example_diffs eq_refl).
Defined.


(** [write_report_rows] at the entries of the example and one more with a
    value to escape, the special column in the escape set, in a file
    system that grants the directory [output] and the file. *)
Lemma write_report_rows_witness :
  write_report grants_all [ADDITIONAL_ATTRIBUTES] example_staging
    (lit "output/diff_report.csv") SKU example_escaped_diffs =
  Some ([Makedirs (lit "output"); OpenFile (lit "output/diff_report.csv");
         WriteHeader [SKU; lit "product_websites"; lit "differences"]]
        ++ map WriteRow
             [[(SKU, Some (lit "A1")); (lit "product_websites", Some []);
               (lit "differences",
                Some (lit "additional_attributes:size [M " ++ ARROW ++ lit " L]; "
                      ++ lit "additional_attributes:note [a&lt;b " ++ ARROW
                      ++ lit " ok]"))];
              [(SKU, Some (lit "B2")); (lit "product_websites", Some []);
               (lit "differences", Some (lit "missing_in_production"))];
              [(SKU, Some (lit "C3")); (lit "product_websites", Some []);
               (lit "differences", Some (lit "extra_in_production"))]]
        ++ [ReportNotice (lit "output/diff_report.csv"); TotalNotice 4]).
Proof.
  apply (@write_report_rows grants_all [ADDITIONAL_ATTRIBUTES] example_staging
           (lit "output/diff_report.csv") SKU example_escaped_diffs).
  - discriminate.
  - repeat constructor; closed_strings.
  - discriminate.
  - reflexivity.
  - reflexivity.
Defined.

(** * Further properties *)

(** ** When the attribute functions raise, and what the diff holds *)

Section AttributesMore.

Variable html_unescape : str -> str.

Lemma parse_None attr_string attr_separator :
  parse_additional_attributes html_unescape attr_string attr_separator = None <->
  attr_separator = [] /\ exists s, attr_string = Some s /\ s <> [].
Proof.
  unfold parse_additional_attributes, split, bind.
  destruct attr_string as [[|c s]|].
  - split; [discriminate | intros (_ & s & [= <-] & N); congruence].
  - destruct attr_separator as [|x sep].
    + split; [|reflexivity]. intros _. split; [reflexivity|].
      exists (c :: s). split; [reflexivity | discriminate].
    + split; [discriminate | intros (E & _); discriminate E].
  - split; [discriminate | intros (_ & s & E & _); discriminate E].
Qed.

Lemma diff_None stg_val prod_val attr_separator exclude_attrs :
  diff_additional_attributes html_unescape stg_val prod_val attr_separator exclude_attrs
    = None <->
  attr_separator = [] /\
  ((exists s, stg_val = Some s /\ s <> []) \/ (exists s, prod_val = Some s /\ s <> [])).
Proof.
  unfold diff_additional_attributes, bind.
  destruct (parse_additional_attributes html_unescape stg_val attr_separator) eqn:PS.
  - destruct (parse_additional_attributes html_unescape prod_val attr_separator) eqn:PP.
    + split; [discriminate|]. intros (E & [H|H]).
      * assert (N : parse_additional_attributes html_unescape stg_val attr_separator = None)
          by (apply parse_None; now split).
        congruence.
      * assert (N : parse_additional_attributes html_unescape prod_val attr_separator = None)
          by (apply parse_None; now split).
        congruence.
    + apply parse_None in PP as [E H]. split; [|reflexivity]. intros _. split; auto.
  - apply parse_None in PS as [E H]. split; [|reflexivity]. intros _. split; auto.
Qed.

(** X1.  [parse_additional_attributes] raises in one case only: a non-empty
    string with the empty separator, where [str.split] of line 83 raises
    [ValueError].  [None] and the empty string give the empty map with any
    separator. *)
Theorem parse_additional_attributes_raises attr_string attr_separator :
  parse_additional_attributes html_unescape attr_string attr_separator = None <->
  attr_separator = [] /\ exists s, attr_string = Some s /\ s <> [].
Proof. apply parse_None. Qed.

(** X2.  [diff_additional_attributes] raises exactly when the separator is empty
    and one of the two values is a non-empty string. *)
Theorem diff_additional_attributes_raises stg_val prod_val attr_separator exclude_attrs :
  diff_additional_attributes html_unescape stg_val prod_val attr_separator exclude_attrs
    = None <->
  attr_separator = [] /\
  ((exists s, stg_val = Some s /\ s <> []) \/ (exists s, prod_val = Some s /\ s <> [])).
Proof. apply diff_None. Qed.

Lemma diff_NoDup stg_val prod_val attr_separator exclude_attrs diffs :
  diff_additional_attributes html_unescape stg_val prod_val attr_separator exclude_attrs
    = Some diffs ->
  NoDup (dict_keys diffs).
Proof.
  unfold diff_additional_attributes, bind.
  destruct (parse_additional_attributes html_unescape stg_val attr_separator)
    as [stg_attrs|]; [|discriminate].
  destruct (parse_additional_attributes html_unescape prod_val attr_separator)
    as [prod_attrs|]; [|discriminate].
  intros [= <-].
  rewrite (@fold_left_ext _ _ _ _ (diff_production_step_test stg_attrs exclude_attrs)).
  rewrite fold_conditional_set with (value := fun item : str * str => (@nil char, snd item)).
  apply assign_all_NoDup.
  rewrite (@fold_left_ext _ _ _ _ (diff_staging_step_test prod_attrs exclude_attrs)).
  rewrite fold_conditional_set
    with (value := fun item : str * str => (snd item, or_empty (dict_get prod_attrs (fst item)))).
  apply assign_all_NoDup. constructor.
Qed.

(** X3.  The pair the attribute diff holds under a sub-key.  Under [k] it holds
    [(a, b)] exactly when [k] is not excluded and either staging has [k]
    with the value [a], [b] is the value of production ([""] when production
    lacks [k]) and the two differ, or staging lacks [k], production has it
    with the value [b], and [a] is [""]. *)
Theorem diff_additional_attributes_values stg_val prod_val attr_separator exclude_attrs
    stg_attrs prod_attrs diffs :
  parse_additional_attributes html_unescape stg_val attr_separator = Some stg_attrs ->
  parse_additional_attributes html_unescape prod_val attr_separator = Some prod_attrs ->
  diff_additional_attributes html_unescape stg_val prod_val attr_separator exclude_attrs
    = Some diffs ->
  forall k a b,
    dict_get diffs k = Some (a, b) <->
    set_mem k exclude_attrs = false /\
    ((dict_get stg_attrs k = Some a /\ b = or_empty (dict_get prod_attrs k) /\ a <> b)
     \/ (dict_get stg_attrs k = None /\ dict_get prod_attrs k = Some b /\ a = [])).
Proof.
  intros PS PP D k a b.
  pose proof (diff_NoDup _ _ _ _ D) as ND.
  rewrite (@diff_additional_attributes_explicit _ _ _ _ exclude_attrs _ _ PS PP) in D.
  injection D as <-.
  pose proof (parse_NoDup _ _ _ PS) as NS. pose proof (parse_NoDup _ _ _ PP) as NP.
  split.
  - intro G. apply dict_get_Some_In in G.
    apply in_app_or in G as [G|G]; apply in_map_iff in G as ([k' v] & E & I);
      simpl in E; injection E as <- <- <-; apply filter_In in I as [I T].
    + unfold staging_side in T. simpl in T.
      apply andb_true_iff in T as [T1 T2]. apply negb_true_iff in T1, T2.
      split; [assumption | left]. split; [now apply dict_get_In|].
      split; [reflexivity|]. apply str_eqb_neq in T2. congruence.
    + unfold production_side in T. simpl in T.
      apply andb_true_iff in T as [T1 T2]. apply negb_true_iff in T1, T2.
      split; [assumption | right]. split.
      * unfold dict_mem in T2. now destruct (dict_get stg_attrs k').
      * split; [now apply dict_get_In | reflexivity].
  - intros [X H]. apply dict_get_In; [assumption|]. apply in_or_app.
    destruct H as [(G & -> & N) | (G & Gp & ->)].
    + left. apply in_map_iff. exists (k, a). split; [reflexivity|]. apply filter_In.
      split; [now apply dict_get_Some_In|]. unfold staging_side. simpl.
      rewrite X. simpl. apply negb_true_iff. apply str_eqb_neq. congruence.
    + right. apply in_map_iff. exists (k, b). split; [reflexivity|]. apply filter_In.
      split; [now apply dict_get_Some_In|]. unfold production_side, dict_mem. simpl.
      now rewrite X, G.
Qed.

(** X4.  A value against itself has the empty attribute diff, whatever is
    excluded. *)
Theorem diff_additional_attributes_same value attr_separator exclude_attrs attrs :
  parse_additional_attributes html_unescape value attr_separator = Some attrs ->
  diff_additional_attributes html_unescape value value attr_separator exclude_attrs
    = Some [].
Proof.
  intro P. rewrite (@diff_additional_attributes_explicit _ _ _ _ exclude_attrs _ _ P P).
  pose proof (parse_NoDup _ _ _ P) as N.
  rewrite !filter_none; [reflexivity| |].
  - intros [k v] I. unfold production_side. simpl.
    replace (dict_mem k attrs) with true; [apply andb_false_r|].
    symmetry. apply dict_mem_In. unfold dict_keys. apply in_map_iff. now exists (k, v).
  - intros [k v] I. unfold staging_side. simpl.
    rewrite (dict_get_In _ _ _ N I). simpl. rewrite str_eqb_refl. apply andb_false_r.
Qed.

End AttributesMore.

(** ** When compare_catalogs raises, and which entries it holds *)

Lemma for_each_None A B (body : list B -> A -> option (list B)) (l : list A) :
  appends body ->
  for_each body l [] = None <-> exists a, In a l /\ body [] a = None.
Proof.
  intro Ap. induction l as [|a l IH]; simpl.
  - split; [discriminate | intros (a & [] & _)].
  - destruct (body [] a) as [b|] eqn:E; simpl.
    + rewrite for_each_appends by assumption.
      destruct (for_each body l []) as [ds|]; simpl.
      * split; [discriminate|]. intros (a' & [<-|I] & N); [congruence|].
        assert (H : Some ds = None) by (apply IH; now exists a').
        discriminate H.
      * split; [|reflexivity]. intros _.
        destruct (proj1 IH eq_refl) as (a' & I & N). exists a'. split; [now right | assumption].
    + split; [|reflexivity]. intros _. exists a. split; [now left | assumption].
Qed.

Section DifferMore.

Variable html_unescape : str -> str.
Variables (ignore_fields : list str) (special_field attr_separator : str)
          (exclude_additional_attributes : list str) (key_field : str).

Abbreviation cmp_field :=
  (compare_field html_unescape ignore_fields special_field attr_separator
     exclude_additional_attributes key_field).
Abbreviation cmp_record :=
  (compare_record html_unescape ignore_fields special_field attr_separator
     exclude_additional_attributes key_field).
Abbreviation cmp_catalogs :=
  (compare_catalogs html_unescape ignore_fields special_field attr_separator
     exclude_additional_attributes key_field).
Abbreviation entries_of_catalogs :=
  (expected_diffs html_unescape ignore_fields special_field attr_separator
     exclude_additional_attributes key_field).
Abbreviation attribute_diff :=
  (fun stg_val prod_val =>
     diff_additional_attributes html_unescape (Some stg_val) (Some prod_val)
       attr_separator exclude_additional_attributes).
Abbreviation raises_at := (raising_column ignore_fields special_field attr_separator).

Lemma compare_field_None sku prod_row field raw :
  cmp_field sku prod_row [] (field, raw) = None <->
  attr_separator = [] /\ field = special_field /\ set_mem field ignore_fields = false /\
  (strip (or_empty raw) <> [] \/ strip (or_empty (record_get prod_row field)) <> []).
Proof.
  unfold compare_field.
  destruct (set_mem field ignore_fields);
    [split; [discriminate | intros (_ & _ & H & _); discriminate H]|].
  str_cases field special_field.
  - subst field. unfold bind.
    destruct (diff_additional_attributes html_unescape (Some (strip (or_empty raw)))
                (Some (strip (or_empty (record_get prod_row special_field))))
                attr_separator exclude_additional_attributes) eqn:D.
    + split; [discriminate|]. intros (Sep & _ & _ & H).
      assert (N : diff_additional_attributes html_unescape (Some (strip (or_empty raw)))
                    (Some (strip (or_empty (record_get prod_row special_field))))
                    attr_separator exclude_additional_attributes = None).
      { apply diff_None. split; [assumption|].
        destruct H as [H|H]; [left | right]; eexists; split; try reflexivity; assumption. }
      congruence.
    + apply diff_None in D as [Sep H]. split; [|reflexivity]. intros _.
      repeat split; try assumption.
      destruct H as [(s & [= <-] & H) | (s & [= <-] & H)]; [now left | now right].
  - split; [destruct (negb _); discriminate | intros (_ & H & _); contradiction].
Qed.

Lemma compare_record_None production sku stg_row :
  cmp_record production [] (sku, stg_row) = None <->
  exists prod_row,
    dict_get production sku = Some prod_row /\ record_truthy prod_row = true /\
    (r_rest stg_row <> [] \/ raises_at stg_row prod_row).
Proof.
  unfold compare_record.
  destruct (dict_get production sku) as [prod_row|];
    [|split; [discriminate | intros (p & E & _); discriminate E]].
  destruct (record_truthy prod_row) eqn:T;
    [|split; [discriminate | intros (p & [= <-] & E & _); congruence]].
  destruct (for_each (cmp_field sku prod_row) (r_fields stg_row) []) as [ds|] eqn:F; simpl.
  - assert (NF : ~ raises_at stg_row prod_row).
    { intros (Sep & raw & I & Ig & H).
      assert (N : for_each (cmp_field sku prod_row) (r_fields stg_row) [] = None).
      { apply for_each_None; [apply compare_field_appends|].
        exists (special_field, raw). split; [assumption|].
        apply compare_field_None. auto. }
      congruence. }
    destruct (r_rest stg_row) as [|x rest].
    + split; [discriminate|]. intros (p & [= <-] & _ & [H|H]); [congruence | contradiction].
    + split; [|reflexivity]. intros _. exists prod_row.
      split; [reflexivity|]. split; [assumption|]. left. discriminate.
  - split; [|reflexivity]. intros _. exists prod_row.
    split; [reflexivity|]. split; [assumption|]. right.
    apply for_each_None in F as ([field raw] & I & N); [|apply compare_field_appends].
    apply compare_field_None in N as (Sep & -> & Ig & H).
    split; [assumption|]. now exists raw.
Qed.

(** X5.  [compare_catalogs] raises in two cases only, both at a staging record
    whose key production holds with a record that is not empty: the staging
    record has values beyond the header (line 139 calls [strip] on a list),
    or the separator is empty and the special column, not ignored, has a
    value that is not blank on one of the two sides (line 83 splits at the
    empty string). *)
Theorem compare_catalogs_raises staging production :
  compare_catalogs html_unescape ignore_fields special_field attr_separator
    exclude_additional_attributes key_field staging production = None <->
  exists sku stg_row prod_row,
    In (sku, stg_row) staging /\
    dict_get production sku = Some prod_row /\ record_truthy prod_row = true /\
    (r_rest stg_row <> [] \/ raises_at stg_row prod_row).
Proof.
  unfold compare_catalogs.
  destruct (for_each (cmp_record production) staging []) as [ds|] eqn:F; simpl.
  - split; [discriminate|]. intros (sku & stg_row & prod_row & I & H).
    assert (N : for_each (cmp_record production) staging [] = None).
    { apply for_each_None; [apply compare_record_appends|].
      exists (sku, stg_row). split; [assumption|].
      apply compare_record_None. now exists prod_row. }
    congruence.
  - split; [|reflexivity]. intros _.
    apply for_each_None in F as ([sku stg_row] & I & N); [|apply compare_record_appends].
    apply compare_record_None in N as (prod_row & H).
    now exists sku, stg_row, prod_row.
Qed.

(** X6.  With nothing in production every staging key is missing, in the order of
    staging, and nothing else is reported; no configuration and no staging
    record makes this comparison raise. *)
Theorem compare_catalogs_empty_production staging :
  compare_catalogs html_unescape ignore_fields special_field attr_separator
    exclude_additional_attributes key_field staging [] =
  Some (map (fun sku => diff_entry key_field sku MISSING [] [] []) (dict_keys staging)).
Proof.
  unfold compare_catalogs.
  assert (F : forall diffs,
             for_each (cmp_record []) staging diffs =
             Some (diffs ++ map (fun sku => diff_entry key_field sku MISSING [] [] [])
                                (dict_keys staging))).
  { induction staging as [|[sku row] staging' IH]; intro diffs; simpl.
    - now rewrite app_nil_r.
    - rewrite IH. now rewrite <- app_assoc. }
  rewrite F. reflexivity.
Qed.

(** X7.  With nothing in staging every production key is extra, in the order of
    production, and nothing else is reported. *)
Theorem compare_catalogs_empty_staging production :
  compare_catalogs html_unescape ignore_fields special_field attr_separator
    exclude_additional_attributes key_field [] production =
  Some (map (fun sku => diff_entry key_field sku EXTRA [] [] []) (dict_keys production)).
Proof.
  unfold compare_catalogs. simpl. rewrite compare_extra_fold. simpl.
  now rewrite filter_all.
Qed.

(** X8.  Every entry of the comparison is of one of the four kinds and carries a
    key of staging or of production; an entry of a kind other than
    [missing_in_production] and [extra_in_production] carries a key both
    catalogs hold. *)
Theorem compare_catalogs_entries staging production ds :
  compare_catalogs html_unescape ignore_fields special_field attr_separator
    exclude_additional_attributes key_field staging production = Some ds ->
  forall entry, In entry ds ->
    exists sku type field stg_val prod_val,
      entry = diff_entry key_field sku type field stg_val prod_val /\
      ((type = MISSING /\ dict_mem sku staging = true)
       \/ (type = EXTRA /\ dict_mem sku production = true /\ dict_mem sku staging = false)
       \/ ((type = DIFFERENT \/ type = DIFFERENT_ATTR)
           /\ dict_mem sku staging = true /\ dict_mem sku production = true)).
Proof.
  intros E entry I.
  rewrite (compare_catalogs_expected _ _ _ _ _ _ _ _ E) in I. unfold expected_diffs in I.
  apply in_app_or in I as [I|I].
  - apply in_flat_map in I as ([sku row] & Is & I).
    assert (Ms : dict_mem sku staging = true).
    { apply dict_mem_In. unfold dict_keys. apply in_map_iff. now exists (sku, row). }
    unfold expected_record_entries in I. simpl in I.
    assert (Miss : In entry [diff_entry key_field sku MISSING [] [] []] ->
                   exists sku type field stg_val prod_val,
                     entry = diff_entry key_field sku type field stg_val prod_val /\
                     ((type = MISSING /\ dict_mem sku staging = true)
                      \/ (type = EXTRA /\ dict_mem sku production = true
                          /\ dict_mem sku staging = false)
                      \/ ((type = DIFFERENT \/ type = DIFFERENT_ATTR)
                          /\ dict_mem sku staging = true /\ dict_mem sku production = true))).
    { intros [<-|[]]. exists sku, MISSING, [], [], []. auto. }
    destruct (dict_get production sku) as [prod_row|] eqn:G; [|auto].
    destruct (record_truthy prod_row); [|auto].
    assert (Mp : dict_mem sku production = true) by (unfold dict_mem; now rewrite G).
    apply in_flat_map in I as ([field raw] & If & I).
    unfold expected_field_entries in I. simpl in I.
    destruct (set_mem field ignore_fields); [destruct I|].
    destruct (str_eqb field special_field).
    + unfold expected_attribute_entries, attribute_entry in I.
      apply in_app_or in I as [I|I]; apply in_map_iff in I as (x & <- & _);
        do 5 eexists; (split; [reflexivity|]); right; right; auto.
    + match type of I with context [if ?c then _ else _] => destruct c end;
        [destruct I|]. destruct I as [<-|[]].
      do 5 eexists. split; [reflexivity|]. right; right; auto.
  - apply in_map_iff in I as (sku & <- & I). apply filter_In in I as [I M].
    apply negb_true_iff in M.
    exists sku, EXTRA, [], [], []. split; [reflexivity|]. right; left.
    repeat split; [|assumption]. now apply dict_mem_In.
Qed.

(** X9.  The [different_value] entries, when [key_field] is none of the four
    fixed slot names.  There is one for a key, a column and two values
    exactly when staging holds the key with a record that has the column,
    production holds the key with a record that is not empty, the column is
    neither ignored nor the special column, and the two values are the
    trimmed values of the column in the two records, [""] standing for
    [None] and for a column production lacks, and they differ. *)
Theorem different_value_entries staging production ds :
  ~ In key_field reserved_keys ->
  compare_catalogs html_unescape ignore_fields special_field attr_separator
    exclude_additional_attributes key_field staging production = Some ds ->
  forall sku field stg_val prod_val,
    In (diff_entry key_field sku DIFFERENT field stg_val prod_val) ds <->
    exists stg_row prod_row raw,
      In (sku, stg_row) staging /\
      dict_get production sku = Some prod_row /\ record_truthy prod_row = true /\
      In (field, raw) (r_fields stg_row) /\
      set_mem field ignore_fields = false /\ field <> special_field /\
      stg_val = strip (or_empty raw) /\
      prod_val = strip (or_empty (record_get prod_row field)) /\
      stg_val <> prod_val.
Proof.
  intros Fresh E sku field a b.
  rewrite (compare_catalogs_expected _ _ _ _ _ _ _ _ E). unfold expected_diffs.
  pose proof (@diff_entry_inj html_unescape special_field key_field Fresh) as Inj.
  split.
  - intro I. apply in_app_or in I as [I|I].
    + apply in_flat_map in I as ([sku' row'] & Is & I).
      unfold expected_record_entries in I. simpl in I.
      assert (Miss : ~ In (diff_entry key_field sku DIFFERENT field a b)
                       [diff_entry key_field sku' MISSING [] [] []]).
      { intros [H|[]]. apply Inj in H as (_ & H & _). discriminate. }
      destruct (dict_get production sku') as [prod_row|] eqn:G; [|contradiction].
      destruct (record_truthy prod_row) eqn:T; [|contradiction].
      apply in_flat_map in I as ([field' raw] & If & I).
      unfold expected_field_entries in I. simpl in I.
      destruct (set_mem field' ignore_fields) eqn:Ig; [destruct I|].
      str_cases field' special_field.
      * unfold expected_attribute_entries, attribute_entry in I.
        apply in_app_or in I as [I|I]; apply in_map_iff in I as (x & H & _);
          apply Inj in H as (_ & H & _); discriminate.
      * match type of I with context [if ?c then _ else _] => destruct c eqn:V end;
          [destruct I|]. destruct I as [H|[]].
        apply Inj in H as (-> & _ & -> & <- & <-).
        exists row', prod_row, raw. apply str_eqb_neq in V. tauto.
    + apply in_map_iff in I as (sku' & H & _).
      apply Inj in H as (_ & H & _). discriminate.
  - intros (stg_row & prod_row & raw & Is & G & T & If & Ig & Ns & -> & -> & N).
    apply in_or_app. left. apply in_flat_map. exists (sku, stg_row). split; [assumption|].
    unfold expected_record_entries. simpl. rewrite G, T.
    apply in_flat_map. exists (field, raw). split; [assumption|].
    unfold expected_field_entries. simpl. rewrite Ig.
    apply str_eqb_neq in Ns. rewrite Ns. apply str_eqb_neq in N. rewrite N. now left.
Qed.

(** X10.  The entries of the special column, when [key_field] is none of the four
    fixed slot names.  There is one for a key, a sub-key and two values
    exactly when staging holds the key with a record that has the special
    column, production holds the key with a record that is not empty, the
    special column is not ignored, and [diff_additional_attributes] of the
    two trimmed values holds the two values under the sub-key. *)
Theorem attribute_entries staging production ds :
  ~ In key_field reserved_keys ->
  compare_catalogs html_unescape ignore_fields special_field attr_separator
    exclude_additional_attributes key_field staging production = Some ds ->
  forall sku subkey stg_subval prod_subval,
    In (diff_entry key_field sku DIFFERENT_ATTR (special_field ++ lit ":" ++ subkey)
          stg_subval prod_subval) ds <->
    exists stg_row prod_row raw subdiffs,
      In (sku, stg_row) staging /\
      dict_get production sku = Some prod_row /\ record_truthy prod_row = true /\
      In (special_field, raw) (r_fields stg_row) /\
      set_mem special_field ignore_fields = false /\
      attribute_diff (strip (or_empty raw))
        (strip (or_empty (record_get prod_row special_field))) = Some subdiffs /\
      dict_get subdiffs subkey = Some (stg_subval, prod_subval).
Proof.
  intros Fresh E sku subkey a b.
  rewrite (compare_catalogs_expected _ _ _ _ _ _ _ _ E). unfold expected_diffs.
  pose proof (@diff_entry_inj html_unescape special_field key_field Fresh) as Inj.
  assert (Explicit : forall sv pv subdiffs,
             attribute_diff sv pv = Some subdiffs ->
             forall k x y,
               In (k, (x, y)) subdiffs <->
               In (attribute_entry special_field key_field sku k x y)
                  (expected_attribute_entries html_unescape special_field attr_separator
                     exclude_additional_attributes key_field sku sv pv)).
  { intros sv pv subdiffs D k x y.
    destruct (diff_additional_attributes_parses _ _ _ _ _ D) as [PS PP].
    rewrite (@diff_additional_attributes_explicit _ _ _ _ exclude_additional_attributes
               _ _ PS PP) in D.
    injection D as <-. unfold expected_attribute_entries.
    rewrite !in_app_iff, !in_map_iff. split.
    - intros [([k' v] & [= <- <- <-] & I) | ([k' v] & [= <- <- <-] & I)];
        [left | right]; exists (k', v); now split.
    - intros [([k' v] & H & I) | ([k' v] & H & I)]; apply Inj in H as (_ & _ & H & <- & <-);
        apply app_inv_head in H; apply app_inv_head in H; simpl in H; subst k';
        [left | right]; exists (k, v); now split. }
  split.
  - intro I. apply in_app_or in I as [I|I].
    + apply in_flat_map in I as ([sku' row'] & Is & I).
      unfold expected_record_entries in I. simpl in I.
      assert (Miss : ~ In (diff_entry key_field sku DIFFERENT_ATTR
                             (special_field ++ lit ":" ++ subkey) a b)
                       [diff_entry key_field sku' MISSING [] [] []]).
      { intros [H|[]]. apply Inj in H as (_ & H & _). discriminate. }
      destruct (dict_get production sku') as [prod_row|] eqn:G; [|contradiction].
      destruct (record_truthy prod_row) eqn:T; [|contradiction].
      apply in_flat_map in I as ([field' raw] & If & I).
      unfold expected_field_entries in I. simpl in I.
      destruct (set_mem field' ignore_fields) eqn:Ig; [destruct I|].
      str_cases field' special_field.
      * subst field'.
        assert (Sku : sku' = sku).
        { unfold expected_attribute_entries, attribute_entry in I.
          apply in_app_or in I as [I|I]; apply in_map_iff in I as (x & H & _);
            now apply Inj in H as (-> & _). }
        subst sku'.
        destruct (attribute_diff (strip (or_empty raw))
                    (strip (or_empty (record_get prod_row special_field))))
          as [subdiffs|] eqn:D.
        -- exists row', prod_row, raw, subdiffs. repeat split; try assumption.
           apply dict_get_In; [now apply diff_NoDup in D|].
           now apply (Explicit _ _ _ D).
        -- exfalso. apply diff_None in D as [Sep _].
           unfold expected_attribute_entries, attrs_of, parse_additional_attributes in I.
           rewrite Sep in I. unfold split in I.
           destruct (strip (or_empty raw)), (strip (or_empty (record_get prod_row special_field)));
             destruct I.
      * match type of I with context [if ?c then _ else _] => destruct c end;
          [destruct I|]. destruct I as [H|[]].
        apply Inj in H as (_ & H & _). discriminate.
    + apply in_map_iff in I as (sku' & H & _).
      apply Inj in H as (_ & H & _). discriminate.
  - intros (stg_row & prod_row & raw & subdiffs & Is & G & T & If & Ig & D & Gs).
    apply in_or_app. left. apply in_flat_map. exists (sku, stg_row). split; [assumption|].
    unfold expected_record_entries. simpl. rewrite G, T.
    apply in_flat_map. exists (special_field, raw). split; [assumption|].
    unfold expected_field_entries. simpl. rewrite Ig, str_eqb_refl.
    apply (Explicit _ _ _ D). now apply dict_get_Some_In.
Qed.

End DifferMore.

(** ** When write_report raises *)

Lemma for_each_None_at A S (body : S -> A -> option S) (bad : A -> Prop) :
  (forall s a, body s a = None <-> bad a) ->
  forall l s, for_each body l s = None <-> exists a, In a l /\ bad a.
Proof.
  intros B l. induction l as [|a l IH]; intro s; simpl.
  - split; [discriminate | intros (a & [] & _)].
  - destruct (body s a) as [s'|] eqn:E; simpl.
    + rewrite IH. split.
      * intros (a' & I & H). exists a'. split; [now right | assumption].
      * intros (a' & [<-|I] & H); [apply B with (s := s) in H; congruence|].
        now exists a'.
    + split; [|reflexivity]. intros _. exists a. split; [now left | now apply (B s)].
Qed.

Lemma up_to_last_slash_empty path : up_to_last_slash path = [] <-> ~ In SLASH path.
Proof.
  induction path as [|c path IH]; cbn [up_to_last_slash In]; [tauto|].
  destruct (up_to_last_slash path) as [|h head].
  - destruct (N.eqb_spec c SLASH) as [->|N].
    + split; [discriminate | intro H; exfalso; apply H; now left].
    + split; [|reflexivity]. intros _ [E|I]; [congruence | now apply IH].
  - split; [discriminate|]. intro H. exfalso.
    assert (I : ~ In SLASH path) by tauto. apply IH in I. discriminate I.
Qed.

Lemma lstrip_slashes_empty s : lstrip_slashes s = [] -> forallb (N.eqb SLASH) s = true.
Proof.
  induction s as [|c s IH]; cbn [lstrip_slashes forallb]; [reflexivity|].
  rewrite (N.eqb_sym SLASH c).
  destruct (N.eqb c SLASH); [exact IH | discriminate].
Qed.

(** The output file has no directory part exactly when it holds no slash. *)
Lemma dirname_empty path : dirname path = [] <-> ~ In SLASH path.
Proof.
  rewrite <- up_to_last_slash_empty. unfold dirname.
  destruct (forallb (N.eqb SLASH) (up_to_last_slash path)) eqn:A; [tauto|].
  split.
  - intro E. apply (f_equal (@rev char)) in E. rewrite rev_involutive in E. simpl in E.
    apply lstrip_slashes_empty in E. rewrite forallb_forall in E.
    assert (A' : forallb (N.eqb SLASH) (up_to_last_slash path) = true).
    { apply forallb_forall. intros c I. apply E. now apply -> in_rev. }
    congruence.
  - intro E. rewrite E in A. discriminate A.
Qed.

Section ReportMore.

Variable fs : file_system.
Variables (html_fields : list str) (staging_data : catalog)
          (output_file key_field : str).

Lemma append_diff_returns grouped sku text i :
  append_diff (if negb (dict_mem sku grouped) then dict_set grouped sku i else grouped)
    sku text <> None.
Proof.
  unfold append_diff, dict_mem.
  destruct (dict_get grouped sku) as [j|] eqn:G; simpl.
  - rewrite G. discriminate.
  - rewrite dict_get_set_same. discriminate.
Qed.

Lemma group_diff_None grouped diff :
  group_diff html_fields key_field grouped diff = None <-> readable key_field diff = false.
Proof.
  unfold group_diff, readable, dict_mem, bind.
  destruct (dict_get diff key_field) as [sku|]; [|split; reflexivity].
  destruct (dict_get diff (lit "type")) as [type|]; [|split; reflexivity].
  cbn [andb].
  destruct (str_eqb type MISSING);
    [split; [intro H; now apply append_diff_returns in H | discriminate]|].
  destruct (str_eqb type EXTRA);
    [split; [intro H; now apply append_diff_returns in H | discriminate]|].
  cbn [orb].
  destruct (dict_get diff (lit "field")) as [field|]; [|split; reflexivity].
  destruct (dict_get diff (lit "staging_value")) as [stg_val|]; [|split; reflexivity].
  destruct (dict_get diff (lit "production_value")) as [prod_val|]; [|split; reflexivity].
  split; [intro H; now apply append_diff_returns in H | discriminate].
Qed.

(** The output file is refused: it has no directory part, so that
    [os.makedirs] is called with the empty name, or the file system does
    not let the directory be made or the file be opened. *)
Abbreviation refused :=
  (dirname output_file = []
   \/ makedirs_returns fs (dirname output_file) = false
   \/ open_returns fs output_file = false).

Lemma output_refused :
  (made <- makedirs fs (dirname output_file) ;; open_file fs output_file) = None <-> refused.
Proof.
  unfold makedirs, open_file, bind.
  destruct (dirname output_file) as [|c directory]; [split; auto|].
  destruct (makedirs_returns fs (c :: directory)); [|split; auto].
  destruct (open_returns fs output_file); [|split; auto].
  split; [discriminate | intros [H | [H | H]]; discriminate H].
Qed.

Lemma write_report_None diffs :
  write_report fs html_fields staging_data output_file key_field diffs = None <->
  (exists diff, In diff diffs /\ readable key_field diff = false)
  \/ (diffs <> [] /\ refused).
Proof.
  unfold write_report. destruct diffs as [|d ds] eqn:Ed.
  - split; [discriminate | intros [(diff & [] & _) | [H _]]; congruence].
  - rewrite <- Ed.
    assert (NE : diffs <> []) by (rewrite Ed; discriminate). clear Ed.
    rewrite <- (for_each_None_at (group_diff html_fields key_field)
                  (fun diff => readable key_field diff = false) group_diff_None diffs []).
    destruct (for_each (group_diff html_fields key_field) diffs []) as [grouped|];
      cbn [bind]; [|split; auto].
    rewrite <- output_refused. unfold bind.
    destruct (makedirs fs (dirname output_file)); [|split; auto].
    destruct (open_file fs output_file); [|split; auto].
    split; [discriminate | intros [H | [_ H]]; discriminate H].
Qed.

(** X11.  [write_report] raises exactly in these cases: one of the entries
    lacks a slot that is read from it ([KeyError] at lines 185, 188 or
    193-195: the key, the kind, or, for a kind other than
    [missing_in_production] and [extra_in_production], the field or one of
    the two values); or the sequence is not empty and the output file has
    no directory part ([os.makedirs] of line 205 raises for the empty name),
    or the file system does not let the directory be made (line 205) or the
    file be opened (line 206). *)
Theorem write_report_raises diffs :
  write_report fs html_fields staging_data output_file key_field diffs = None <->
  (exists diff, In diff diffs /\ readable key_field diff = false)
  \/ (diffs <> []
      /\ (dirname output_file = []
          \/ makedirs_returns fs (dirname output_file) = false
          \/ open_returns fs output_file = false)).
Proof. apply write_report_None. Qed.

Lemma complete_readable diff : complete key_field diff -> readable key_field diff = true.
Proof.
  intro C. unfold readable.
  assert (M : forall name, In name (key_field :: reserved_keys) -> dict_mem name diff = true)
    by exact C.
  rewrite (M key_field) by (now left). cbn [andb].
  pose proof (M (lit "type")) as T. unfold dict_mem in T.
  destruct (dict_get diff (lit "type")) as [type|];
    [|discriminate T; right; now left].
  rewrite (M (lit "field")), (M (lit "staging_value")), (M (lit "production_value"))
    by (unfold reserved_keys; simpl; tauto).
  apply orb_true_r.
Qed.

End ReportMore.

(** X12.  On a sequence that [compare_catalogs] returned, [write_report]
    raises for the sake of the output file only, never for a slot an entry
    lacks: it raises exactly when the sequence is not empty and the output
    file has no directory part or the file system does not let the
    directory be made or the file be opened. *)
Theorem write_report_of_comparison (html_unescape : str -> str) (fs : file_system)
    (ignore_fields : list str) (special_field attr_separator : str)
    (exclude_additional_attributes html_fields : list str) (key_field output_file : str)
    (staging production : catalog) (ds : list (dict str)) :
  compare_catalogs html_unescape ignore_fields special_field attr_separator
    exclude_additional_attributes key_field staging production = Some ds ->
  write_report fs html_fields staging output_file key_field ds = None <->
  ds <> []
  /\ (dirname output_file = []
      \/ makedirs_returns fs (dirname output_file) = false
      \/ open_returns fs output_file = false).
Proof.
  intro E. apply compare_catalogs_complete in E. rewrite write_report_None.
  split; [|now right]. intros [(diff & I & R) | H]; [|exact H].
  rewrite Forall_forall in E. apply E, complete_readable in I. congruence.
Qed.

(** ** The catalogs load_csv builds *)

Lemma map_fst_combine A B (a : list A) (b : list B) :
  map fst (combine a b) = firstn (length b) a.
Proof.
  revert b; induction a as [|x a IH]; intros [|y b]; simpl; try reflexivity.
  now rewrite IH.
Qed.

Lemma assign_all_app V (d : dict V) items items' :
  assign_all (assign_all d items) items' = assign_all d (items ++ items').
Proof. unfold assign_all. now rewrite fold_left_app. Qed.

Lemma fold_set_None (keys : list str) (d : dict (option str)) :
  fold_left (fun d key => dict_set d key None) keys d =
  assign_all d (map (fun key => (key, None)) keys).
Proof.
  revert d; induction keys as [|k keys IH]; intro d; simpl; [reflexivity|]. apply IH.
Qed.

(** The record [DictReader] builds has the names of the header as its
    columns, each once, in the order of their first occurrences. *)
Lemma dict_row_keys fieldnames row :
  dict_keys (r_fields (Csv.dict_row fieldnames row)) = first_occurrences fieldnames.
Proof.
  unfold Csv.dict_row, dict_literal.
  destruct (Nat.ltb (length fieldnames) (length row)) eqn:L; simpl.
  - rewrite assign_all_keys by constructor. simpl.
    rewrite filter_all by reflexivity.
    rewrite map_fst_combine, length_map, firstn_all2; [reflexivity|].
    apply Nat.ltb_lt in L. lia.
  - rewrite fold_set_None, assign_all_app, assign_all_keys by constructor. simpl.
    rewrite filter_all by reflexivity.
    rewrite map_app, map_fst_combine, length_map, map_map. simpl. rewrite map_id.
    now rewrite firstn_skipn.
Qed.

Lemma restored_keys special_field row :
  dict_keys (r_fields (restored special_field row)) = dict_keys (r_fields row).
Proof.
  unfold restored, record_get.
  destruct (dict_get (r_fields row) special_field) as [[[|c v]|]|] eqn:G; try reflexivity.
  simpl. rewrite dict_keys_set. unfold dict_mem. now rewrite G.
Qed.

Lemma restored_key_column special_field key_field row c v :
  record_get row key_field = Some (c :: v) ->
  exists v', record_get (restored special_field row) key_field = Some v' /\ v' <> [].
Proof.
  intro K. unfold restored.
  destruct (record_get row special_field) as [[|c' w]|] eqn:Sp;
    try (exists (c :: v); split; [assumption | discriminate]).
  unfold record_get. simpl. str_cases special_field key_field.
  - subst. rewrite dict_get_set_same. exists (restore (c' :: w)).
    split; [reflexivity | apply restore_nonempty; discriminate].
  - rewrite dict_get_set_other by assumption. exists (c :: v).
    split; [exact K | discriminate].
Qed.

(** One turn of the loop: the row's item, when it has one, is assigned. *)
Lemma load_row_stored special_field key_field data row :
  load_row special_field key_field data row =
  Some (assign_all data (stored_item special_field key_field row)).
Proof.
  unfold load_row, stored_item.
  destruct (record_get row key_field) as [[|c v]|] eqn:K; try reflexivity.
  destruct (@restored_key_column special_field _ _ _ _ K) as (v' & K' & _).
  fold (restored special_field row). now rewrite K'.
Qed.

Lemma load_rows_stored special_field key_field rows data :
  for_each (load_row special_field key_field) rows data =
  Some (assign_all data (flat_map (stored_item special_field key_field) rows)).
Proof.
  revert data; induction rows as [|row rows IH]; intro data; simpl; [reflexivity|].
  rewrite load_row_stored. cbn [bind]. now rewrite IH, assign_all_app.
Qed.

Lemma assign_all_In V (items : list (str * V)) (d : dict V) k v :
  In (k, v) (assign_all d items) -> In (k, v) d \/ In (k, v) items.
Proof.
  revert d; induction items as [|[k0 v0] items IH]; intro d; simpl; [now left|].
  intro I. apply IH in I as [I|I]; [|right; now right].
  apply dict_set_In in I as [[-> ->]|I]; [right; now left | now left].
Qed.

(** What [load_csv] returns is the result of assigning, row by row, the
    items of the records the reader built under one list of field names. *)
Lemma load_csv_items content delimiter special_field key_field data :
  load_csv content delimiter special_field key_field = Some data ->
  exists fieldnames rows,
    data = assign_all [] (flat_map (stored_item special_field key_field)
                            (map (Csv.dict_row fieldnames) rows)).
Proof.
  unfold load_csv. destruct (splitlines content) as [|header rest].
  - intros [= <-]. now exists [], [].
  - destruct (split [delimiter] header); [|discriminate]. cbn [bind].
    unfold Csv.DictReader.
    destruct (Csv.reader_list _ delimiter) as [[|fieldnames rows]|]; [| |discriminate];
      cbn [bind].
    + intros [= <-]. now exists [], [].
    + rewrite load_rows_stored. intros [= <-]. eauto.
Qed.

Lemma stored_item_In special_field key_field row key record :
  In (key, record) (stored_item special_field key_field row) ->
  record = restored special_field row /\
  exists v, record_get record key_field = Some v /\ v <> [].
Proof.
  unfold stored_item.
  destruct (record_get row key_field) as [[|c v]|] eqn:K; try (now intros []).
  intros [[= <- <-]|[]]. split; [reflexivity|].
  apply (@restored_key_column special_field _ _ _ _ K).
Qed.

Lemma load_csv_data_model content delimiter special_field key_field data :
  load_csv content delimiter special_field key_field = Some data -> catalog_ok data.
Proof.
  intro L. apply load_csv_items in L as (fieldnames & rows & ->). split.
  - apply assign_all_NoDup. constructor.
  - intros key record I. apply assign_all_In in I as [[]|I].
    apply in_flat_map in I as (row & Ir & I). apply in_map_iff in Ir as (r & <- & _).
    apply stored_item_In in I as (-> & v & G & _). split.
    + unfold dict_ok. rewrite restored_keys, dict_row_keys. apply first_occurrences_NoDup.
    + unfold record_get in G. unfold record_truthy.
      destruct (r_fields (restored special_field (Csv.dict_row fieldnames r)));
        [discriminate G | reflexivity].
Qed.

(** X13.  Whatever the text, the catalog [load_csv] returns is one of the data
    model: no key twice, in the catalog or in a record, and no record is
    the empty dict. *)
Theorem load_csv_catalog_ok content delimiter special_field key_field data :
  load_csv content delimiter special_field key_field = Some data -> catalog_ok data.
Proof. apply load_csv_data_model. Qed.

(** X14.  All the records of a catalog [load_csv] returns have the same columns,
    in the same order. *)
Theorem load_csv_same_columns content delimiter special_field key_field data :
  load_csv content delimiter special_field key_field = Some data ->
  forall key record key' record',
    In (key, record) data -> In (key', record') data ->
    dict_keys (r_fields record) = dict_keys (r_fields record').
Proof.
  intro L. apply load_csv_items in L as (fieldnames & rows & ->).
  assert (K : forall key record,
             In (key, record)
                (assign_all [] (flat_map (stored_item special_field key_field)
                                  (map (Csv.dict_row fieldnames) rows))) ->
             dict_keys (r_fields record) = first_occurrences fieldnames).
  { intros key record I. apply assign_all_In in I as [[]|I].
    apply in_flat_map in I as (row & Ir & I). apply in_map_iff in Ir as (r & <- & _).
    apply stored_item_In in I as (-> & _). now rewrite restored_keys, dict_row_keys. }
  intros key record key' record' I I'. now rewrite (K _ _ I), (K _ _ I').
Qed.

Lemma flat_map_split_one A B (f : A -> list B) (l : list A) earlier x later :
  (forall a, length (f a) <= 1) ->
  flat_map f l = earlier ++ x :: later ->
  exists lb a la,
    l = lb ++ a :: la /\ f a = [x] /\ earlier = flat_map f lb /\ later = flat_map f la.
Proof.
  intro One. revert earlier; induction l as [|a l IH]; intro earlier; simpl.
  - destruct earlier; discriminate.
  - specialize (One a) as Oa. destruct (f a) as [|y [|z t]] eqn:Fa; simpl in *; [| |lia].
    + intro E. destruct (IH _ E) as (lb & a' & la & -> & F' & -> & ->).
      exists (a :: lb), a', la. simpl. rewrite Fa. auto.
    + destruct earlier as [|b earlier]; simpl.
      * intros [= -> <-]. exists [], a, l. auto.
      * intros [= <- E]. destruct (IH _ E) as (lb & a' & la & -> & F' & -> & ->).
        exists (a :: lb), a', la. simpl. rewrite Fa. auto.
Qed.

(** X15.  The loop over the rows never raises, and of the rows that have the same
    key the catalog keeps the last: under a key it holds a record exactly
    when a row gives that key and that record and no later row gives the
    key; the keys stand in the order in which the rows first give them. *)
Theorem load_rows_last_wins special_field key_field rows :
  exists data,
    for_each (load_row special_field key_field) rows [] = Some data /\
    dict_keys data =
      first_occurrences (map fst (flat_map (stored_item special_field key_field) rows)) /\
    forall key record,
      dict_get data key = Some record <->
      exists earlier row later,
        rows = earlier ++ row :: later /\
        stored_item special_field key_field row = [(key, record)] /\
        forall row' record', In row' later ->
          stored_item special_field key_field row' <> [(key, record')].
Proof.
  eexists. split; [apply load_rows_stored|]. split.
  - rewrite assign_all_keys by constructor. simpl. now rewrite filter_all.
  - intros key record. rewrite dict_get_assign_all. simpl.
    assert (One : forall row, length (stored_item special_field key_field row) <= 1).
    { intro row. unfold stored_item.
      destruct (record_get row key_field) as [[|c v]|]; simpl; lia. }
    split.
    + intro G.
      destruct (dict_get (rev (flat_map (stored_item special_field key_field) rows)) key)
        as [r|] eqn:Gr; [|discriminate]. injection G as ->.
      apply dict_get_rev in Gr as (earlier & later & E & N).
      apply flat_map_split_one in E as (lb & row & la & -> & F & -> & ->); [|assumption].
      exists lb, row, la. split; [reflexivity|]. split; [assumption|].
      intros row' record' I S. apply N. apply in_map_iff. exists (key, record').
      split; [reflexivity|]. apply in_flat_map. exists row'. split; [assumption|].
      rewrite S. now left.
    + intros (earlier & row & later & -> & F & N).
      assert (Gr : dict_get (rev (flat_map (stored_item special_field key_field)
                                    (earlier ++ row :: later))) key = Some record).
      { apply dict_get_rev.
        exists (flat_map (stored_item special_field key_field) earlier),
               (flat_map (stored_item special_field key_field) later).
        split; [rewrite flat_map_app; simpl; now rewrite F|].
        intro I. apply in_map_iff in I as ([k r] & E & I). simpl in E. subst k.
        apply in_flat_map in I as (row' & Ir & I).
        apply (N row' r Ir). specialize (One row').
        destruct (stored_item special_field key_field row') as [|y [|z t]];
          simpl in *; [destruct I | | lia].
        destruct I as [->|[]]. reflexivity. }
      now rewrite Gr.
Qed.

(** ** The lines load_csv hands to the reader *)

Lemma join_snoc sep ps p :
  ps <> [] -> join sep (ps ++ [p]) = join sep ps ++ sep ++ p.
Proof.
  induction ps as [|q ps IH]; intro N; [congruence|].
  destruct ps as [|q' ps]; [reflexivity|].
  change ((q :: q' :: ps) ++ [p]) with (q :: ((q' :: ps) ++ [p])).
  rewrite join_cons by (destruct ps; discriminate).
  rewrite IH by discriminate. rewrite (@join_cons sep q (q' :: ps)) by discriminate.
  now rewrite <- !app_assoc.
Qed.

Lemma join_snoc_more sep ps p x :
  join sep (ps ++ [p ++ x]) = join sep (ps ++ [p]) ++ x.
Proof.
  destruct ps as [|q ps]; [reflexivity|].
  rewrite !join_snoc by discriminate. now rewrite <- !app_assoc.
Qed.

(** The scan keeps every character: the parts, joined by the delimiter,
    are the text read so far. *)
Lemma scan_char_join delimiter s ch :
  join [delimiter] (parts (scan_char delimiter s ch) ++ [current (scan_char delimiter s ch)])
  = join [delimiter] (parts s ++ [current s]) ++ [ch].
Proof.
  unfold scan_char.
  destruct (N.eqb ch QUOTE2 || N.eqb ch QUOTE1).
  - destruct (negb (in_quotes s)); [simpl; apply join_snoc_more|].
    destruct (match quote_char s with Some q => N.eqb q ch | None => false end);
      simpl; apply join_snoc_more.
  - destruct (N.eqb ch delimiter) eqn:D; simpl; [|apply join_snoc_more].
    destruct (negb (in_quotes s)); simpl; [|apply join_snoc_more].
    apply N.eqb_eq in D. subst ch.
    rewrite join_snoc by (destruct (parts s); discriminate). reflexivity.
Qed.

Lemma scan_join delimiter line s :
  let s' := fold_left (scan_char delimiter) line s in
  join [delimiter] (parts s' ++ [current s']) =
  join [delimiter] (parts s ++ [current s]) ++ line.
Proof.
  revert s; induction line as [|ch line IH]; intro s; simpl.
  - now rewrite app_nil_r.
  - simpl in IH. rewrite IH, scan_char_join. now rewrite <- app_assoc.
Qed.

Lemma replace_special_fields_negative delimiter special_idx line :
  (special_idx < 0)%Z -> replace_special_fields delimiter special_idx line = line.
Proof.
  intro N. unfold replace_special_fields.
  replace (0 <=? special_idx)%Z with false by (symmetry; apply Z.leb_gt; lia).
  cbn [andb]. apply (scan_join delimiter line (mk_scan [] [] false None)).
Qed.

Lemma scan_char_parts delimiter s ch :
  length (parts (scan_char delimiter s ch)) <=
  length (parts s) + length (filter (N.eqb delimiter) [ch]).
Proof.
  unfold scan_char. cbn [filter]. rewrite (N.eqb_sym delimiter ch).
  destruct (N.eqb ch QUOTE2 || N.eqb ch QUOTE1).
  - destruct (negb (in_quotes s)); [cbn [parts]; lia|].
    destruct (match quote_char s with Some q => N.eqb q ch | None => false end);
      cbn [parts]; lia.
  - destruct (N.eqb ch delimiter); cbn [andb]; [|cbn [parts length]; lia].
    destruct (negb (in_quotes s)); cbn [parts length]; [rewrite length_app|];
      cbn [length]; lia.
Qed.

Lemma scan_parts delimiter line s :
  length (parts (fold_left (scan_char delimiter) line s)) <=
  length (parts s) + length (filter (N.eqb delimiter) line).
Proof.
  revert s; induction line as [|ch line IH]; intro s; cbn [fold_left]; [simpl; lia|].
  specialize (IH (scan_char delimiter s ch)).
  pose proof (scan_char_parts delimiter s ch) as Step.
  cbn [filter] in Step |- *. destruct (N.eqb delimiter ch); cbn [length] in Step |- *; lia.
Qed.

(** X16.  [replace_special_fields] returns the line as it is when the index
    stands for no part of it: the [-1] of a special column that is not in
    the header, or an index beyond the number of delimiters of the line. *)
Theorem replace_special_fields_unchanged delimiter special_idx line :
  (special_idx < 0 \/ Z.of_nat (length (filter (N.eqb delimiter) line)) < special_idx)%Z ->
  replace_special_fields delimiter special_idx line = line.
Proof.
  intros [N | N]; [now apply replace_special_fields_negative|].
  unfold replace_special_fields.
  pose proof (scan_parts delimiter line (mk_scan [] [] false None)) as B.
  cbn [parts length] in B.
  set (s := fold_left (scan_char delimiter) line (mk_scan [] [] false None)) in *.
  replace (special_idx <? Z.of_nat (length (parts s ++ [current s])))%Z with false.
  - rewrite andb_false_r. apply (scan_join delimiter line (mk_scan [] [] false None)).
  - symmetry. apply Z.ltb_ge. rewrite length_app. cbn [length]. lia.
Qed.

Lemma index_of_absent x l : ~ In x l -> index_of x l = (-1)%Z.
Proof.
  induction l as [|y l IH]; simpl; intro N; [reflexivity|].
  str_cases y x; [exfalso; apply N; now left|].
  rewrite IH by tauto. reflexivity.
Qed.

(** X17.  When no name of the header line, split at the delimiter, is the special
    column, [load_csv] reads the lines of the text as they are: it is the
    loop over the rows [DictReader] gives for them. *)
Theorem load_csv_without_special_column content delimiter special_field key_field
    header rest :
  splitlines content = header :: rest ->
  ~ In special_field (split_scan [delimiter] 0 header) ->
  load_csv content delimiter special_field key_field =
  (rows <- Csv.DictReader (header :: rest) delimiter ;;
   for_each (load_row special_field key_field) rows []).
Proof.
  intros S N. unfold load_csv. rewrite S. cbn [split bind].
  rewrite index_of_absent by assumption.
  rewrite (map_ext _ (fun line => line)), map_id; [reflexivity|].
  intro line. now apply replace_special_fields_negative.
Qed.

(** ** load_csv returns *)

Lemma cons_piece_Forall (Q : char -> Prop) c ps :
  Q c -> Forall (Forall Q) ps -> Forall (Forall Q) (cons_piece c ps).
Proof.
  intros Qc F. destruct ps as [|p ps]; simpl.
  - repeat constructor. assumption.
  - inversion F; subst. constructor; [now constructor | assumption].
Qed.

(** No line of [splitlines] holds a line boundary. *)
Lemma splitlines_lines s :
  Forall (Forall (fun c => islinebreak c = false)) (splitlines s).
Proof.
  assert (H : forall n s, length s <= n ->
                Forall (Forall (fun c => islinebreak c = false)) (splitlines s)).
  { clear s. induction n as [|n IH]; intros [|c s] L; simpl in L; try lia;
      try (constructor; fail).
    cbn [splitlines]. destruct (islinebreak c) eqn:B.
    - constructor; [constructor|].
      destruct (N.eqb c CR).
      + destruct s as [|c' s']; [constructor|].
        destruct (N.eqb c' LF); apply IH; simpl in *; lia.
      + apply IH. lia.
    - apply cons_piece_Forall; [assumption | apply IH; lia]. }
  now apply (H (length s)).
Qed.

Lemma islinebreak_crnl c : islinebreak c = false -> Csv.is_crnl c = false.
Proof.
  unfold Csv.is_crnl, LF, CR. intro B.
  destruct (N.eqb_spec c 10) as [->|_]; [discriminate B|].
  destruct (N.eqb_spec c 13) as [->|_]; [discriminate B | reflexivity].
Qed.

Lemma removelast_Forall A (Q : A -> Prop) l : Forall Q l -> Forall Q (removelast l).
Proof.
  induction 1 as [|x l Qx F IH]; simpl; [constructor|].
  destruct l; [constructor | now constructor].
Qed.

Lemma strip_quotes_Forall (Q : char -> Prop) v : Forall Q v -> Forall Q (strip_quotes v).
Proof.
  intro F. unfold strip_quotes, slice_1_m1.
  destruct (_ || _); [|assumption].
  apply removelast_Forall. destruct F; [constructor | assumption].
Qed.

Lemma replace_scan_Forall (Q : char -> Prop) old new s k :
  Forall Q new -> Forall Q s -> Forall Q (replace_scan old new k s).
Proof.
  intros Fn Fs. revert k; induction Fs as [|c s Qc Fs IH]; intro k; simpl; [constructor|].
  destruct k; [|apply IH].
  destruct (startswith old (c :: s)).
  - apply Forall_app. split; [assumption | apply IH].
  - constructor; [assumption | apply IH].
Qed.

Lemma replace_Forall (Q : char -> Prop) old new s :
  Forall Q new -> Forall Q s -> Forall Q (replace old new s).
Proof.
  intros Fn Fs. unfold replace. destruct old as [|x old].
  - apply Forall_app. split; [assumption|].
    apply Forall_flat_map. eapply Forall_impl; [|exact Fs].
    intros c Qc. now constructor.
  - now apply replace_scan_Forall.
Qed.

Lemma join_Forall (Q : char -> Prop) sep ps :
  Forall Q sep -> Forall (Forall Q) ps -> Forall Q (join sep ps).
Proof.
  intros Fsep F. induction F as [|p ps Fp F IH]; [constructor|].
  destruct ps as [|q ps]; [assumption|].
  rewrite join_cons by discriminate. rewrite !Forall_app. auto.
Qed.

Lemma list_set_Forall (Q : str -> Prop) l i v :
  Forall Q l -> Q v -> Forall Q (list_set l i v).
Proof.
  intros F Qv. revert i; induction F as [|x l Qx F IH]; intros [|i]; simpl;
    constructor; auto.
Qed.

Lemma scan_char_Forall (Q : char -> Prop) delimiter s ch :
  Q ch -> Forall (Forall Q) (parts s ++ [current s]) ->
  Forall (Forall Q) (parts (scan_char delimiter s ch) ++ [current (scan_char delimiter s ch)]).
Proof.
  intros Qc F. apply Forall_app in F as [Fp Fc]. inversion Fc as [|? ? Fcur _]; subst.
  assert (Grow : Forall (Forall Q) (parts s ++ [current s ++ [ch]])).
  { apply Forall_app. split; [assumption|]. constructor; [|constructor].
    apply Forall_app. split; [assumption | now constructor]. }
  unfold scan_char.
  destruct (N.eqb ch QUOTE2 || N.eqb ch QUOTE1).
  - destruct (negb (in_quotes s)); [exact Grow|].
    destruct (match quote_char s with Some q => N.eqb q ch | None => false end); exact Grow.
  - destruct (N.eqb ch delimiter && negb (in_quotes s)); [|exact Grow]. simpl.
    rewrite !Forall_app. repeat split; auto.
Qed.

Lemma scan_Forall (Q : char -> Prop) delimiter line s :
  Forall Q line -> Forall (Forall Q) (parts s ++ [current s]) ->
  let s' := fold_left (scan_char delimiter) line s in
  Forall (Forall Q) (parts s' ++ [current s']).
Proof.
  intro F. revert s; induction F as [|ch line Qc F IH]; intros s Fs; simpl; [assumption|].
  apply IH. now apply scan_char_Forall.
Qed.

(** The line [replace_special_fields] returns holds no line break when the
    line it is given and the delimiter hold none. *)
Lemma replace_special_fields_plain delimiter special_idx line :
  Csv.is_crnl delimiter = false ->
  Forall (fun c => Csv.is_crnl c = false) line ->
  Forall (fun c => Csv.is_crnl c = false)
         (replace_special_fields delimiter special_idx line).
Proof.
  intros D F. unfold replace_special_fields.
  pose proof (@scan_Forall _ delimiter line (mk_scan [] [] false None) F) as P.
  simpl in P. specialize (P ltac:(repeat constructor)).
  set (s := fold_left (scan_char delimiter) line (mk_scan [] [] false None)) in *.
  apply join_Forall; [now repeat constructor|].
  destruct (_ && _); [|assumption].
  apply list_set_Forall; [assumption|].
  unfold protect. repeat apply replace_Forall; try (repeat constructor; fail).
  apply strip_quotes_Forall.
  destruct (nth_in_or_default (Z.to_nat special_idx) (parts s ++ [current s]) [])
    as [I | ->]; [|constructor].
  rewrite Forall_forall in P. now apply P.
Qed.

(** The reader raises only at a character that follows a line break, and
    without a line break it does not come there. *)
Lemma parse_process_char_plain delimiter r c :
  Csv.state r <> Csv.EAT_CRNL ->
  match c with Some ch => Csv.is_crnl ch = false | None => True end ->
  exists r', Csv.parse_process_char delimiter r c = Some r'
             /\ Csv.state r' <> Csv.EAT_CRNL.
Proof.
  intros S C. unfold Csv.parse_process_char, Csv.start_field.
  destruct (Csv.state r) eqn:St; try congruence; destruct c as [ch|]; try rewrite C;
    repeat match goal with
           | |- context [if ?b then _ else _] => destruct b
           end;
    eexists; (split; [reflexivity|]); simpl; try rewrite St; discriminate.
Qed.

Lemma process_chars_plain delimiter line r :
  Forall (fun c => Csv.is_crnl c = false) line ->
  Csv.state r <> Csv.EAT_CRNL ->
  exists r',
    for_each (fun r ch => Csv.parse_process_char delimiter r (Some ch)) line r = Some r'
    /\ Csv.state r' <> Csv.EAT_CRNL.
Proof.
  intro F. revert r; induction F as [|ch line C F IH]; intros r S; simpl; [eauto|].
  destruct (@parse_process_char_plain delimiter r (Some ch) S C) as (r1 & -> & S1).
  cbn [bind]. now apply IH.
Qed.

Lemma reader_rows_plain delimiter lines r :
  Forall (Forall (fun c => Csv.is_crnl c = false)) lines ->
  Csv.state r <> Csv.EAT_CRNL ->
  exists rows, Csv.reader_rows delimiter r lines = Some rows.
Proof.
  intro F. revert r; induction F as [|line lines Fl F IH]; intros r S; simpl.
  - destruct (_ || _); eauto.
  - unfold Csv.process_line.
    destruct (@process_chars_plain delimiter line r Fl S) as (r1 & -> & S1). cbn [bind].
    destruct (@parse_process_char_plain delimiter r1 None S1 I) as (r2 & -> & S2).
    cbn [bind]. destruct (Csv.state_eqb (Csv.state r2) Csv.START_RECORD).
    + destruct (IH Csv.parse_reset ltac:(discriminate)) as (rows & ->). cbn [bind]. eauto.
    + now apply IH.
Qed.

(** X18.  [load_csv] returns a catalog for every text, every special column and
    every key column, when the delimiter is a character the reader takes
    for one (no line break, and not its quote character): no line that is
    handed to the reader holds a line break, the one thing at which the
    reader raises, and the loop over the rows does not raise.  The reader's
    limit on the length of a field is not part of the model. *)
Theorem load_csv_returns content delimiter special_field key_field :
  delimiter <> LF -> delimiter <> CR -> delimiter <> QUOTE2 ->
  exists data, load_csv content delimiter special_field key_field = Some data.
Proof.
  intros NL NC _.
  assert (D : Csv.is_crnl delimiter = false).
  { unfold Csv.is_crnl. apply orb_false_iff. split; now apply N.eqb_neq. }
  unfold load_csv. pose proof (splitlines_lines content) as F.
  destruct (splitlines content) as [|header rest]; [eauto|].
  cbn [split bind]. unfold Csv.DictReader, Csv.reader_list.
  assert (Plain : Forall (Forall (fun c => Csv.is_crnl c = false)) (header :: rest)).
  { eapply Forall_impl; [|exact F]. intros line Fl.
    eapply Forall_impl; [|exact Fl]. apply islinebreak_crnl. }
  inversion Plain as [|? ? Ph Pr]; subst.
  destruct (@reader_rows_plain delimiter
              (header :: map (replace_special_fields delimiter
                                (index_of special_field (split_scan [delimiter] 0 header)))
                           rest)
              Csv.parse_reset) as (rows & ->).
  - constructor; [assumption|]. apply Forall_map.
    eapply Forall_impl; [|exact Pr]. intros line Fl.
    now apply replace_special_fields_plain.
  - discriminate.
  - cbn [bind]. destruct rows as [|fieldnames rows]; cbn [bind]; [now exists []|].
    rewrite load_rows_stored. eauto.
Qed.

(** X19.  A text of one line, the header, gives the empty catalog, and so does
    the empty text. *)
Theorem load_csv_header_only content delimiter special_field key_field :
  delimiter <> LF -> delimiter <> CR -> delimiter <> QUOTE2 ->
  length (splitlines content) <= 1 ->
  load_csv content delimiter special_field key_field = Some [].
Proof.
  intros _ _ _ L. unfold load_csv. pose proof (splitlines_lines content) as F.
  destruct (splitlines content) as [|header [|line rest]]; [reflexivity | | simpl in L; lia].
  cbn [split bind map]. unfold Csv.DictReader, Csv.reader_list.
  inversion F as [|? ? Fh _]; subst.
  cbn [Csv.reader_rows]. unfold Csv.process_line.
  destruct (@process_chars_plain delimiter header Csv.parse_reset) as (r1 & -> & S1);
    [eapply Forall_impl; [|exact Fh]; apply islinebreak_crnl | discriminate |].
  cbn [bind].
  destruct (@parse_process_char_plain delimiter r1 None S1 I) as (r2 & -> & S2).
  cbn [bind].
  destruct (Csv.state_eqb (Csv.state r2) Csv.START_RECORD); [reflexivity|].
  now destruct (_ || _).
Qed.

(** X20.  Every key of a catalog [load_csv] returns is the trimmed value that the
    record stored under it holds in the key column, and that value is not
    empty. *)
Theorem load_csv_keys content delimiter special_field key_field data :
  load_csv content delimiter special_field key_field = Some data ->
  forall key record, In (key, record) data ->
    exists value,
      record_get record key_field = Some value /\ value <> [] /\ key = strip value.
Proof. apply load_csv_keys_trimmed. Qed.

(** ** protect and restore *)

Lemma two_step_ind (P : str -> Prop) :
  P [] -> (forall c, P [c]) -> (forall c c' s, P s -> P (c' :: s) -> P (c :: c' :: s)) ->
  forall v, P v.
Proof.
  intros P0 P1 P2 v.
  assert (H : P v /\ forall c, P (c :: v)).
  { induction v as [|c' v [IH1 IH2]]; split; auto. }
  apply H.
Qed.

Lemma replace_scan_other old new c rest :
  startswith old (c :: rest) = false ->
  replace_scan old new 0 (c :: rest) = c :: replace_scan old new 0 rest.
Proof. intro H. cbn [replace_scan]. now rewrite H. Qed.

Lemma protect_chars v :
  replace [CR] PLACEHOLDER_NEWLINE
    (replace [LF] PLACEHOLDER_NEWLINE (replace [COMMA] PLACEHOLDER_COMMA v))
  = flat_map protect_char v.
Proof.
  rewrite !replace_char. induction v as [|c v IH]; [reflexivity|].
  cbn [flat_map]. rewrite !flat_map_app. f_equal; [|exact IH].
  unfold protect_char.
  destruct (N.eqb_spec COMMA c) as [<-|_]; [reflexivity|].
  cbn [flat_map]. rewrite app_nil_r.
  destruct (N.eqb_spec LF c) as [<-|_]; [reflexivity|].
  cbn [flat_map]. rewrite app_nil_r.
  now destruct (N.eqb CR c).
Qed.

Lemma protect_lex v : protect v = flat_map protected (lex v).
Proof.
  unfold protect. rewrite protect_chars.
  change (replace SECTION_MARK PLACEHOLDER_SECTION (flat_map protect_char v))
    with (replace_scan SECTION_MARK PLACEHOLDER_SECTION 0 (flat_map protect_char v)).
  induction v as [|c|c c' s IHs IHc] using two_step_ind.
  - reflexivity.
  - cbn [flat_map lex]. unfold protect_char.
    destruct (N.eqb COMMA c); [reflexivity|].
    destruct (N.eqb LF c); [reflexivity|].
    destruct (N.eqb CR c); [reflexivity|].
    cbn. now rewrite andb_false_r.
  - change (flat_map protect_char (c :: c' :: s))
      with (protect_char c ++ flat_map protect_char (c' :: s)).
    change (lex (c :: c' :: s))
      with (if N.eqb COMMA c then Comma :: lex (c' :: s)
            else if N.eqb LF c then Newline :: lex (c' :: s)
            else if N.eqb CR c then Newline :: lex (c' :: s)
            else if N.eqb 194 c && N.eqb 167 c' then Section_mark :: lex s
                 else Plain c :: lex (c' :: s)).
    unfold protect_char at 1.
    destruct (N.eqb COMMA c);
      [cbn [flat_map protected]; rewrite <- IHc; reflexivity|].
    destruct (N.eqb LF c);
      [cbn [flat_map protected]; rewrite <- IHc; reflexivity|].
    destruct (N.eqb CR c);
      [cbn [flat_map protected]; rewrite <- IHc; reflexivity|].
    destruct (N.eqb_spec 194 c) as [<-|N194].
    + destruct (N.eqb_spec 167 c') as [<-|N167].
      * cbn [andb flat_map protected]. rewrite <- IHs. reflexivity.
      * cbn [andb flat_map protected app]. rewrite <- IHc.
        apply replace_scan_other.
        cbn [flat_map]. unfold protect_char.
        destruct (N.eqb COMMA c'); [reflexivity|].
        destruct (N.eqb LF c'); [reflexivity|].
        destruct (N.eqb CR c'); [reflexivity|].
        unfold SECTION_MARK. cbn [startswith app].
        apply N.eqb_neq in N167. now rewrite N167, andb_false_r.
    + cbn [andb flat_map protected app]. rewrite <- IHc.
      apply replace_scan_other. unfold SECTION_MARK. cbn [startswith].
      apply N.eqb_neq in N194. now rewrite N194.
Qed.

Lemma plain_other old new c rest :
  c <> LESS_THAN -> startswith [LESS_THAN] old = true ->
  replace_scan old new 0 (c :: rest) = c :: replace_scan old new 0 rest.
Proof.
  intros N H. apply replace_scan_other. destruct old as [|x old]; [discriminate H|].
  cbn [startswith] in H. rewrite andb_true_r in H. apply N.eqb_eq in H. subst x.
  cbn [startswith]. apply not_eq_sym, N.eqb_neq in N. now rewrite N.
Qed.

(** One pass of [restore] over a protected value: the placeholder of one
    kind of token is replaced, and nothing else is touched. *)
Lemma restore_pass (old new : str) (shown restored_form : token -> str) (tokens : list token) :
  startswith [LESS_THAN] old = true ->
  Forall (fun t => match t with Plain c => c <> LESS_THAN | _ => True end) tokens ->
  (forall c, shown (Plain c) = [c] /\ restored_form (Plain c) = [c]) ->
  (forall t rest, match t with
                  | Plain _ => True
                  | _ => replace_scan old new 0 (shown t ++ rest)
                         = restored_form t ++ replace_scan old new 0 rest
                  end) ->
  replace_scan old new 0 (flat_map shown tokens) = flat_map restored_form tokens.
Proof.
  intros L F P Step. induction F as [|t tokens Ft F IH]; [reflexivity|].
  cbn [flat_map]. destruct t as [c| | |].
  - destruct (P c) as [-> ->]. cbn [app]. rewrite plain_other by assumption. now rewrite IH.
  - rewrite (Step Comma). now rewrite IH.
  - rewrite (Step Newline). now rewrite IH.
  - rewrite (Step Section_mark). now rewrite IH.
Qed.

Lemma restore_tokens tokens :
  Forall (fun t => match t with Plain c => c <> LESS_THAN | _ => True end) tokens ->
  restore (flat_map protected tokens) = flat_map original tokens.
Proof.
  intro F. unfold restore.
  set (commas := fun t => match t with Comma => [COMMA] | _ => protected t end).
  set (breaks := fun t => match t with Newline => [LF] | _ => commas t end).
  change (replace PLACEHOLDER_COMMA [COMMA] (flat_map protected tokens))
    with (replace_scan PLACEHOLDER_COMMA [COMMA] 0 (flat_map protected tokens)).
  rewrite (@restore_pass PLACEHOLDER_COMMA [COMMA] protected commas tokens eq_refl F);
    [|now split | intros [c| | |] rest; reflexivity].
  change (replace PLACEHOLDER_NEWLINE [LF] (flat_map commas tokens))
    with (replace_scan PLACEHOLDER_NEWLINE [LF] 0 (flat_map commas tokens)).
  rewrite (@restore_pass PLACEHOLDER_NEWLINE [LF] commas breaks tokens eq_refl F);
    [|now split | intros [c| | |] rest; reflexivity].
  change (replace PLACEHOLDER_SECTION SECTION_MARK (flat_map breaks tokens))
    with (replace_scan PLACEHOLDER_SECTION SECTION_MARK 0 (flat_map breaks tokens)).
  apply (@restore_pass PLACEHOLDER_SECTION SECTION_MARK breaks original tokens eq_refl F);
    [now split | intros [c| | |] rest; reflexivity].
Qed.

Lemma lex_plain (Q : char -> Prop) (v : str) :
  Forall Q v -> Forall (fun t => match t with Plain c => Q c | _ => True end) (lex v).
Proof.
  induction v as [|c|c c' s IHs IHc] using two_step_ind; intro F.
  - constructor.
  - inversion F; subst. cbn [lex].
    repeat match goal with |- context [if ?b then _ else _] => destruct b end;
      repeat constructor; assumption.
  - inversion F as [|? ? Qc F']; subst. inversion F'; subst.
    change (lex (c :: c' :: s))
      with (if N.eqb COMMA c then Comma :: lex (c' :: s)
            else if N.eqb LF c then Newline :: lex (c' :: s)
            else if N.eqb CR c then Newline :: lex (c' :: s)
            else if N.eqb 194 c && N.eqb 167 c' then Section_mark :: lex s
                 else Plain c :: lex (c' :: s)).
    repeat match goal with |- context [if ?b then _ else _] => destruct b end;
      constructor; auto.
Qed.

Lemma lex_original v :
  flat_map original (lex v) = map (fun c => if N.eqb CR c then LF else c) v.
Proof.
  induction v as [|c|c c' s IHs IHc] using two_step_ind.
  - reflexivity.
  - cbn [lex map].
    destruct (N.eqb_spec COMMA c) as [<-|_]; [reflexivity|].
    destruct (N.eqb_spec LF c) as [<-|_]; [reflexivity|].
    now destruct (N.eqb CR c).
  - change (lex (c :: c' :: s))
      with (if N.eqb COMMA c then Comma :: lex (c' :: s)
            else if N.eqb LF c then Newline :: lex (c' :: s)
            else if N.eqb CR c then Newline :: lex (c' :: s)
            else if N.eqb 194 c && N.eqb 167 c' then Section_mark :: lex s
                 else Plain c :: lex (c' :: s)).
    change (map (fun c => if N.eqb CR c then LF else c) (c :: c' :: s))
      with ((if N.eqb CR c then LF else c)
            :: map (fun c => if N.eqb CR c then LF else c) (c' :: s)).
    destruct (N.eqb_spec COMMA c) as [<-|_];
      [cbn [flat_map original app]; now rewrite IHc|].
    destruct (N.eqb_spec LF c) as [<-|_];
      [cbn [flat_map original app]; now rewrite IHc|].
    destruct (N.eqb CR c); [cbn [flat_map original app]; now rewrite IHc|].
    destruct (N.eqb_spec 194 c) as [<-|_].
    + destruct (N.eqb_spec 167 c') as [<-|_].
      * cbn [andb flat_map original]. now rewrite IHs.
      * cbn [andb flat_map original app]. now rewrite IHc.
    + cbn [andb flat_map original app]. now rewrite IHc.
Qed.

(** X21.  What was protected comes back: [restore] undoes [protect] on a value
    without [<], but for the carriage returns, which come back as line
    feeds.  A value that holds a placeholder in so many characters does
    not come back: its placeholder is taken for a protected character. *)
Theorem restore_protect v :
  ~ In LESS_THAN v ->
  restore (protect v) = map (fun c => if N.eqb CR c then LF else c) v.
Proof.
  intro N. rewrite protect_lex, restore_tokens; [apply lex_original|].
  apply lex_plain. apply Forall_forall. intros c I ->. contradiction.
Qed.

Lemma replace_char_gone (x : char) new s :
  ~ In x new -> ~ In x (replace [x] new s).
Proof.
  intros N I. rewrite replace_char in I. apply in_flat_map in I as (c & _ & I).
  destruct (N.eqb_spec x c) as [E|Ne]; [contradiction|].
  destruct I as [E|[]]. congruence.
Qed.

Lemma replace_absent (x : char) old new s :
  ~ In x new -> ~ In x s -> ~ In x (replace old new s).
Proof.
  intros Nn Ns I.
  assert (F : Forall (fun c => c <> x) (replace old new s)).
  { apply replace_Forall; apply Forall_forall; intros c Ic ->; contradiction. }
  rewrite Forall_forall in F. now apply (F x).
Qed.

Lemma protect_separators v c :
  In c (protect v) -> c <> COMMA /\ c <> LF /\ c <> CR.
Proof.
  intro I. unfold protect in I.
  repeat split; intros ->; revert I.
  - do 3 (apply replace_absent; [cbv; intuition discriminate|]).
    apply replace_char_gone. cbv; intuition discriminate.
  - do 2 (apply replace_absent; [cbv; intuition discriminate|]).
    apply replace_char_gone. cbv; intuition discriminate.
  - apply replace_absent; [cbv; intuition discriminate|].
    apply replace_char_gone. cbv; intuition discriminate.
Qed.

(** X22.  A protected value holds no comma, no line feed and no carriage
    return. *)
Theorem protect_clean v c :
  In c (protect v) -> c <> COMMA /\ c <> LF /\ c <> CR.
Proof. apply protect_separators. Qed.

(** ** main *)

Section MainFacts.

Variable html_unescape : str -> str.
Variable read_file : str -> option str.
Variable fs : file_system.

Lemma load_csv_file_data_model filename delimiter special_field key_field data :
  load_csv_file read_file filename delimiter special_field key_field = Some data ->
  catalog_ok data.
Proof.
  unfold load_csv_file, bind. destruct filename as [name|]; [|discriminate].
  destruct (read_file name) as [content|]; [|discriminate].
  assert (Empty : match splitlines content with
                  | [] => Some []
                  | _ :: _ => None
                  end = Some data -> catalog_ok data).
  { destruct (splitlines content); [|discriminate]. intros [= <-].
    split; [constructor | intros sku row []]. }
  destruct delimiter as [|d [|d' delimiter]]; try exact Empty.
  apply load_csv_data_model.
Qed.

(** X23.  Two files with the same text: whenever [main] returns, it has reported
    that there are no differences and has written no report, whatever the
    configuration; and it returns when the text loads into a catalog
    without values beyond the header and the separator is not empty. *)
Theorem main_same_text cfg master_file comparison_file :
  cfg_master_file cfg = Some master_file ->
  cfg_comparison_file cfg = Some comparison_file ->
  read_file comparison_file = read_file master_file ->
  (forall events,
     main html_unescape read_file fs cfg = Some events -> events = [NoDifferencesNotice])
  /\ (forall data,
        load_csv_file read_file (Some master_file)
          (get_or (cfg_csv_delimiter cfg) (lit ","))
          (get_or (cfg_special_field cfg) (lit "additional_attributes"))
          (get_or (cfg_key_field cfg) (lit "sku")) = Some data ->
        comparable data ->
        get_or (cfg_attr_separator cfg) SECTION_MARK <> [] ->
        main html_unescape read_file fs cfg = Some [NoDifferencesNotice]).
Proof.
  intros M C R.
  assert (Same : forall delimiter special_field key_field,
             load_csv_file read_file (Some comparison_file) delimiter special_field key_field
             = load_csv_file read_file (Some master_file) delimiter special_field key_field).
  { intros. unfold load_csv_file. cbn [bind]. now rewrite R. }
  unfold main. rewrite M, C, Same. split.
  - intros events.
    destruct (load_csv_file read_file (Some master_file) _ _ _) as [data|] eqn:L;
      [|discriminate]. cbn [bind].
    destruct (compare_catalogs html_unescape _ _ _ _ _ data data) as [ds|] eqn:E;
      [|discriminate]. cbn [bind].
    apply compare_catalogs_expected in E.
    rewrite expected_diffs_same in E by (now apply load_csv_file_data_model in L).
    subst ds. now intros [= <-].
  - intros data L Cmp Sep. rewrite L. cbn [bind].
    destruct (@compare_catalogs_returns html_unescape
                (get_or (cfg_exclude_columns cfg) [])
                (get_or (cfg_special_field cfg) (lit "additional_attributes"))
                (get_or (cfg_attr_separator cfg) SECTION_MARK)
                (get_or (cfg_exclude_additional_attributes cfg) [])
                (get_or (cfg_key_field cfg) (lit "sku")) data data Sep Cmp) as [ds E].
    rewrite E. cbn [bind].
    apply compare_catalogs_expected in E.
    rewrite expected_diffs_same in E by (now apply load_csv_file_data_model in L).
    now subst ds.
Qed.

End MainFacts.

(** ** The order of the rows of the report *)

Lemma first_occurrences_NoDup_id l : NoDup l -> first_occurrences l = l.
Proof.
  induction 1 as [|x l NI ND IH]; simpl; [reflexivity|]. rewrite IH. f_equal.
  apply filter_all. intros y I. apply negb_true_iff, str_eqb_neq. congruence.
Qed.

Lemma first_occurrences_repeat k n rest :
  first_occurrences (repeat k n ++ rest) =
  match n with
  | O => first_occurrences rest
  | S _ => k :: filter (fun y => negb (str_eqb y k)) (first_occurrences rest)
  end.
Proof.
  destruct n as [|n]; [reflexivity|]. induction n as [|n IH]; [reflexivity|].
  change (repeat k (S (S n)) ++ rest) with (k :: (repeat k (S n) ++ rest)).
  cbn [first_occurrences]. rewrite IH. cbn [filter].
  rewrite str_eqb_refl. cbn [negb]. f_equal. clear IH.
  induction (first_occurrences rest) as [|y l IHl]; [reflexivity|].
  cbn [filter]. destruct (negb (str_eqb y k)) eqn:E; cbn [filter]; [|assumption].
  rewrite E. now f_equal.
Qed.

Lemma first_occurrences_blocks A (key : A -> str) (n : A -> nat) (l : list A)
    (others : list str) :
  NoDup (map key l) -> NoDup others -> (forall a, In a l -> ~ In (key a) others) ->
  first_occurrences (flat_map (fun a => repeat (key a) (n a)) l ++ others) =
  map key (filter (fun a => negb (Nat.eqb (n a) 0)) l) ++ others.
Proof.
  intros ND NT Dis. induction l as [|a l IH]; simpl.
  - now apply first_occurrences_NoDup_id.
  - inversion ND as [|? ? NI ND']; subst.
    rewrite <- app_assoc, first_occurrences_repeat.
    rewrite IH by (try assumption; intros; apply Dis; now right).
    destruct (n a) as [|m]; [reflexivity|]. simpl. f_equal.
    apply filter_all. intros y I. apply negb_true_iff, str_eqb_neq. intros ->.
    apply in_app_or in I as [I|I].
    + apply NI. apply in_map_iff in I as (b & E & I). apply filter_In in I as [I _].
      apply in_map_iff. now exists b.
    + apply (Dis a); [now left | assumption].
Qed.

Lemma existsb_filter A (test : A -> bool) (l : list A) :
  existsb test l = negb (Nat.eqb (length (filter test l)) 0).
Proof.
  induction l as [|a l IH]; simpl; [reflexivity|]. now destruct (test a).
Qed.

Lemma filter_map_fst A (test : str -> bool) (l : list (str * A)) :
  filter test (map fst l) = map fst (filter (fun item => test (fst item)) l).
Proof.
  induction l as [|a l IH]; simpl; [reflexivity|]. rewrite IH. now destruct (test (fst a)).
Qed.

Section ReportOrder.

Variable html_unescape : str -> str.
Variables (ignore_fields : list str) (special_field attr_separator : str)
          (exclude_additional_attributes : list str) (key_field : str).

Abbreviation entries_of_record :=
  (expected_record_entries html_unescape ignore_fields special_field attr_separator
     exclude_additional_attributes key_field).

Lemma entry_for_slot entry k :
  entry_for key_field k entry = true -> slot entry key_field = k.
Proof.
  unfold entry_for, slot. destruct (dict_get entry key_field); [|discriminate].
  apply str_eqb_eq.
Qed.

Lemma block_keys production (staging : catalog) :
  ~ In key_field reserved_keys ->
  map (fun diff => slot diff key_field) (flat_map (entries_of_record production) staging) =
  flat_map (fun item => repeat (fst item) (length (entries_of_record production item)))
    staging.
Proof.
  intro Fresh. induction staging as [|[sku row] st IH]; simpl; [reflexivity|].
  rewrite map_app, IH. f_equal.
  rewrite <- (map_const sku (entries_of_record production (sku, row))).
  apply map_ext_in. intros e I. apply entry_for_slot.
  rewrite (@block_key html_unescape ignore_fields special_field attr_separator
             exclude_additional_attributes key_field Fresh production sku row sku e I).
  apply str_eqb_refl.
Qed.

(** X24.  The keys of the entries, in the order in which they first occur: the
    keys of staging that have an entry, in the order of staging, then the
    keys only production has, in the order of production.  This is the
    order of the rows [write_report] writes.  The hypotheses: [key_field]
    is none of the four fixed slot names, and no catalog holds a key
    twice. *)
Theorem report_keys_order staging production ds :
  ~ In key_field reserved_keys -> dict_ok staging -> dict_ok production ->
  compare_catalogs html_unescape ignore_fields special_field attr_separator
    exclude_additional_attributes key_field staging production = Some ds ->
  first_occurrences (map (fun diff => slot diff key_field) ds) =
  filter (fun sku => existsb (entry_for key_field sku) ds) (dict_keys staging)
  ++ filter (fun sku => negb (dict_mem sku staging)) (dict_keys production).
Proof.
  intros Fresh NS NP E.
  rewrite (compare_catalogs_expected _ _ _ _ _ _ _ _ E). unfold expected_diffs.
  set (extras := filter (fun sku => negb (dict_mem sku staging)) (dict_keys production)).
  assert (Keys : map (fun diff => slot diff key_field)
                   (flat_map (entries_of_record production) staging
                    ++ map (fun sku => diff_entry key_field sku EXTRA [] [] []) extras)
                 = flat_map (fun item => repeat (fst item)
                                           (length (entries_of_record production item)))
                     staging ++ extras).
  { rewrite map_app. f_equal.
    - now apply block_keys.
    - rewrite map_map. rewrite <- (map_id extras) at 2. apply map_ext. intro sku.
      apply entry_for_slot.
      rewrite (@entry_for_diff_entry html_unescape special_field key_field Fresh).
      apply str_eqb_refl. }
  rewrite Keys. rewrite first_occurrences_blocks.
  - f_equal. unfold dict_keys. rewrite filter_map_fst. f_equal.
    apply filter_ext_in. intros [sku row] I. simpl.
    rewrite existsb_filter, filter_app. subst extras.
    rewrite (@filter_blocks html_unescape ignore_fields special_field attr_separator
               exclude_additional_attributes key_field Fresh production staging sku NS).
    rewrite (dict_get_In _ _ _ NS I).
    rewrite (@filter_extras html_unescape special_field key_field Fresh staging production
               sku NP).
    replace (dict_mem sku staging) with true.
    + rewrite andb_false_r, app_nil_r. reflexivity.
    + symmetry. apply dict_mem_In. unfold dict_keys. apply in_map_iff. now exists (sku, row).
  - exact NS.
  - subst extras. now apply NoDup_filter.
  - intros [sku row] I X. simpl in X. subst extras. apply filter_In in X as [_ X].
    apply negb_true_iff, dict_mem_not_In in X. apply X.
    unfold dict_keys. apply in_map_iff. now exists (sku, row).
Qed.

End ReportOrder.

(** ** The further theorems at the examples *)

(** [diff_additional_attributes_values] at the two values of [A1]: the
    sub-key [size] holds [M] against [L]. *)
Lemma diff_additional_attributes_values_witness :
  dict_get [(lit "size", (lit "M", lit "L"))] (lit "size") = Some (lit "M", lit "L") <->
  set_mem (lit "size") [] = false /\
  ((dict_get [(lit "size", lit "M"); (lit "note", lit "ok")] (lit "size") = Some (lit "M")
    /\ lit "L" = or_empty (dict_get [(lit "size", lit "L"); (lit "note", lit "ok")]
                            (lit "size"))
    /\ lit "M" <> lit "L")
   \/ (dict_get [(lit "size", lit "M"); (lit "note", lit "ok")] (lit "size") = None
       /\ dict_get [(lit "size", lit "L"); (lit "note", lit "ok")] (lit "size")
          = Some (lit "L")
       /\ lit "M" = [])).
Proof.
  apply (@diff_additional_attributes_values unescape_without_ampersand
           (Some example_staging_value) (Some example_production_value) SECTION_MARK []
           [(lit "size", lit "M"); (lit "note", lit "ok")]
           [(lit "size", lit "L"); (lit "note", lit "ok")]
           [(lit "size", (lit "M", lit "L"))] eq_refl eq_refl eq_refl).
Defined.

(** [diff_additional_attributes_same] at the staging value of [A1]. *)
Lemma diff_additional_attributes_same_witness :
  diff_additional_attributes unescape_without_ampersand (Some example_staging_value)
    (Some example_staging_value) SECTION_MARK [lit "note"] = Some [].
Proof.
  apply (@diff_additional_attributes_same unescape_without_ampersand
           (Some example_staging_value) SECTION_MARK [lit "note"]
           [(lit "size", lit "M"); (lit "note", lit "ok")] eq_refl).
Defined.

(** [compare_catalogs_entries] at the entry of [B2] in the example. *)
Lemma compare_catalogs_entries_witness :
  exists sku type field stg_val prod_val,
    diff_entry SKU (lit "B2") MISSING [] [] [] = diff_entry SKU sku type field stg_val prod_val
    /\ ((type = MISSING /\ dict_mem sku example_staging = true)
        \/ (type = EXTRA /\ dict_mem sku example_production = true
            /\ dict_mem sku example_staging = false)
        \/ ((type = DIFFERENT \/ type = DIFFERENT_ATTR)
            /\ dict_mem sku example_staging = true
            /\ dict_mem sku example_production = true)).
Proof.
  apply (@compare_catalogs_entries unescape_without_ampersand [] ADDITIONAL_ATTRIBUTES
           SECTION_MARK [] SKU example_staging example_production example_diffs eq_refl
           (diff_entry SKU (lit "B2") MISSING [] [] [])).
  right; left; reflexivity.
Defined.

(** [different_value_entries] at the color of [A1], red in staging and blue
    in the repainted production. *)
Lemma different_value_entries_witness :
  In (diff_entry SKU (lit "A1") DIFFERENT (lit "color") (lit "red") (lit "blue"))
     example_repainted_diffs <->
  exists stg_row prod_row raw,
    In (lit "A1", stg_row) example_staging /\
    dict_get example_repainted (lit "A1") = Some prod_row /\
    record_truthy prod_row = true /\
    In (lit "color", raw) (r_fields stg_row) /\
    set_mem (lit "color") [] = false /\ lit "color" <> ADDITIONAL_ATTRIBUTES /\
    lit "red" = strip (or_empty raw) /\
    lit "blue" = strip (or_empty (record_get prod_row (lit "color"))) /\
    lit "red" <> lit "blue".
Proof.
  apply (@different_value_entries unescape_without_ampersand [] ADDITIONAL_ATTRIBUTES
           SECTION_MARK [] SKU example_staging example_repainted example_repainted_diffs
           ltac:(closed_strings) eq_refl).
Defined.

(** [attribute_entries] at the sub-key [size] of [A1] in the example. *)
Lemma attribute_entries_witness :
  In (diff_entry SKU (lit "A1") DIFFERENT_ATTR
        (ADDITIONAL_ATTRIBUTES ++ lit ":" ++ lit "size") (lit "M") (lit "L"))
     example_diffs <->
  exists stg_row prod_row raw subdiffs,
    In (lit "A1", stg_row) example_staging /\
    dict_get example_production (lit "A1") = Some prod_row /\
    record_truthy prod_row = true /\
    In (ADDITIONAL_ATTRIBUTES, raw) (r_fields stg_row) /\
    set_mem ADDITIONAL_ATTRIBUTES [] = false /\
    diff_additional_attributes unescape_without_ampersand (Some (strip (or_empty raw)))
      (Some (strip (or_empty (record_get prod_row ADDITIONAL_ATTRIBUTES)))) SECTION_MARK []
      = Some subdiffs /\
    dict_get subdiffs (lit "size") = Some (lit "M", lit "L").
Proof.
  apply (@attribute_entries unescape_without_ampersand [] ADDITIONAL_ATTRIBUTES
           SECTION_MARK [] SKU example_staging example_production example_diffs
           ltac:(closed_strings) eq_refl).
Defined.

(** [report_keys_order] at the example: [A1] and [B2] of staging, then [C3]. *)
Lemma report_keys_order_witness :
  first_occurrences (map (fun diff => slot diff SKU) example_diffs) =
  filter (fun sku => existsb (entry_for SKU sku) example_diffs) (dict_keys example_staging)
  ++ filter (fun sku => negb (dict_mem sku example_staging)) (dict_keys example_production).
Proof.
  apply (@report_keys_order unescape_without_ampersand [] ADDITIONAL_ATTRIBUTES
           SECTION_MARK [] SKU example_staging example_production example_diffs
           ltac:(closed_strings) ltac:(closed_strings) ltac:(closed_strings) eq_refl).
Defined.

(** [write_report_of_comparison] at the example and an output file without
    a directory part. *)
Lemma write_report_of_comparison_witness :
  write_report grants_all [ADDITIONAL_ATTRIBUTES] example_staging (lit "diff_report.csv") SKU
    example_diffs = None <->
  example_diffs <> []
  /\ (dirname (lit "diff_report.csv") = []
      \/ makedirs_returns grants_all (dirname (lit "diff_report.csv")) = false
      \/ open_returns grants_all (lit "diff_report.csv") = false).
Proof.
  apply (@write_report_of_comparison unescape_without_ampersand grants_all []
           ADDITIONAL_ATTRIBUTES SECTION_MARK [] [ADDITIONAL_ATTRIBUTES] SKU
           (lit "diff_report.csv") example_staging example_production example_diffs eq_refl).
Defined.

(** [load_csv_returns] at the document with a comma in its special field. *)
Lemma load_csv_returns_witness :
  exists data, load_csv document_with_comma COMMA ADDITIONAL_ATTRIBUTES SKU = Some data.
Proof. apply load_csv_returns; discriminate. Defined.

(** [load_csv_header_only] at the first line of that document. *)
Lemma load_csv_header_only_witness :
  load_csv (lit "sku,additional_attributes,color") COMMA ADDITIONAL_ATTRIBUTES SKU = Some [].
Proof. apply load_csv_header_only; try discriminate. cbv. lia. Defined.

(** [load_csv_catalog_ok] at the catalog of that document. *)
Lemma load_csv_catalog_ok_witness : catalog_ok example_loaded.
Proof.
  apply (@load_csv_catalog_ok document_with_comma COMMA ADDITIONAL_ATTRIBUTES SKU
           example_loaded eq_refl).
Defined.

(** [load_csv_same_columns] at a row shorter and a row longer than the
    header: both records have the three columns of the header. *)
Lemma load_csv_same_columns_witness :
  dict_keys (r_fields example_short_record) = dict_keys (r_fields example_long_record).
Proof.
  apply (@load_csv_same_columns document_ragged COMMA ADDITIONAL_ATTRIBUTES SKU
           [(lit "A1", example_short_record); (lit "B2", example_long_record)] eq_refl
           (lit "A1") example_short_record (lit "B2") example_long_record).
  - left; reflexivity.
  - right; left; reflexivity.
Defined.

(** [load_csv_keys] at the record of the document with a blank key: its
    key is the empty string, the trimmed value of two spaces. *)
Lemma load_csv_keys_witness :
  exists value,
    record_get (mk_record [(SKU, Some (lit "  ")); (lit "name", Some (lit "x"))] []) SKU
    = Some value /\ value <> [] /\ [] = strip value.
Proof.
  apply (@load_csv_keys document_with_blank_key COMMA ADDITIONAL_ATTRIBUTES SKU
           [([], mk_record [(SKU, Some (lit "  ")); (lit "name", Some (lit "x"))] [])]
           eq_refl).
  left; reflexivity.
Defined.

(** [replace_special_fields_unchanged] at the line with a quoted comma and
    an index beyond its three commas. *)
Lemma replace_special_fields_unchanged_witness :
  replace_special_fields COMMA 4 line_with_comma = line_with_comma.
Proof. apply replace_special_fields_unchanged. right. reflexivity. Defined.

(** [load_csv_without_special_column] at the document with a comma, read
    with a special column the header does not name. *)
Lemma load_csv_without_special_column_witness :
  load_csv document_with_comma COMMA (lit "attributes") SKU =
  (rows <- Csv.DictReader [lit "sku,additional_attributes,color"; line_with_comma] COMMA ;;
   for_each (load_row (lit "attributes") SKU) rows []).
Proof.
  apply load_csv_without_special_column; [reflexivity | closed_strings].
Defined.

(** [restore_protect] at a value with a comma, a line break and the section
    mark. *)
Lemma restore_protect_witness :
  restore (protect (lit "a=1,5" ++ [CR] ++ SECTION_MARK ++ lit "b")) =
  map (fun c => if N.eqb CR c then LF else c)
      (lit "a=1,5" ++ [CR] ++ SECTION_MARK ++ lit "b").
Proof. apply restore_protect. cbv. intuition discriminate. Defined.

(** [protect_clean] at the first character of a protected comma. *)
Lemma protect_clean_witness :
  LESS_THAN <> COMMA /\ LESS_THAN <> LF /\ LESS_THAN <> CR.
Proof. apply (@protect_clean (lit "a,b") LESS_THAN). cbv. tauto. Defined.

(** [main_same_text] at the example configuration, the two files holding
    the same text. *)
Lemma main_same_text_witness :
  main unescape_without_ampersand example_files grants_all example_config
  = Some [NoDifferencesNotice].
Proof.
  apply (proj2 (@main_same_text unescape_without_ampersand example_files grants_all
                  example_config
                  (lit "staging.csv") (lit "production.csv") eq_refl eq_refl eq_refl)
               example_loaded eq_refl).
  - intros sku row [E|[]]. injection E as <- <-. reflexivity.
  - discriminate.
Defined.

(** ** A file with the special column between double quotes *)

Lemma split_scan_cell c cell s p ps :
  ~ In c cell -> split_scan [c] 0 s = p :: ps ->
  split_scan [c] 0 (cell ++ s) = (cell ++ p) :: ps.
Proof.
  intros N E. induction cell as [|ch cell IH]; [exact E|].
  change ((ch :: cell) ++ s) with (ch :: (cell ++ s)).
  cbn [split_scan startswith]. rewrite andb_true_r.
  replace (N.eqb c ch) with false
    by (symmetry; apply N.eqb_neq; intros ->; apply N; now left).
  rewrite IH by (intro I; apply N; now right). reflexivity.
Qed.

(** Splitting at a character undoes joining by it. *)
Lemma split_scan_join c cells :
  cells <> [] -> Forall (fun cell => ~ In c cell) cells ->
  split_scan [c] 0 (join [c] cells) = cells.
Proof.
  intros NE F. induction F as [|cell cells Nc F IH]; [congruence|].
  destruct cells as [|cell' cells].
  - cbn [join]. rewrite <- (app_nil_r cell) at 1.
    rewrite (@split_scan_cell c cell [] [] []) by (assumption || reflexivity).
    now rewrite app_nil_r.
  - rewrite join_cons by discriminate. cbn [app].
    rewrite (@split_scan_cell c cell _ [] (cell' :: cells)); [now rewrite app_nil_r | assumption|].
    cbn [split_scan startswith length Nat.sub]. rewrite N.eqb_refl. cbn [andb].
    now rewrite IH by discriminate.
Qed.

Lemma index_of_middle x l l' :
  ~ In x l -> index_of x (l ++ x :: l') = Z.of_nat (length l).
Proof.
  induction l as [|y l IH]; intro N.
  - cbn [app index_of length]. now rewrite str_eqb_refl.
  - cbn [app index_of length]. str_cases y x; [exfalso; apply N; now left|].
    rewrite IH by (intro I; apply N; now right).
    replace (Z.of_nat (length l) <? 0)%Z with false by (symmetry; apply Z.ltb_ge; lia).
    lia.
Qed.

Lemma list_set_middle l x l' y : list_set (l ++ x :: l') (length l) y = l ++ y :: l'.
Proof. induction l as [|z l IH]; simpl; [reflexivity | now rewrite IH]. Qed.

Lemma strip_quotes_quoted v : strip_quotes ([QUOTE2] ++ v ++ [QUOTE2]) = v.
Proof.
  unfold strip_quotes. cbn [app].
  replace (startswith [QUOTE2] (QUOTE2 :: v ++ [QUOTE2])) with true by reflexivity.
  change (QUOTE2 :: v ++ [QUOTE2]) with ((QUOTE2 :: v) ++ [QUOTE2]) at 1.
  rewrite endswith_one_snoc. cbn [andb orb N.eqb]. rewrite N.eqb_refl.
  unfold slice_1_m1. cbn [tl]. apply removelast_last.
Qed.

(** *** The scan of [replace_special_fields] over such a line *)

Lemma scan_plain delimiter cell s :
  in_quotes s = false ->
  Forall (fun ch => ch <> delimiter /\ ch <> QUOTE2 /\ ch <> QUOTE1) cell ->
  fold_left (scan_char delimiter) cell s =
  mk_scan (parts s) (current s ++ cell) false (quote_char s).
Proof.
  intros Q F. revert s Q; induction F as [|ch cell (Nd & N2 & N1) F IH]; intros s Q.
  - destruct s; simpl in *. subst. now rewrite app_nil_r.
  - cbn [fold_left]. unfold scan_char at 2.
    apply N.eqb_neq in Nd, N2, N1. rewrite Nd, N2, N1. cbn [orb andb].
    rewrite IH by assumption. cbn [parts current quote_char].
    now rewrite <- app_assoc.
Qed.

Lemma scan_inside delimiter v s :
  in_quotes s = true -> quote_char s = Some QUOTE2 -> ~ In QUOTE2 v ->
  fold_left (scan_char delimiter) v s =
  mk_scan (parts s) (current s ++ v) true (Some QUOTE2).
Proof.
  revert s; induction v as [|ch v IH]; intros s Q C N.
  - destruct s; simpl in *. subst. now rewrite app_nil_r.
  - cbn [fold_left]. unfold scan_char at 2. rewrite Q, C. cbn [negb andb].
    assert (N2 : N.eqb ch QUOTE2 = false)
      by (apply N.eqb_neq; intros ->; apply N; now left).
    rewrite N2, (N.eqb_sym QUOTE2 ch), N2, andb_false_r. cbn [orb].
    assert (Step : forall s', parts s' = parts s -> current s' = current s ++ [ch] ->
                     in_quotes s' = true -> quote_char s' = Some QUOTE2 ->
                     fold_left (scan_char delimiter) v s' =
                     mk_scan (parts s) (current s ++ ch :: v) true (Some QUOTE2)).
    { intros s' P Cu Q' C'. rewrite IH by (try assumption; intro I; apply N; now right).
      rewrite P, Cu, <- app_assoc. reflexivity. }
    destruct (N.eqb ch QUOTE1); apply Step; reflexivity || assumption.
Qed.

Lemma scan_quoted delimiter v s :
  in_quotes s = false -> ~ In QUOTE2 v ->
  fold_left (scan_char delimiter) ([QUOTE2] ++ v ++ [QUOTE2]) s =
  mk_scan (parts s) (current s ++ [QUOTE2] ++ v ++ [QUOTE2]) false (Some QUOTE2).
Proof.
  intros Q N. cbn [app fold_left]. unfold scan_char at 2. rewrite Q. cbn [N.eqb orb negb].
  rewrite N.eqb_refl. cbn [orb]. rewrite fold_left_app.
  rewrite (@scan_inside delimiter v
             (mk_scan (parts s) (current s ++ [QUOTE2]) true (Some QUOTE2)) eq_refl eq_refl N).
  cbn [fold_left]. unfold scan_char. cbn [in_quotes quote_char negb parts current].
  rewrite !N.eqb_refl. cbn [orb]. now rewrite <- !app_assoc.
Qed.

Lemma scan_cell delimiter cell s :
  in_quotes s = false -> scannable delimiter cell ->
  exists q,
    fold_left (scan_char delimiter) cell s = mk_scan (parts s) (current s ++ cell) false q.
Proof.
  intros Q [F | (v & N & ->)].
  - eexists. now apply scan_plain.
  - eexists. now apply scan_quoted.
Qed.

Lemma scan_delimiter delimiter s :
  delimiter <> QUOTE2 -> delimiter <> QUOTE1 -> in_quotes s = false ->
  scan_char delimiter s delimiter =
  mk_scan (parts s ++ [current s]) [] false (quote_char s).
Proof.
  intros D2 D1 Q. unfold scan_char. apply N.eqb_neq in D2, D1.
  rewrite D2, D1, N.eqb_refl, Q. reflexivity.
Qed.

Lemma scan_cells delimiter cells cell s :
  delimiter <> QUOTE2 -> delimiter <> QUOTE1 ->
  in_quotes s = false -> scannable delimiter cell -> Forall (scannable delimiter) cells ->
  let s' := fold_left (scan_char delimiter) (join [delimiter] (cell :: cells)) s in
  parts s' ++ [current s'] = parts s ++ (current s ++ cell) :: cells.
Proof.
  intros D2 D1 Q C F. revert cell s Q C; induction F as [|cell' cells C' F IH];
    intros cell s Q C; cbn zeta.
  - cbn [join]. destruct (scan_cell s Q C) as (q & ->). reflexivity.
  - rewrite join_cons by discriminate. rewrite !fold_left_app.
    destruct (scan_cell s Q C) as (q & ->). cbn [fold_left].
    rewrite scan_delimiter by (assumption || reflexivity).
    cbn [in_quotes parts current quote_char].
    specialize (IH cell' (mk_scan (parts s ++ [current s ++ cell]) [] false q) eq_refl C').
    cbn zeta in IH. etransitivity; [exact IH|].
    cbn [parts current app]. now rewrite <- app_assoc.
Qed.

(** What [replace_special_fields] makes of the line of a row: the value of
    the special column loses its quotes and is protected, and nothing else
    changes. *)
Lemma replace_special_fields_written row :
  Forall plain_cell (cells_before row) -> Forall plain_cell (cells_after row) ->
  quotable (special_value row) ->
  replace_special_fields COMMA (Z.of_nat (length (cells_before row))) (written row) =
  join [COMMA] (cells_before row ++ protect (special_value row) :: cells_after row).
Proof.
  intros Fb Fa Qv.
  assert (Plain : forall cells, Forall plain_cell cells -> Forall (scannable COMMA) cells).
  { intros cells F. eapply Forall_impl; [|exact F]. intros cell Fc. left.
    eapply Forall_impl; [|exact Fc]. cbv beta. tauto. }
  assert (Cells : Forall (scannable COMMA)
                    (cells_before row
                     ++ ([QUOTE2] ++ special_value row ++ [QUOTE2]) :: cells_after row)).
  { apply Forall_app. split; [now apply Plain|]. constructor; [|now apply Plain].
    right. exists (special_value row). split; [|reflexivity].
    intro I. unfold quotable in Qv. rewrite Forall_forall in Qv.
    destruct (Qv QUOTE2 I) as [H _]. now apply H. }
  unfold replace_special_fields, written.
  set (cells := cells_before row
                ++ ([QUOTE2] ++ special_value row ++ [QUOTE2]) :: cells_after row) in *.
  assert (Scan : let s := fold_left (scan_char COMMA) (join [COMMA] cells)
                            (mk_scan [] [] false None) in
                 parts s ++ [current s] = cells).
  { destruct cells as [|cell cells'] eqn:Ec.
    - subst cells. now destruct (cells_before row).
    - inversion Cells as [|? ? C F]; subst.
      apply (@scan_cells COMMA cells' cell (mk_scan [] [] false None));
        (discriminate || reflexivity || assumption). }
  cbn zeta in Scan. rewrite Scan.
  replace ((0 <=? Z.of_nat (length (cells_before row)))%Z
           && (Z.of_nat (length (cells_before row)) <? Z.of_nat (length cells))%Z)
    with true.
  - rewrite Nat2Z.id. subst cells. rewrite nth_middle, list_set_middle.
    now rewrite strip_quotes_quoted.
  - symmetry. apply andb_true_iff. split; [apply Z.leb_le; lia | apply Z.ltb_lt].
    subst cells. rewrite length_app. simpl. lia.
Qed.

(** *** The reader over lines of plain cells *)

Lemma for_each_app A S (body : S -> A -> option S) (l l' : list A) (s : S) :
  for_each body (l ++ l') s = s' <- for_each body l s ;; for_each body l' s'.
Proof.
  revert s; induction l as [|a l IH]; intro s; simpl; [reflexivity|].
  destruct (body s a); simpl; [apply IH | reflexivity].
Qed.

Section ReaderFacts.

Variable delimiter : char.
Hypothesis delimiter_no_quote : delimiter <> QUOTE2.
Hypothesis delimiter_no_break : Csv.is_crnl delimiter = false.

(** A cell the reader takes as it is. *)
Abbreviation unquoted :=
  (Forall (fun ch => ch <> delimiter /\ ch <> QUOTE2 /\ Csv.is_crnl ch = false)).

(** The reader is at the start of a record or of a field, or in a field
    without quotes. *)
Abbreviation between r :=
  (Csv.state r = Csv.START_RECORD \/ Csv.state r = Csv.START_FIELD
   \/ Csv.state r = Csv.IN_FIELD).

Lemma read_char r ch :
  between r -> ch <> delimiter -> ch <> QUOTE2 -> Csv.is_crnl ch = false ->
  Csv.parse_process_char delimiter r (Some ch) =
  Some (Csv.mk_reader Csv.IN_FIELD (Csv.fields r) (Csv.field r ++ [ch])).
Proof.
  intros B Nd Nq Nb. apply N.eqb_neq in Nd, Nq.
  unfold Csv.parse_process_char, Csv.start_field.
  destruct B as [St | [St | St]]; rewrite St, ?Nb; cbn [Csv.state Csv.set_state];
    rewrite ?Nb, ?Nq, ?Nd; try reflexivity.
  unfold Csv.parse_add_char. now rewrite St.
Qed.

Lemma read_cell cell r :
  between r -> unquoted cell ->
  for_each (fun r ch => Csv.parse_process_char delimiter r (Some ch)) cell r =
  Some (match cell with
        | [] => r
        | _ :: _ => Csv.mk_reader Csv.IN_FIELD (Csv.fields r) (Csv.field r ++ cell)
        end).
Proof.
  intros B F. revert r B; induction F as [|ch cell (Nd & Nq & Nb) F IH]; intros r B;
    [reflexivity|].
  cbn [for_each]. rewrite read_char by assumption. cbn [bind].
  rewrite IH by (right; right; reflexivity).
  destruct cell; cbn [Csv.fields Csv.field]; [reflexivity|].
  now rewrite <- app_assoc.
Qed.

Lemma read_delimiter r :
  between r ->
  Csv.parse_process_char delimiter r (Some delimiter) =
  Some (Csv.mk_reader Csv.START_FIELD (Csv.fields r ++ [Csv.field r]) []).
Proof.
  intros B. pose proof delimiter_no_quote as Nq. apply N.eqb_neq in Nq.
  unfold Csv.parse_process_char, Csv.start_field.
  destruct B as [St | [St | St]]; rewrite St, ?delimiter_no_break;
    cbn [Csv.state Csv.set_state]; rewrite ?delimiter_no_break, ?Nq, ?N.eqb_refl;
    try reflexivity.
  unfold Csv.parse_save_field. now rewrite St.
Qed.

Lemma read_end r :
  Csv.state r = Csv.START_FIELD \/ Csv.state r = Csv.IN_FIELD ->
  Csv.parse_process_char delimiter r None =
  Some (Csv.mk_reader Csv.START_RECORD (Csv.fields r ++ [Csv.field r]) []).
Proof.
  unfold Csv.parse_process_char, Csv.start_field. intros [St | St]; rewrite St; reflexivity.
Qed.

(** A line of plain cells ends a record whose fields are the cells. *)
Lemma read_cells cells cell r :
  between r -> (Csv.state r <> Csv.START_RECORD \/ cell <> [] \/ cells <> []) ->
  Forall unquoted (cell :: cells) ->
  Csv.process_line delimiter r (join [delimiter] (cell :: cells)) =
  Some (Csv.mk_reader Csv.START_RECORD
          (Csv.fields r ++ (Csv.field r ++ cell) :: cells) []).
Proof.
  intros B NE F. revert cell r B NE F; induction cells as [|cell' cells IH];
    intros cell r B NE F; inversion F as [|? ? Fc F']; subst; unfold Csv.process_line.
  - cbn [join]. rewrite read_cell by assumption. cbn [bind].
    destruct cell as [|ch cell].
    + rewrite read_end, app_nil_r; [reflexivity|].
      destruct NE as [NE | [NE | NE]]; [|congruence..].
      destruct B as [St | B]; [congruence | exact B].
    + rewrite read_end by (right; reflexivity). reflexivity.
  - rewrite join_cons by discriminate. rewrite for_each_app, read_cell by assumption.
    cbn [bind app for_each].
    set (r1 := match cell with
               | [] => r
               | _ :: _ => Csv.mk_reader Csv.IN_FIELD (Csv.fields r) (Csv.field r ++ cell)
               end).
    assert (B1 : between r1) by (subst r1; destruct cell; [exact B | right; right; reflexivity]).
    assert (E1 : Csv.fields r1 = Csv.fields r /\ Csv.field r1 = Csv.field r ++ cell).
    { subst r1. destruct cell; cbn; [now rewrite app_nil_r | tauto]. }
    destruct E1 as [E1 E2]. rewrite read_delimiter by assumption. cbn [bind].
    specialize (IH cell' (Csv.mk_reader Csv.START_FIELD (Csv.fields r1 ++ [Csv.field r1]) [])).
    unfold Csv.process_line in IH. rewrite IH.
    + cbn [Csv.fields Csv.field app]. now rewrite E1, E2, <- app_assoc.
    + right; left; reflexivity.
    + left. discriminate.
    + assumption.
Qed.

(** Lines of plain cells, none of them empty, give one record each. *)
Lemma reader_rows_cells (rows : list (list str)) :
  Forall (fun cells => join [delimiter] cells <> [] /\ Forall unquoted cells) rows ->
  Csv.reader_rows delimiter Csv.parse_reset (map (join [delimiter]) rows) = Some rows.
Proof.
  induction 1 as [|cells rows (NE & F) Fr IH]; [reflexivity|].
  cbn [map Csv.reader_rows]. destruct cells as [|cell cells]; [now contradiction NE|].
  rewrite read_cells; [|left; reflexivity| |assumption].
  - cbn [bind Csv.state Csv.state_eqb Csv.fields Csv.field Csv.parse_reset app].
    now rewrite IH.
  - right. destruct cell; [|left; discriminate]. destruct cells; [now contradiction NE|].
    right. discriminate.
Qed.

End ReaderFacts.

(** *** The records of such a file *)

Lemma dict_row_exact names cells :
  NoDup names -> length cells = length names ->
  Csv.dict_row names cells = mk_record (combine names (map (@Some str) cells)) [].
Proof.
  intros ND L. unfold Csv.dict_row, dict_literal.
  replace (Nat.ltb (length names) (length cells)) with false
    by (symmetry; apply Nat.ltb_ge; lia).
  rewrite L, skipn_all. cbn [fold_left]. f_equal.
  rewrite assign_all_fresh; [reflexivity|].
  unfold dict_keys. cbn [map app]. rewrite map_fst_combine, length_map, L, firstn_all.
  assumption.
Qed.

Lemma combine_middle A B (l : list A) (x : A) (l' : list A) (m : list B) (y : B)
    (m' : list B) :
  length l = length m ->
  combine (l ++ x :: l') (m ++ y :: m') = combine l m ++ (x, y) :: combine l' m'.
Proof.
  revert m; induction l as [|a l IH]; intros [|b m] L; simpl in *; try lia; [reflexivity|].
  now rewrite IH by lia.
Qed.

Lemma dict_get_middle V (l : dict V) k v l' :
  ~ In k (dict_keys l) -> dict_get (l ++ (k, v) :: l') k = Some v.
Proof.
  induction l as [|[k0 v0] l IH]; simpl; intro N.
  - now rewrite str_eqb_refl.
  - str_cases k0 k; [exfalso; apply N; now left | apply IH; tauto].
Qed.

Lemma dict_set_middle V (l : dict V) k v l' v' :
  ~ In k (dict_keys l) -> dict_set (l ++ (k, v) :: l') k v' = l ++ (k, v') :: l'.
Proof.
  induction l as [|[k0 v0] l IH]; simpl; intro N.
  - now rewrite str_eqb_refl.
  - str_cases k0 k; [exfalso; apply N; now left|]. now rewrite IH by tauto.
Qed.

Lemma protect_empty v : protect v = [] -> v = [].
Proof.
  intro E. destruct v as [|c v]; [reflexivity|]. exfalso. revert E.
  unfold protect. repeat apply replace_nonempty; discriminate.
Qed.

Lemma restore_protect_quotable v : quotable v -> restore (protect v) = v.
Proof.
  intro Q. unfold quotable in Q. rewrite Forall_forall in Q.
  rewrite protect_lex, restore_tokens, lex_original.
  - rewrite <- (map_id v) at 2. apply map_ext_in. intros c I.
    destruct (N.eqb_spec CR c) as [<-|_]; [|reflexivity].
    now destruct (Q CR I) as (_ & _ & H & _).
  - apply lex_plain. apply Forall_forall. intros c I. now destruct (Q c I) as (_ & H & _).
Qed.

(** In the stored record the value of the special column is the value that
    was written, when the reader's record holds the protected value. *)
Lemma restored_written names_before special_field names_after cells cells' v :
  ~ In special_field names_before -> length cells = length names_before -> quotable v ->
  restored special_field
    (mk_record (combine (names_before ++ special_field :: names_after)
                  (map (@Some str) (cells ++ protect v :: cells'))) [])
  = mk_record (combine (names_before ++ special_field :: names_after)
                 (map (@Some str) (cells ++ v :: cells'))) [].
Proof.
  intros N L Q. unfold restored, record_get. cbn [r_fields r_rest].
  rewrite !map_app. cbn [map]. rewrite !combine_middle by (rewrite length_map; lia).
  assert (Nk : ~ In special_field (dict_keys (combine names_before (map (@Some str) cells)))).
  { unfold dict_keys. rewrite map_fst_combine, length_map, L, firstn_all. assumption. }
  rewrite dict_get_middle by assumption.
  destruct (protect v) as [|c w] eqn:P.
  - apply protect_empty in P. now subst v.
  - rewrite dict_set_middle by assumption. rewrite <- P, restore_protect_quotable by assumption.
    reflexivity.
Qed.

Lemma restored_key_empty special_field key_field row :
  record_get row key_field = None \/ record_get row key_field = Some [] ->
  record_get (restored special_field row) key_field = record_get row key_field.
Proof.
  intro K. unfold restored.
  destruct (record_get row special_field) as [[|c w]|] eqn:Sp; try reflexivity.
  unfold record_get at 1. cbn [r_fields]. str_cases special_field key_field.
  - subst. rewrite Sp in K. destruct K; discriminate.
  - now rewrite dict_get_set_other.
Qed.

(** The item of a row, read off the record as it is stored. *)
Lemma stored_item_restored special_field key_field row :
  stored_item special_field key_field row =
  match record_get (restored special_field row) key_field with
  | Some ((_ :: _) as key) => [(strip key, restored special_field row)]
  | _ => []
  end.
Proof.
  unfold stored_item. destruct (record_get row key_field) as [[|c v]|] eqn:K.
  - rewrite restored_key_empty, K by (right; exact K). reflexivity.
  - destruct (@restored_key_column special_field _ _ _ _ K) as (v' & -> & N).
    destruct v'; [congruence | reflexivity].
  - rewrite restored_key_empty, K by (left; exact K). reflexivity.
Qed.

Lemma join_two_nonempty sep cell cell' cells :
  sep <> [] -> join sep (cell :: cell' :: cells) <> [].
Proof.
  intros N E. rewrite join_cons in E by discriminate.
  apply app_eq_nil in E as [_ E]. apply app_eq_nil in E as [E _]. contradiction.
Qed.

Lemma protect_unquoted v :
  quotable v ->
  Forall (fun ch => ch <> COMMA /\ ch <> QUOTE2 /\ Csv.is_crnl ch = false) (protect v).
Proof.
  intro Q. apply Forall_forall. intros c I.
  assert (N2 : c <> QUOTE2).
  { intros ->. revert I. unfold protect.
    repeat (apply replace_absent; [cbv; intuition discriminate|]).
    unfold quotable in Q. rewrite Forall_forall in Q. intro I.
    now destruct (Q QUOTE2 I) as (H & _). }
  destruct (protect_separators _ _ I) as (Nc & Nl & Nr). repeat split; try assumption.
  unfold Csv.is_crnl. apply orb_false_iff. split; now apply N.eqb_neq.
Qed.

Lemma plain_cell_unquoted cell :
  plain_cell cell ->
  Forall (fun ch => ch <> COMMA /\ ch <> QUOTE2 /\ Csv.is_crnl ch = false) cell.
Proof.
  intro P. eapply Forall_impl; [|exact P]. intros ch (Nc & N2 & _ & Nr & Nl).
  repeat split; try assumption.
  unfold Csv.is_crnl. apply orb_false_iff. split; now apply N.eqb_neq.
Qed.

Section QuotedFile.

Variables (names_before : list str) (special_field : str) (names_after : list str).
Variable key_field : str.

Abbreviation names := (names_before ++ special_field :: names_after).

Hypothesis names_distinct : NoDup names.
Hypothesis names_plain : Forall plain_cell names.
Hypothesis two_columns : names_before ++ names_after <> [].

(** The cells of the line [replace_special_fields] returns for a row. *)
Abbreviation protected_cells row :=
  (cells_before row ++ protect (special_value row) :: cells_after row).

Lemma special_field_first : ~ In special_field names_before.
Proof.
  intro I. apply NoDup_remove_2 in names_distinct. apply names_distinct.
  apply in_or_app. now left.
Qed.

Lemma names_line : join [COMMA] names <> [].
Proof.
  destruct names_before as [|n nb]; cbn [app].
  - destruct names_after as [|n na]; [now contradiction two_columns|].
    now apply join_two_nonempty.
  - destruct (nb ++ special_field :: names_after) eqn:E;
      [now destruct nb | now apply join_two_nonempty].
Qed.

Lemma protected_line row :
  fits names_before names_after row ->
  join [COMMA] (protected_cells row) <> []
  /\ Forall (Forall (fun ch => ch <> COMMA /\ ch <> QUOTE2 /\ Csv.is_crnl ch = false))
            (protected_cells row).
Proof.
  intros (Lb & La & Pb & Pa & Q). split.
  - destruct (cells_before row) as [|c cb] eqn:Eb; cbn [app].
    + destruct (cells_after row) as [|c ca] eqn:Ea; [|now apply join_two_nonempty].
      exfalso. apply two_columns.
      destruct names_before; [|discriminate Lb]. destruct names_after; [|discriminate La].
      reflexivity.
    + destruct (cb ++ protect (special_value row) :: cells_after row) eqn:E;
        [now destruct cb | now apply join_two_nonempty].
  - apply Forall_app. split; [|constructor].
    + eapply Forall_impl; [|exact Pb]. apply plain_cell_unquoted.
    + now apply protect_unquoted.
    + eapply Forall_impl; [|exact Pa]. apply plain_cell_unquoted.
Qed.

Lemma loaded_item row :
  fits names_before names_after row ->
  stored_item special_field key_field (Csv.dict_row names (protected_cells row)) =
  loaded names key_field row.
Proof.
  intros (Lb & La & Pb & Pa & Q).
  rewrite dict_row_exact by (assumption || (rewrite !length_app; simpl; lia)).
  rewrite stored_item_restored.
  rewrite restored_written by (assumption || apply special_field_first).
  reflexivity.
Qed.

(** X25.  A file with the special column between double quotes loads into
    the records that were written.  The header names at least two columns,
    each once, in plain cells; every row has a plain cell for every other
    column and, between double quotes, a value of the special column
    without double quote, [<] and line break.  Then [load_csv], with the
    comma as delimiter, returns the dict of the rows' items: every record
    holds the cells of its row under the names of the header, the value of
    the special column as it was written, commas and section marks
    included. *)
Theorem load_csv_quoted_special_field rows content :
  Forall (fits names_before names_after) rows ->
  splitlines content = join [COMMA] names :: map written rows ->
  load_csv content COMMA special_field key_field =
  Some (dict_literal (flat_map (loaded names key_field) rows)).
Proof.
  intros F S. unfold load_csv. rewrite S. cbn [split bind].
  rewrite split_scan_join;
    [| now destruct names_before
     | eapply Forall_impl; [|exact names_plain]; intros cell P I;
       unfold plain_cell in P; rewrite Forall_forall in P;
       now destruct (P COMMA I) as (H & _)].
  rewrite index_of_middle by apply special_field_first.
  assert (Lines : map (replace_special_fields COMMA (Z.of_nat (length names_before)))
                    (map written rows)
                  = map (join [COMMA]) (map (fun row => protected_cells row) rows)).
  { rewrite !map_map. apply map_ext_in. intros row I.
    rewrite Forall_forall in F. destruct (F row I) as (Lb & La & Pb & Pa & Q).
    rewrite <- Lb. now apply replace_special_fields_written. }
  rewrite Lines. unfold Csv.DictReader, Csv.reader_list.
  change (join [COMMA] names :: map (join [COMMA]) (map (fun row => protected_cells row) rows))
    with (map (join [COMMA]) (names :: map (fun row => protected_cells row) rows)).
  rewrite reader_rows_cells; [|discriminate | reflexivity|].
  - cbn [bind]. rewrite filter_all.
    + rewrite load_rows_stored. unfold dict_literal. do 2 f_equal.
      rewrite map_map, flat_map_concat_map, map_map, <- flat_map_concat_map.
      clear S Lines. induction F as [|row rows Fr F IH]; [reflexivity|].
      cbn [flat_map]. now rewrite loaded_item, IH.
    + intros cells I. apply in_map_iff in I as (row & <- & _).
      now destruct (cells_before row).
  - constructor.
    + split; [apply names_line|].
      eapply Forall_impl; [|exact names_plain]. apply plain_cell_unquoted.
    + apply Forall_map. eapply Forall_impl; [|exact F]. apply protected_line.
Qed.

End QuotedFile.

(** [load_csv_quoted_special_field] at the document with a comma and the
    section mark in its special field. *)
Lemma load_csv_quoted_special_field_witness :
  load_csv document_with_comma COMMA ADDITIONAL_ATTRIBUTES SKU = Some example_loaded.
Proof.
  apply (@load_csv_quoted_special_field [SKU] ADDITIONAL_ATTRIBUTES [lit "color"] SKU
           ltac:(closed_strings) ltac:(repeat constructor; cbv; intuition discriminate)
           ltac:(discriminate)
           [mk_written [lit "A1"] (lit "a=1,5" ++ SECTION_MARK ++ lit "b") [lit "red"]]
           document_with_comma).
  - repeat constructor; cbv; intuition discriminate.
  - reflexivity.
Defined.
